(** * bs_python_utils: numerical helpers and distance covariances

    A shallow embedding of the numerical core of [bs_python_utils]
    ([bsnputils.py] and [distance_covariances.py]).

    Python floats and the entries of numpy arrays are modelled by the real
    numbers [R]: every arithmetic operation is exact, there is no rounding,
    no [nan] and no [inf].  Where numpy would produce [nan] or [inf]
    (logarithm of a non-positive number, division by zero) the model uses
    the total functions of the standard library ([ln], [/]); the statements
    below say so wherever their conclusion depends on such a value.

    Calls either return a value, abort the process ([bs_error_abort],
    [sys.exit]) or raise a Python exception; console output ([print]) is
    recorded in a trace. *)

From Stdlib Require Import Reals Lra Lia ZArith String DecimalString.
From stdpp Require Import base list.

Open Scope R_scope.

(** ** Decidable comparisons on floats *)

#[global] Instance Rlt_decision : RelDecision Rlt := Rlt_dec.
#[global] Instance Rle_decision : RelDecision Rle := Rle_dec.
#[global] Instance Rgt_decision : RelDecision Rgt := Rgt_dec.
#[global] Instance Rge_decision : RelDecision Rge := Rge_dec.
#[global] Instance Req_decision : RelDecision (@eq R) := Req_dec_T.

(** ** Arrays *)

(** A numpy array of floats: its shape and its entries in row-major
    (ravel) order. *)
Record ndarray : Type := mk_ndarray {
  shape : list nat;
  data : list R
}.

(** Elementwise application of a scalar function (also models the
    broadcast of a scalar operand). *)
Definition amap (f : R -> R) (a : ndarray) : ndarray :=
  mk_ndarray (shape a) (map f (data a)).

(** Elementwise binary operation of two arrays of the same shape. *)
Definition azip (f : R -> R -> R) (a b : ndarray) : ndarray :=
  mk_ndarray (shape a) (zip_with f (data a) (data b)).

(** [np.where(a > bound, x, y)] *)
Definition where_gt (a : ndarray) (bound : R) (x y : ndarray) : ndarray :=
  mk_ndarray (shape a)
    (zip_with (fun (c : bool) (xy : R * R) => if c then fst xy else snd xy)
       (map (fun v => bool_decide (bound < v)) (data a))
       (zip (data x) (data y))).

(** [np.where(a < bound, x, y)] *)
Definition where_lt (a : ndarray) (bound : R) (x y : ndarray) : ndarray :=
  mk_ndarray (shape a)
    (zip_with (fun (c : bool) (xy : R * R) => if c then fst xy else snd xy)
       (map (fun v => bool_decide (v < bound)) (data a))
       (zip (data x) (data y))).

(** [np.full(shape, v)] *)
Definition np_full (sh : list nat) (v : R) : ndarray :=
  mk_ndarray sh (replicate (foldr Nat.mul 1%nat sh) v).

(** [a.ravel()] and [a.reshape(sh)] *)
Definition ravel (a : ndarray) : ndarray :=
  mk_ndarray [length (data a)] (data a).
Definition reshape (sh : list nat) (a : ndarray) : ndarray :=
  mk_ndarray sh (data a).

(** [np.sum(a < bound)] and [np.sum(a > bound)]: number of entries below
    (above) a bound. *)
Definition count_lt (a : ndarray) (bound : R) : nat :=
  length (filter (fun v => v < bound) (data a)).
Definition count_gt (a : ndarray) (bound : R) : nat :=
  length (filter (fun v => bound < v) (data a)).

(** ** Values, console output and outcomes *)

(** What a call of one of the smooth extensions hands back: [None] (the
    function body ran off its end), a bare array, or a tuple of arrays. *)
Inductive pyval : Type :=
| PNone
| PArray (a : ndarray)
| PTuple (l : list ndarray).

(** The arrays a returned value is made of, in order. *)
Definition components (v : pyval) : list ndarray :=
  match v with
  | PNone => []
  | PArray a => [a]
  | PTuple l => l
  end.

(** One call of [print]. *)
Inductive event : Type :=
| PrintText (s : string)
| PrintArray (label : string) (a : ndarray)
| PrintCount (fn : string) (count : nat) (what : string) (bound extreme : R).

Inductive outcome (A : Type) : Type :=
| Return (a : A)
| Abort (msg : string)
| Raise (exc : string).
Arguments Return {A} a.
Arguments Abort {A} msg.
Arguments Raise {A} exc.

(** A computation: the console output it produced and how it ended. *)
Definition py (A : Type) : Type := (list event * outcome A)%type.

Definition ret {A} (a : A) : py A := ([], Return a).

Definition bind {A B} (m : py A) (k : A -> py B) : py B :=
  match m with
  | (t, Return a) => let '(t', r) := k a in (t ++ t', r)
  | (t, Abort msg) => (t, Abort msg)
  | (t, Raise exc) => (t, Raise exc)
  end.

Notation "x <- m ;; k" := (bind m (fun x => k))
  (at level 100, m at next level, right associativity).
Notation "m ;;; k" := (bind m (fun _ => k))
  (at level 100, right associativity).

Definition print (e : event) : py unit := ([e], Return tt).
Definition raise {A} (exc : string) : py A := ([], Raise exc).

(** Modelled from the spec: [bs_error_abort] lives in [bsutils.py], which
    is not part of the sources at hand.  The spec describes it as the
    failure channel of the validators: process-abort-style reporting with
    a formatted message, a fatal precondition violation and not a
    recoverable error.  Nothing after the call is executed. *)
Definition bs_error_abort {A} (msg : string) : py A := ([], Abort msg).

(** [for i in range: s = body(s, i)] in the monad. *)
Fixpoint for_each {S : Type} (body : S -> nat -> py S) (range : list nat)
  (s : S) : py S :=
  match range with
  | [] => ret s
  | i :: rest => s' <- body s i ;; for_each body rest s'
  end.

(** [[g(a) for a in l]] in the monad. *)
Fixpoint map_each {A B : Type} (g : A -> py B) (l : list A) : py (list B) :=
  match l with
  | [] => ret []
  | a :: rest => b <- g a ;; bs <- map_each g rest ;; ret (b :: bs)
  end.

(** The value a computation returned, if it returned. *)
Definition returned {A} (m : py A) : option A :=
  match snd m with
  | Return a => Some a
  | _ => None
  end.

(** The console output of a computation. *)
Definition output {A} (m : py A) : list event := fst m.

(** [str(z)] for a Python integer. *)
Definition pystr (z : Z) : string := NilZero.string_of_int (Z.to_int z).

(** ** Scalar library functions *)

(** [math.log]: raises [ValueError] outside the positive reals. *)
Definition math_log (x : R) : py R :=
  if bool_decide (0 < x) then ret (ln x)
  else raise "ValueError: math domain error".

(** [np.log], elementwise.  numpy yields [nan] or [-inf] (with a warning)
    on non-positive entries; [ln] is only meaningful on positive ones. *)
Definition np_log (a : ndarray) : ndarray := amap ln a.

(** [np.min]: raises [ValueError] on an empty array. *)
Definition np_min (a : ndarray) : py R :=
  match data a with
  | [] => raise "ValueError: zero-size array to reduction operation minimum which has no identity"
  | x :: xs => ret (foldr Rmin x xs)
  end.

(** [np.max]: raises [ValueError] on an empty array. *)
Definition np_max (a : ndarray) : py R :=
  match data a with
  | [] => raise "ValueError: zero-size array to reduction operation maximum which has no identity"
  | x :: xs => ret (foldr Rmax x xs)
  end.

(** [np.sum] of a 1-d array. *)
Definition sum_list (l : list R) : R := foldr Rplus 0 l.

(** [v[i]], raising [IndexError] out of range. *)
Definition getitem {A} (v : list A) (i : nat) : py A :=
  match v !! i with
  | Some r => ret r
  | None => raise "IndexError: index out of bounds"
  end.

(** [v[i]] for a 1-d array read at an index known to be in range (the
    default is never used by the code below). *)
Definition item (v : list R) (i : nat) : R := default 0 (v !! i).

(** A 2-d array, as the list of its rows.  numpy arrays are rectangular:
    all rows have the length of the first one. *)
Definition matrix : Type := list (list R).
Definition nrows (A : matrix) : nat := length A.
Definition ncols (A : matrix) : nat :=
  match A with
  | [] => 0%nat
  | r :: _ => length r
  end.
Definition rectangular (A : matrix) : Prop :=
  Forall (fun r => length r = ncols A) A.

(** ** bsnputils.py *)

Module Bsnputils.

(** [deriv not in [0, 1, 2]] *)
Definition deriv_not_in_012 (deriv : Z) : bool :=
  negb ((deriv =? 0)%Z || (deriv =? 1)%Z || (deriv =? 2)%Z).

Definition nplog (arr : ndarray) (eps : R) (deriv : Z) (verbose : bool)
  : py pyval :=
  (if deriv_not_in_012 deriv
   then bs_error_abort ("deriv can only be 0, 1, or 2; not " ++ pystr deriv)
   else ret tt) ;;;
  mn <- np_min arr ;;
  if bool_decide (eps < mn) then
    if (deriv =? 0)%Z then ret (PArray (np_log arr))
    else if (deriv =? 1)%Z then
      ret (PTuple [np_log arr; amap (fun a => 1 / a) arr])
    else if (deriv =? 2)%Z then
      ret (PTuple [np_log arr; amap (fun a => 1 / a) arr;
                   amap (fun a => - 1 / (a * a)) arr])
    else ret PNone
  else
    let logarreps := np_log (amap (fun a => Rmax a eps) arr) in
    let darr := amap (fun a => 1 - a / eps) arr in
    log_eps <- math_log eps ;;
    let logarr_smaller :=
      amap (fun d => log_eps - d * (1 + d / 2)) darr in
    (if verbose then
       let n_small_args := count_lt arr eps in
       if (0 <? n_small_args)%nat
       then print (PrintCount "nplog" n_small_args "smaller than" eps mn)
       else ret tt
     else ret tt) ;;;
    let logeps := where_gt arr eps logarreps logarr_smaller in
    if (deriv =? 0)%Z then ret (PArray logeps)
    else
      let arreps := amap (fun a => Rmax a eps) arr in
      let der_logarreps := amap (fun a => 1 / a) arreps in
      let der_logarr_smaller := amap (fun d => (1 + d) / eps) darr in
      let dlogeps := where_gt arr eps der_logarreps der_logarr_smaller in
      if (deriv =? 1)%Z then ret (PTuple [logeps; dlogeps])
      else
        let der2_logarreps := amap (fun a => - 1 / (a * a)) arreps in
        let der2_logarr_smaller := np_full (shape arr) (- 1 / (eps * eps)) in
        let d2logeps :=
          where_gt arr eps der2_logarreps der2_logarr_smaller in
        ret (PTuple [logeps; dlogeps; d2logeps]).

Definition npexp (arr : ndarray) (bigx lowx : R) (deriv : Z) (verbose : bool)
  : py pyval :=
  (if deriv_not_in_012 deriv
   then bs_error_abort ("deriv can only be 0, 1, or 2; not " ++ pystr deriv)
   else ret tt) ;;;
  min_arr <- np_min arr ;;
  max_arr <- np_max arr ;;
  if bool_decide (max_arr <= bigx) && bool_decide (min_arr >= lowx) then
    let exparr := amap exp arr in
    if (deriv =? 0)%Z then ret (PArray exparr)
    else if (deriv =? 1)%Z then ret (PTuple [exparr; exparr])
    else if (deriv =? 2)%Z then ret (PTuple [exparr; exparr; exparr])
    else ret PNone
  else
    let exparr := amap (fun a => exp (Rmax (Rmin a bigx) lowx)) arr in
    print (PrintArray "exparr=" exparr) ;;;
    let ebigx := exp bigx in
    let elowx := exp lowx in
    let darrb := amap (fun a => a - bigx) arr in
    let darrl := amap (fun a => lowx - a) arr in
    let exparr_larger :=
      amap (fun d => ebigx * (1 + d * (1 + 0.5 * d))) darrb in
    let exparr_smaller :=
      amap (fun d => elowx * (1 - d * (1 - 0.5 * d))) darrl in
    (if verbose then
       print (PrintCount "npexp" (count_gt arr bigx) "larger than"
                bigx max_arr) ;;;
       print (PrintCount "npexp" (count_lt arr lowx) "smaller than"
                lowx min_arr)
     else ret tt) ;;;
    let expval := exparr in
    print (PrintArray "" expval) ;;;
    let expval := where_gt arr bigx exparr_larger expval in
    let expval := where_lt arr lowx exparr_smaller expval in
    if (deriv =? 0)%Z then ret (PArray expval)
    else
      let dexpval := exparr in
      let dexparr_larger := amap (fun d => ebigx * (1 + d)) darrb in
      let dexparr_smaller := amap (fun d => elowx * (1 - d)) darrl in
      let dexpval := where_gt arr bigx dexparr_larger dexpval in
      let dexpval := where_lt arr lowx dexparr_smaller dexpval in
      if (deriv =? 1)%Z then ret (PTuple [expval; dexpval])
      else if (deriv =? 2)%Z then
        let d2expval := exparr in
        ret (PTuple [expval; dexpval; d2expval])
      else ret PNone.

(** The exponent of [nppow]: a Python [int], a Python [float], or an
    array. *)
Inductive exponent : Type :=
| BInt (z : Z)
| BFloat (r : R)
| BArray (b : ndarray).

(** [x ** y] for floats.  For a positive base it is [exp (y * ln x)];
    [0 ** y] is [0] for positive [y] and [1] for [y = 0].  The remaining
    cases (zero to a negative power, a negative base) give [inf], [nan]
    or, for an integral [y], a signed power in numpy; they are not
    represented here and the value of the model is arbitrary there. *)
Definition float_pow (x y : R) : R :=
  if bool_decide (0 < x) then Rpower x y
  else if bool_decide (x = 0) then
    (if bool_decide (0 < y) then 0
     else if bool_decide (y = 0) then 1 else / 0)
  else Rpower x y.

Definition nppow (a : ndarray) (b : exponent) (deriv : Z) : py pyval :=
  (match b with
   | BFloat _ =>
       mina <- np_min a ;;
       if bool_decide (mina < 0)
       then bs_error_abort "All elements of a must be positive!"
       else ret tt
   | _ => ret tt
   end) ;;;
  let scalar_case (bv : R) (a_pow_b : ndarray) : py pyval :=
    if (deriv =? 0)%Z then ret (PArray a_pow_b)
    else
      let log_a := np_log a in
      let derivs1 :=
        [azip Rdiv (amap (fun p => bv * p) a_pow_b) a;
         azip Rmult a_pow_b log_a] in
      if (deriv =? 1)%Z then ret (PTuple (a_pow_b :: derivs1))
      else
        let b1 := bv - 1 in
        let a_pow_b1 := azip Rdiv a_pow_b a in
        if (deriv =? 2)%Z then
          let derivs2 :=
            [azip Rdiv (amap (fun p => bv * b1 * p) a_pow_b1) a;
             azip Rmult a_pow_b1 (amap (fun l => 1 + bv * l) log_a);
             azip Rmult (azip Rmult a_pow_b log_a) log_a] in
          ret (PTuple (a_pow_b :: derivs1 ++ derivs2))
        else ret PNone in
  match b with
  | BInt z => scalar_case (IZR z) (amap (fun x => powerRZ x z) a)
  | BFloat r => scalar_case r (amap (fun x => float_pow x r) a)
  | BArray b =>
      (if bool_decide (shape a = shape b) then ret tt
       else bs_error_abort
              "b is not a number or an array of the same shape as a!") ;;;
      let avec := ravel a in
      let bvec := ravel b in
      let a_pow_b := azip float_pow avec bvec in
      let a_pow_br := reshape (shape a) a_pow_b in
      if (deriv =? 0)%Z then ret (PArray a_pow_br)
      else
        let der_wrt_a := azip Rdiv (azip Rmult a_pow_b bvec) avec in
        r <- nplog avec 1e-30 0 false ;;
        match r with
        | PArray log_avec =>
            let der_wrt_b := azip Rmult a_pow_b log_avec in
            let derivs1 :=
              [reshape (shape a) der_wrt_a; reshape (shape a) der_wrt_b] in
            if (deriv =? 1)%Z then ret (PTuple (a_pow_br :: derivs1))
            else
              let a_pow_b1 := azip Rdiv a_pow_b avec in
              let b1 := amap (fun v => v - 1) bvec in
              let der2_wrt_aa :=
                azip Rdiv (azip Rmult (azip Rmult bvec b1) a_pow_b1) avec in
              let der2_wrt_ab :=
                azip Rmult a_pow_b1
                  (amap (fun v => 1 + v) (azip Rmult bvec log_avec)) in
              let der2_wrt_bb :=
                azip Rmult (azip Rmult a_pow_b log_avec) log_avec in
              let derivs2 :=
                [reshape (shape a) der2_wrt_aa;
                 reshape (shape a) der2_wrt_ab;
                 reshape (shape a) der2_wrt_bb] in
              if (deriv =? 2)%Z
              then ret (PTuple (a_pow_br :: derivs1 ++ derivs2))
              else ret PNone
        | _ => raise "TypeError: unsupported operand"
        end
  end.

Definition npxlogx (arr : ndarray) (eps : R) (deriv : Z) (verbose : bool)
  : py pyval :=
  (if deriv_not_in_012 deriv
   then bs_error_abort ("deriv must be 0, 1, or 2; not " ++ pystr deriv)
   else ret tt) ;;;
  mn <- np_min arr ;;
  if bool_decide (eps < mn) then
    ret (PArray (azip Rmult arr (np_log arr)))
  else
    logeps <- math_log eps ;;
    let logarreps := np_log (amap (fun a => Rmax a eps) arr) in
    let xlogarreps := azip Rmult arr logarreps in
    let xlogarr_smaller := amap (fun a => a * (a / eps + logeps - 1)) arr in
    (if verbose then
       let n_small_args := count_lt arr eps in
       if (0 <? n_small_args)%nat
       then print (PrintCount "npxlogx" n_small_args "smaller than" eps mn)
       else ret tt
     else ret tt) ;;;
    let xlogval := where_gt arr eps xlogarreps xlogarr_smaller in
    if (deriv =? 0)%Z then ret (PArray xlogval)
    else
      let dxlogarreps := amap (fun l => 1 + l) logarreps in
      let dxlogarr_smaller := amap (fun a => logeps + a / eps) arr in
      let dxlogval := where_gt arr eps dxlogarreps dxlogarr_smaller in
      if (deriv =? 1)%Z then ret (PTuple [xlogval; dxlogval])
      else if (deriv =? 2)%Z then
        let d2xlogval := amap (fun a => 1 / Rmax a eps) arr in
        ret (PTuple [xlogval; dxlogval; d2xlogval])
      else ret PNone.

(** *** Quadrature: [gauher] *)

(** [sys.exit(msg)]: the process ends with the message. *)
Definition sys_exit {A} (msg : string) : py A := ([], Abort msg).

Definition gauher_EPS : R := 1.0e-14.
Definition PIM4 : R := 0.7511255444649425.
Definition MAXIT : nat := 10.

(** One pass of the [for j in range(n)] recurrence; the pair is
    [(p1, p2)]. *)
Definition hermite_step (z : R) (p : R * R) (j : nat) : R * R :=
  let p3 := snd p in
  let p2 := fst p in
  (z * sqrt (2 / INR (j + 1)) * p2 - sqrt (INR j / INR (j + 1)) * p3, p2).

Definition hermite_rec (n : nat) (z : R) : R * R :=
  foldl (hermite_step z) (PIM4, 0) (seq 0 n).

(** The variables the Newton loop of [gauher] leaves behind. *)
Record newton_state : Type := mk_newton {
  cur_z : R;
  cur_pp : R;
  cur_its : nat
}.

(** Body of [for its in range(MAXIT)], with the outcome of the test
    [abs(z - z1) <= EPS] that triggers [break].  A zero [pp] would make
    Python raise [ZeroDivisionError] (or numpy yield [inf]); the total
    division of [R] stands in for it. *)
Definition newton_body (n its : nat) (z : R) : newton_state * bool :=
  let p := hermite_rec n z in
  let p1 := fst p in
  let p2 := snd p in
  let pp := sqrt (INR (2 * n)) * p2 in
  let z1 := z in
  let z := z1 - p1 / pp in
  (mk_newton z pp its, bool_decide (Rabs (z - z1) <= gauher_EPS)).

(** [for its in range: ...; if ...: break] *)
Fixpoint newton_for (n : nat) (range : list nat) (s : newton_state)
  : newton_state :=
  match range with
  | [] => s
  | its :: rest =>
      let r := newton_body n its (cur_z s) in
      if snd r then fst r else newton_for n rest (fst r)
  end.

(** The first guess of root [i], from the previous root [z] and the
    roots stored so far. *)
Definition initial_guess (n i : nat) (z : R) (x : list R) : R :=
  match i with
  | 0%nat =>
      let n2 := 2 * INR n + 1 in
      sqrt n2 - 1.85575 * float_pow n2 (-0.16667)
  | 1%nat => z - 1.14 * float_pow (INR n) 0.426 / z
  | 2%nat => 1.86 * z - 0.86 * item x 0
  | 3%nat => 1.91 * z - 0.91 * item x 1
  | _ => 2 * z - item x (i - 2)
  end.

(** What the outer loop of [gauher] carries from one root to the next. *)
Record gauher_state : Type := mk_gauher {
  g_z : R;
  g_x : list R;
  g_w : list R
}.

Definition gauher_iter (n : nat) (s : gauher_state) (i : nat)
  : py gauher_state :=
  let z := initial_guess n i (g_z s) (g_x s) in
  let r := newton_for n (seq 0 MAXIT) (mk_newton z 0 0) in
  (if (MAXIT <=? cur_its r)%nat
   then sys_exit "too many iterations in gauher"
   else ret tt) ;;;
  let z := cur_z r in
  let pp := cur_pp r in
  let x := <[i := z]> (g_x s) in
  let x := <[(n - 1 - i)%nat := - z]> x in
  let w := <[i := 2 / (pp * pp)]> (g_w s) in
  let w := <[(n - 1 - i)%nat := item w i]> w in
  ret (mk_gauher z x w).

Definition gauher (n : nat) : py (list R * list R) :=
  let x := replicate n 0 in
  let w := replicate n 0 in
  let m := ((n + 1) / 2)%nat in
  s <- for_each (gauher_iter n) (seq 0 m) (mk_gauher 0 x w) ;;
  ret (reverse (g_x s), g_w s).

(** *** Quadrature: [gauleg] *)








(** *** [gaussian_expectation] *)

(** A numpy value of rank at most two: what the integrand receives (a
    node or the array of nodes) and hands back. *)
Inductive npval : Type :=
| Scalar (r : R)
| Vector (v : list R)
| Matrix (m : list (list R)).

(** [c * v] for a float [c]. *)
Definition np_scale (c : R) (v : npval) : npval :=
  match v with
  | Scalar r => Scalar (c * r)
  | Vector l => Vector (map (Rmult c) l)
  | Matrix m => Matrix (map (map (Rmult c)) m)
  end.

Definition same_lengths (m1 m2 : list (list R)) : bool :=
  (length m1 =? length m2)%nat
  && forallb (fun rr => (length (fst rr) =? length (snd rr))%nat) (zip m1 m2).

(** [acc += v] for two values of the same shape.  Broadcasting between
    values of different shapes is not modelled: the integrand is taken to
    have one output shape, and a mismatch is reported as the [ValueError]
    numpy raises when shapes cannot be combined. *)
Definition np_iadd (acc v : npval) : py npval :=
  match acc, v with
  | Scalar a, Scalar b => ret (Scalar (a + b))
  | Vector a, Vector b =>
      if (length a =? length b)%nat then ret (Vector (zip_with Rplus a b))
      else raise "ValueError: operands could not be broadcast together"
  | Matrix a, Matrix b =>
      if same_lengths a b
      then ret (Matrix (zip_with (zip_with Rplus) a b))
      else raise "ValueError: operands could not be broadcast together"
  | _, _ => raise "ValueError: operands could not be broadcast together"
  end.

Definition dot (a b : list R) : R := sum_list (zip_with Rmult a b).

(** [v @ weights] for a 1-d array [weights]: the contraction of the last
    axis of [v] with [weights]. *)
Definition matmul (v : npval) (weights : list R) : py npval :=
  match v with
  | Scalar _ =>
      raise "ValueError: matmul: Input operand 0 does not have enough dimensions"
  | Vector a =>
      if (length a =? length weights)%nat then ret (Scalar (dot a weights))
      else raise "ValueError: matmul: Input operand 1 has a mismatch in its core dimension 0"
  | Matrix m =>
      if forallb (fun row => (length row =? length weights)%nat) m
      then ret (Vector (map (fun row => dot row weights) m))
      else raise "ValueError: matmul: Input operand 1 has a mismatch in its core dimension 0"
  end.

Section GaussianExpectation.

(** The type of the extra parameters [pars] of the integrand. *)
Context {P : Type}.

(** A Python callable [f]: [f v None] stands for the call [f(v)] and
    [f v (Some p)] for [f(v, p)]. *)
Definition callable : Type := npval -> option P -> npval.

(** [integral_val = weights[0] * call(nodes[0])] followed by
    [for i in range(1, n_nodes): integral_val += weights[i] * call(nodes[i])] *)
Definition accumulate (call : npval -> npval) (nodes weights : list R)
  (acc : npval) (i : nat) : py npval :=
  wi <- getitem weights i ;;
  xi <- getitem nodes i ;;
  np_iadd acc (np_scale wi (call (Scalar xi))).

Definition elementwise (call : npval -> npval) (nodes weights : list R)
  (n_nodes : nat) : py npval :=
  w0 <- getitem weights 0 ;;
  x0 <- getitem nodes 0 ;;
  let integral_val := np_scale w0 (call (Scalar x0)) in
  for_each (accumulate call nodes weights) (seq 1 (n_nodes - 1))
    integral_val.

Definition gaussian_expectation (f : callable) (vectorized : bool)
  (pars : option P) (n : nat) (x w : option (list R)) : py npval :=
  nwn <-
    match x with
    | None =>
        xw <- gauher n ;;
        let nodes := map (fun v => v * sqrt 2) (fst xw) in
        let weights := map (fun v => v / sqrt PI) (snd xw) in
        ret (nodes, weights, n)
    | Some x =>
        match w with
        | None => bs_error_abort "x is None but w is not"
        | Some w =>
            if negb (length w =? length x)%nat
            then bs_error_abort "x has {x.size} elements and w has {w.size}"
            else
              let nodes := map (fun v => v * sqrt 2) x in
              let weights := map (fun v => v / sqrt PI) w in
              ret (nodes, weights, length nodes)
        end
    end ;;
  let nodes := fst (fst nwn) in
  let weights := snd (fst nwn) in
  let n_nodes := snd nwn in
  match pars with
  | None =>
      if vectorized then matmul (f (Vector nodes) None) weights
      else elementwise (fun v => f v None) nodes weights n_nodes
  | Some p =>
      if vectorized then matmul (f (Vector nodes) (Some p)) weights
      else elementwise (fun v => f v (Some p)) nodes weights n_nodes
  end.

End GaussianExpectation.

(** *** Shape validators *)

(** [test_square], on an argument that is a 2-d array: the branches for
    a value that is no numpy array or has another rank are excluded by
    the type. *)
Definition test_square (A : matrix) (fun_name : string) : py nat :=
  let n := nrows A in
  let nv := ncols A in
  (if negb (nv =? n)%nat
   then bs_error_abort
          ("['" ++ fun_name ++ ":'] The matrix A should be square, not ("
           ++ pystr (Z.of_nat n) ++ ", " ++ pystr (Z.of_nat nv) ++ ")")
   else ret tt) ;;;
  ret n.

(** *** Validators of the rank *)

(** [x.ndim], [x.size] and [x.shape] for an array of rank at most two
    (arrays of higher rank are excluded by the type).  An array without
    row is taken to have no column. *)
Definition ndim (x : npval) : nat :=
  match x with
  | Scalar _ => 0%nat
  | Vector _ => 1%nat
  | Matrix _ => 2%nat
  end.
Definition np_size (x : npval) : nat :=
  match x with
  | Scalar _ => 1%nat
  | Vector l => length l
  | Matrix m => (nrows m * ncols m)%nat
  end.
Definition np_shape (x : npval) : list nat :=
  match x with
  | Scalar _ => []
  | Vector l => [length l]
  | Matrix m => [nrows m; ncols m]
  end.

(** The entries of an array in row-major order, and its rows when it is
    read as a 2-d array: past a validator these are the entries of a
    1-d array and the rows of a 2-d one. *)
Definition flat (x : npval) : list R :=
  match x with
  | Scalar r => [r]
  | Vector l => l
  | Matrix m => concat m
  end.
Definition rows_of (x : npval) : matrix :=
  match x with
  | Scalar r => [[r]]
  | Vector l => [l]
  | Matrix m => m
  end.

(** [fun_str = ["" if fun_name is None else fun_name + ":"]], a list of
    one string, as an f-string prints it. *)
Definition fun_str (fun_name : option string) : string :=
  match fun_name with
  | None => "['']"
  | Some s => "['" ++ s ++ ":']"
  end.

(** The validators receive numpy arrays: the branch for a value that is
    no numpy array is excluded by the type. *)
Definition test_vector (v : npval) (fun_name : option string) : py nat :=
  let ndims_v := ndim v in
  (if negb (ndims_v =? 1)%nat
   then bs_error_abort
          (fun_str fun_name ++ " v should have one dimension, not "
           ++ pystr (Z.of_nat ndims_v))
   else ret tt) ;;;
  ret (np_size v).

Definition test_matrix (x : npval) (fun_name : option string)
  : py (list nat) :=
  let ndims_x := ndim x in
  (if negb (ndims_x =? 2)%nat
   then bs_error_abort
          (fun_str fun_name ++ " x should have two dimensions, not "
           ++ pystr (Z.of_nat ndims_x))
   else ret tt) ;;;
  ret (np_shape x).

Definition test_vector_or_matrix (x : npval) (fun_name : option string)
  : py nat :=
  let ndims_x := ndim x in
  (if negb (ndims_x =? 1)%nat && negb (ndims_x =? 2)%nat
   then bs_error_abort
          (fun_str fun_name ++ " x should have at most two dimensions, not "
           ++ pystr (Z.of_nat ndims_x))
   else ret tt) ;;;
  ret ndims_x.

Definition test_tensor (x : npval) (n_dims : nat)
  (fun_name : option string) : py (list nat) :=
  let ndims_x := ndim x in
  (if negb (ndims_x =? n_dims)%nat
   then bs_error_abort
          (fun_str fun_name ++ " x should have "
           ++ pystr (Z.of_nat n_dims) ++ " dimensions, not "
           ++ pystr (Z.of_nat ndims_x))
   else ret tt) ;;;
  ret (np_shape x).

(** *** Padding with zeros *)

(** [sh[i]] for a shape read at an index in range. *)
Definition item_nat (sh : list nat) (i : nat) : nat := default 0%nat (sh !! i).

(** [np.zeros(n)] and [np.zeros((m, n))] *)
Definition np_zeros (n : nat) : list R := replicate n 0.
Definition np_zeros2 (m n : nat) : matrix := replicate m (np_zeros n).

(** The size requested is a Python [int], possibly negative. *)
Definition nppad_beg_zeros (v : npval) (n : Z) : py npval :=
  nv <- test_vector v None ;;
  if (Z.of_nat nv <? n)%Z
  then ret (Vector (np_zeros (Z.to_nat (n - Z.of_nat nv)) ++ flat v))
  else ret v.

Definition nppad_end_zeros (v : npval) (n : Z) : py npval :=
  nv <- test_vector v None ;;
  if (Z.of_nat nv <? n)%Z
  then ret (Vector (flat v ++ np_zeros (Z.to_nat (n - Z.of_nat nv))))
  else ret v.

(** [pmat[:nrows, :ncols] = mat] for [mat] of shape [(nrows, ncols)]
    that fits in [pmat]: the upper left block of [pmat] is overwritten
    row by row. *)
Definition set_block (pmat mat : matrix) : matrix :=
  zip_with (fun prow mrow => mrow ++ drop (length mrow) prow) pmat mat
  ++ drop (length mat) pmat.

Definition nppad2_end_zeros (mat : npval) (m n : Z) : py npval :=
  sh <- test_matrix mat None ;;
  let nrows := Z.of_nat (item_nat sh 0) in
  let ncols := Z.of_nat (item_nat sh 1) in
  let max_rows := Z.max m nrows in
  let max_cols := Z.max n ncols in
  if (nrows <? max_rows)%Z && (ncols <? max_cols)%Z then
    let pmat := np_zeros2 (Z.to_nat m) (Z.to_nat n) in
    ret (Matrix (set_block pmat (rows_of mat)))
  else if (nrows <? max_rows)%Z then
    let pmat := np_zeros2 (Z.to_nat m) (Z.to_nat ncols) in
    ret (Matrix (set_block pmat (rows_of mat)))
  else if (ncols <? max_cols)%Z then
    let pmat := np_zeros2 (Z.to_nat nrows) (Z.to_nat n) in
    ret (Matrix (set_block pmat (rows_of mat)))
  else ret mat.

(** *** Repeating and gridding *)

(** [np.repeat(v[:, np.newaxis], n, axis=1)] and
    [np.repeat(v[np.newaxis, :], m, axis=0)] for a 1-d array [v]. *)
Definition nprepeat_col (v : list R) (n : nat) : matrix :=
  map (fun x => replicate n x) v.
Definition nprepeat_row (v : list R) (m : nat) : matrix :=
  replicate m v.

(** [np.max(np.abs(arr))] *)
Definition npmaxabs (arr : ndarray) : py R := np_max (amap Rabs arr).

(** [np.repeat(v, n)]: every entry [n] times in a row; [np.tile(w, m)]:
    the whole array [m] times; [np.column_stack]: the 1-d arrays as the
    columns of a 2-d array, which must have one length. *)
Definition np_repeat (v : list R) (n : nat) : list R :=
  concat (map (replicate n) v).
Definition np_tile (w : list R) (m : nat) : list R :=
  concat (replicate m w).
Fixpoint same_length (cols : list (list R)) : bool :=
  match cols with
  | c1 :: ((c2 :: _) as rest) =>
      (length c1 =? length c2)%nat && same_length rest
  | _ => true
  end.
Definition column_stack (cols : list (list R)) : py matrix :=
  if same_length cols then
    ret (map (fun i => map (fun c => item c i) cols)
           (seq 0 (match cols with [] => 0%nat | c :: _ => length c end)))
  else raise "ValueError: all the input array dimensions except for the concatenation axis must match exactly".

Definition bsgrid (v w : npval) : py matrix :=
  m <- test_vector v None ;;
  n <- test_vector w None ;;
  let m := np_size v in
  let n := np_size w in
  let v1 := np_repeat (flat v) n in
  let v2 := np_tile (flat w) m in
  column_stack [v1; v2].

(** [arr[:, j]] *)
Definition column (a : matrix) (j : nat) : list R :=
  map (fun row => item row j) a.

Definition make_lexico_grid (arr : npval) : py npval :=
  ndims_arr <- test_vector_or_matrix arr (Some "make_lexico_grid`"%string) ;;
  if (ndims_arr =? 1)%nat then ret arr
  else
    let a := rows_of arr in
    let nr := item_nat (np_shape arr) 0 in
    let nc := item_nat (np_shape arr) 1 in
    if (nc =? 2)%nat then
      let n0 := np_repeat (column a 0) nr in
      let n1 := np_tile (column a 1) nr in
      g <- column_stack [n0; n1] ;; ret (Matrix g)
    else if (nc =? 3)%nat then
      let nr2 := (nr * nr)%nat in
      let n0 := np_repeat (column a 0) nr2 in
      let n1 := np_repeat (np_tile (column a 1) nr) nr in
      let n2 := np_tile (column a 2) nr2 in
      g <- column_stack [n0; n1; n2] ;; ret (Matrix g)
    else
      bs_error_abort
        ("at this stage, the number of columns must be 3 or less, not "
         ++ pystr (Z.of_nat nc) ++ "...").

(** *** Bivariate polynomials *)

(** The elementwise operations on 2-d arrays of one shape. *)
Definition mat_map (f : R -> R) (A : matrix) : matrix := map (map f) A.
Definition mat_zip (f : R -> R -> R) (A B : matrix) : matrix :=
  zip_with (zip_with f) A B.

(** A [numpy.polynomial.Polynomial] with the default domain and window,
    as the array of its coefficients, lowest degree first.  The
    constructor refuses an empty array; [p(x)] is evaluated by Horner's
    rule. *)
Definition Polynomial (c : list R) : py (list R) :=
  match c with
  | [] => raise "ValueError: Coefficient array is empty"
  | _ => ret c
  end.
Definition polyval (c : list R) (x : R) : R :=
  foldr (fun a acc => a + acc * x) 0 c.

(** The degrees are [shape - 1], which is [-1] for an array without
    rows. *)
Record BivariatePolynomial : Type := mk_BivariatePolynomial {
  deg1 : Z;
  deg2 : Z;
  coef : matrix;
  listpol2 : list (list R)
}.

Definition __init__ (coeffs : matrix) : py BivariatePolynomial :=
  let deg1 := (Z.of_nat (nrows coeffs) - 1)%Z in
  let deg2 := (Z.of_nat (ncols coeffs) - 1)%Z in
  listpol2 <-
    for_each (fun listpol2 k =>
                row <- getitem coeffs k ;;
                p <- Polynomial row ;;
                ret (listpol2 ++ [p]))
      (seq 0 (Z.to_nat (deg1 + 1))) [] ;;
  ret (mk_BivariatePolynomial deg1 deg2 coeffs listpol2).

(** The right operand of the arithmetic operators: a number or a
    bivariate polynomial. *)
Inductive operand : Type :=
| Number (c : R)
| Bivariate (bivpol : BivariatePolynomial).

(** [coeffs[0, 0] = f(coeffs[0, 0])] *)
Definition update_00 (f : R -> R) (coeffs : matrix) : py matrix :=
  match coeffs with
  | (a :: row) :: rows => ret ((f a :: row) :: rows)
  | _ => raise "IndexError: index 0 is out of bounds"
  end.

Definition __add__ (self : BivariatePolynomial) (bivpol : operand)
  : py BivariatePolynomial :=
  match bivpol with
  | Number c =>
      coeffs <- update_00 (fun a => a + c) (coef self) ;;
      __init__ coeffs
  | Bivariate bivpol =>
      let degbp1 := deg1 bivpol in
      let degbp2 := deg2 bivpol in
      let max_deg1 := Z.max degbp1 (deg1 self) in
      let max_deg2 := Z.max degbp2 (deg2 self) in
      coeffs_new <- nppad2_end_zeros (Matrix (coef self))
                      (max_deg1 + 1) (max_deg2 + 1) ;;
      coeffsbp_new <- nppad2_end_zeros (Matrix (coef bivpol))
                        (max_deg1 + 1) (max_deg2 + 1) ;;
      __init__ (mat_zip Rplus (rows_of coeffs_new) (rows_of coeffsbp_new))
  end.

Definition __sub__ (self : BivariatePolynomial) (bivpol : operand)
  : py BivariatePolynomial :=
  match bivpol with
  | Number c =>
      coeffs <- update_00 (fun a => a - c) (coef self) ;;
      __init__ coeffs
  | Bivariate bivpol =>
      let degbp1 := deg1 bivpol in
      let degbp2 := deg2 bivpol in
      let max_deg1 := Z.max degbp1 (deg1 self) in
      let max_deg2 := Z.max degbp2 (deg2 self) in
      coeffs_new <- nppad2_end_zeros (Matrix (coef self))
                      (max_deg1 + 1) (max_deg2 + 1) ;;
      coeffsbp_new <- nppad2_end_zeros (Matrix (coef bivpol))
                        (max_deg1 + 1) (max_deg2 + 1) ;;
      __init__ (mat_zip Rminus (rows_of coeffs_new) (rows_of coeffsbp_new))
  end.

(** The branch of [__mul__] for a number. *)
Definition mul_number (self : BivariatePolynomial) (bivpol : R)
  : py BivariatePolynomial :=
  __init__ (mat_map (Rmult bivpol) (coef self)).

(** [p(x1, x2)] at two numbers. *)
Definition __call__ (self : BivariatePolynomial) (x1 x2 : R) : R :=
  let x1fac := 1 in
  let val := 0 in
  fst (foldl (fun '(val, x1fac) p => (val + polyval p x2 * x1fac, x1fac * x1))
         (val, x1fac) (listpol2 self)).

(** [np.outer(p1, p2)] *)
Definition np_outer (p1 p2 : list R) : matrix :=
  map (fun a => map (Rmult a) p2) p1.

Definition outer_bivar (pol1 pol2 : list R) : py BivariatePolynomial :=
  let p1 := pol1 in
  let p2 := pol2 in
  let prod_coef := np_outer p1 p2 in
  __init__ prod_coef.

(** *** Empirical distribution and local standard errors *)

(** [l[i] = v], which raises [IndexError] out of range; [l[a:b]] and
    the assignments [l[a:b] = c] of a number and [l[a:...] = vals] of an
    array of the length of the slice, for indices that are not
    negative. *)
Definition setitem (l : list R) (i : nat) (v : R) : py (list R) :=
  if (i <? length l)%nat then ret (<[i := v]> l)
  else raise "IndexError: index out of bounds".
Definition slice (l : list R) (a b : nat) : list R := take (b - a) (drop a l).
Definition fill_slice (l : list R) (a b : nat) (c : R) : list R :=
  let start := Nat.min a (length l) in
  let stop := Nat.max start (Nat.min b (length l)) in
  take start l ++ replicate (stop - start) c ++ drop stop l.
Definition set_slice (l : list R) (a : nat) (vals : list R) : list R :=
  take a l ++ vals ++ drop (a + length vals) l.

(** [l[i]] for an integer that may be negative: numpy counts a negative
    index from the end. *)
Definition np_take (l : list R) (i : Z) : py R :=
  let n := Z.of_nat (length l) in
  if (0 <=? i)%Z && (i <? n)%Z then ret (item l (Z.to_nat i))
  else if (- n <=? i)%Z && (i <? 0)%Z then ret (item l (Z.to_nat (n + i)))
  else raise "IndexError: index out of bounds".

(** [np.sort]: the entries in increasing order. *)
Fixpoint insert_sorted (a : R) (l : list R) : list R :=
  match l with
  | [] => [a]
  | b :: l' => if bool_decide (a <= b) then a :: l else b :: insert_sorted a l'
  end.
Definition np_sort (v : list R) : list R := foldr insert_sorted [] v.

(** [a[1:] - a[:-1]], the successive differences. *)
Definition diff (a : list R) : list R :=
  zip_with Rminus (drop 1 a) (removelast a).

Section ArgSort.

(** [np.argsort]: for equal entries the order of their indices is left
    to numpy, so that the function is a parameter; what is known of it
    is a hypothesis of the statements. *)
Variable np_argsort : list R -> list nat.

(** [ecdf] on a 1-d array: the branch for another rank, which prints
    through [print_stars] of [bsutils.py] and exits, is excluded by the
    type. *)
Definition ecdf (x : list R) : py (list R) :=
  let nx := length x in
  let order_x := np_argsort x in
  let ecdf_val := np_zeros nx in
  for_each (fun ecdf_val i_order =>
              n_order <- getitem order_x i_order ;;
              setitem ecdf_val n_order ((INR i_order + 1) / INR nx))
    (seq 0 (length order_x)) ecdf_val.

Definition rice_stderr (y x : npval) (sorted : bool) : py (list R) :=
  n <- test_vector x None ;;
  ny <- test_vector y None ;;
  (if negb (ny =? n)%nat
   then bs_error_abort "x and y should have the same size"
   else ret tt) ;;;
  ys <- (if negb sorted
         then let order_x := np_argsort (flat x) in
              map_each (getitem (flat y)) order_x
         else ret (flat y)) ;;
  let variance_estimator := np_zeros n in
  let n_neighbors := Z.to_nat (Zfloor (sqrt (INR n) / 2)) in
  facd <- (if (n_neighbors =? 0)%nat
           then raise "ZeroDivisionError: float division by zero"
           else ret (1 / (2 * INR n_neighbors))) ;;
  let n_neighbors2 := (n_neighbors / 2)%nat in
  let yleft := slice ys 0 n_neighbors2 in
  let dy := diff yleft in
  let variance_estimator :=
    fill_slice variance_estimator 0 n_neighbors2
      (sum_list (zip_with Rmult dy dy) * facd) in
  let minus_nn2 := (n - n_neighbors2)%nat in
  variance_estimator <-
    for_each (fun variance_estimator ix =>
                let yx := slice ys (ix - n_neighbors2) (ix + n_neighbors2) in
                let dy := diff yx in
                setitem variance_estimator ix
                  (sum_list (zip_with Rmult dy dy) * facd))
      (seq n_neighbors2 (minus_nn2 - n_neighbors2)) variance_estimator ;;
  let yright := slice ys minus_nn2 (length ys) in
  let dy := diff yright in
  let variance_estimator :=
    fill_slice variance_estimator minus_nn2 (length variance_estimator)
      (sum_list (zip_with Rmult dy dy) * facd) in
  let stderr_estimator := map sqrt variance_estimator in
  ret stderr_estimator.

End ArgSort.

(** [inv_ecdf] for an array [q] of quantiles. *)
Definition inv_ecdf (v : npval) (q : list R) : py (list R) :=
  (if negb (ndim v =? 1)%nat
   then bs_error_abort ("v should have 1 dimension, not "
                        ++ pystr (Z.of_nat (ndim v)))
   else ret tt) ;;;
  let nv := np_size v in
  let sorted_v := np_zeros (nv + 2) in
  let sorted_v := set_slice sorted_v 1 (np_sort (flat v)) in
  s1 <- getitem sorted_v 1 ;;
  s2 <- getitem sorted_v 2 ;;
  sorted_v <- setitem sorted_v 0 (2 * s1 - s2) ;;
  snv <- getitem sorted_v nv ;;
  sorted_v <- setitem sorted_v (nv + 1) snv ;;
  let q_floor := map (fun qi => Zfloor (INR nv * qi)) q in
  lo <- map_each (np_take sorted_v) q_floor ;;
  hi <- map_each (fun k => np_take sorted_v (k + 1)) q_floor ;;
  lo' <- map_each (np_take sorted_v) q_floor ;;
  ret (zip_with Rplus lo
         (zip_with Rmult
            (zip_with (fun qi k => INR nv * qi - IZR k) q q_floor)
            (zip_with Rminus hi lo'))).

End Bsnputils.

(** ** distance_covariances.py *)

Module DistanceCovariances.

Import Bsnputils.

Record DcovResults : Type := mk_DcovResults {
  dcov : R;
  dcov_stat : R;
  dcor : R;
  X_dd : matrix;
  Y_dd : matrix;
  unbiased : bool
}.

Record PdcovResults : Type := mk_PdcovResults {
  pdcov : R;
  pdcov_stat : R;
  pdcor : R;
  pd_X_dd : matrix;
  pd_Y_dd : matrix;
  pd_Z_dd : matrix
}.

(** [np.sum(A, 0)]: the sum of every column. *)
Definition np_sum_axis0 (A : matrix) : list R :=
  map (fun j => sum_list (map (fun row => item row j) A)) (seq 0 (ncols A)).

(** [np.sum(A, 1)]: the sum of every row. *)
Definition np_sum_axis1 (A : matrix) : list R := map sum_list A.

(** [np.fill_diagonal(A, np.zeros(n))] *)
Definition fill_diagonal_zeros (A : matrix) : matrix :=
  imap (fun i row => <[i := 0]> row) A.

(** Integer factors such as [n - 2] may be zero; numpy then yields [inf]
    or [nan], for which the total division of [R] stands in. *)
Definition _double_decenter (A : matrix) (unbiased : bool) : py matrix :=
  n <- test_square A "_double_decenter" ;;
  let A_1 := np_sum_axis0 A in
  let A_2 := np_sum_axis1 A in
  let A_0 := sum_list A_1 in
  let fac2 := if unbiased then (Z.of_nat n - 2)%Z else Z.of_nat n in
  let fac1 := if unbiased then (Z.of_nat n - 1)%Z else Z.of_nat n in
  let A_dd :=
    zip_with
      (fun row a2 =>
         zip_with
           (fun a a1 =>
              a - a1 / IZR fac2 - a2 / IZR fac2 + A_0 / IZR (fac1 * fac2))
           row A_1)
      A A_2 in
  ret (if unbiased then fill_diagonal_zeros A_dd else A_dd).

Definition _dcov_prod (A B : matrix) (unbiased : bool) : py R :=
  n <- test_square A "_dcov_prod" ;;
  m <- test_square B "_dcov_prod" ;;
  if (m =? n)%nat then
    let fac3 := if unbiased then (Z.of_nat n - 3)%Z else Z.of_nat n in
    ret (sum_list (map sum_list (zip_with (zip_with Rmult) A B))
         / IZR (Z.of_nat n * fac3))
  else bs_error_abort "A and B should be square matrices of the same size".

(** numpy's global random generator: a tape of raw draws and a cursor
    on it. *)
Record rng : Type := mk_rng {
  tape : nat -> nat;
  cursor : nat
}.

(** [np.random.choice(np.arange(n), n)]: [n] indices below [n], drawn
    with replacement. *)
Definition random_choice (n : nat) (g : rng) : list nat * rng :=
  (map (fun k => (tape g (cursor g + k) mod n)%nat) (seq 0 n),
   mk_rng (tape g) (cursor g + n)).

(** [M[draws, :][:, draws]] *)
Definition resample (M : matrix) (draws : list nat) : py matrix :=
  rows <- map_each (getitem M) draws ;;
  map_each (fun row => map_each (getitem row) draws) rows.

Definition dcov_bootstrap_iter (X_dd Y_dd : matrix) (unbiased : bool)
  (n : nat) (s : list R * rng) (idraw : nat) : py (list R * rng) :=
  let dg := random_choice n (snd s) in
  let draws := fst dg in
  X_ddi <- resample X_dd draws ;;
  Y_ddi <- resample Y_dd draws ;;
  (if (idraw mod 50 =? 0)%nat
   then print (PrintText ("    bootstrap draw " ++ pystr (Z.of_nat idraw)))
   else ret tt) ;;;
  v <- _dcov_prod X_ddi Y_ddi unbiased ;;
  ret (<[idraw := v]> (fst s), snd dg).

Definition _dcov_bootstrap (X_dd Y_dd : matrix) (unbiased : bool)
  (ndraws : nat) (g : rng) : py (list R * rng) :=
  let n := nrows X_dd in
  let dcov_stats_boot := replicate ndraws 0 in
  s <- for_each (dcov_bootstrap_iter X_dd Y_dd unbiased n) (seq 0 ndraws)
         (dcov_stats_boot, g) ;;
  ret (map (Rmult (INR n)) (fst s), snd s).

(** [np.sum(stat < boot)] *)
Definition count_above (stat : R) (boot : list R) : nat :=
  length (filter (fun b => stat < b) boot).

Definition pvalue_dcov (dcov_results : DcovResults) (ndraws : nat) (g : rng)
  : py (R * rng) :=
  let X_dd := X_dd dcov_results in
  let Y_dd := Y_dd dcov_results in
  let dcov_stat := dcov_stat dcov_results in
  let unbiased := unbiased dcov_results in
  b <- _dcov_bootstrap X_dd Y_dd unbiased ndraws g ;;
  let dcov_stats_boot := fst b in
  ret ((1 + INR (count_above dcov_stat dcov_stats_boot)) / (1 + INR ndraws),
       snd b).

Definition pdcovs_bootstrap_iter (X_dd Y_dd Z_dd : matrix) (n : nat)
  (s : list R * rng) (idraw : nat) : py (list R * rng) :=
  let unbiased := true in
  (if (idraw mod 50 =? 0)%nat
   then print (PrintText
                 ("pdcov test: bootstrap draw " ++ pystr (Z.of_nat idraw)))
   else ret tt) ;;;
  let dg := random_choice n (snd s) in
  let draws := fst dg in
  X_ddi <- resample X_dd draws ;;
  Y_ddi <- resample Y_dd draws ;;
  Z_ddi <- resample Z_dd draws ;;
  C_XY <- _dcov_prod X_ddi Y_ddi unbiased ;;
  C_XZ <- _dcov_prod X_ddi Z_ddi unbiased ;;
  C_YZ <- _dcov_prod Y_ddi Z_ddi unbiased ;;
  C_ZZ <- _dcov_prod Z_ddi Z_ddi unbiased ;;
  ret (<[idraw := C_XY - (C_XZ * C_YZ) / C_ZZ]> (fst s), snd dg).

Definition _pdcovs_bootstrap (X_dd Y_dd Z_dd : matrix) (ndraws : nat)
  (g : rng) : py (list R * rng) :=
  let pdcov_stats_boot := replicate ndraws 0 in
  let n := nrows X_dd in
  s <- for_each (pdcovs_bootstrap_iter X_dd Y_dd Z_dd n) (seq 0 ndraws)
         (pdcov_stats_boot, g) ;;
  ret (map (Rmult (INR n)) (fst s), snd s).

Definition pvalue_pdcov (pdcov_results : PdcovResults) (ndraws : nat)
  (g : rng) : py (R * rng) :=
  let X_dd := pd_X_dd pdcov_results in
  let Y_dd := pd_Y_dd pdcov_results in
  let Z_dd := pd_Z_dd pdcov_results in
  let pdcov_stat := pdcov_stat pdcov_results in
  b <- _pdcovs_bootstrap X_dd Y_dd Z_dd ndraws g ;;
  let pdcov_stats_boot := fst b in
  ret ((1 + INR (count_above pdcov_stat pdcov_stats_boot))
       / (1 + INR ndraws),
       snd b).

(** *** Distances, distance covariance and correlation *)

(** [np.subtract.outer(u, v)] for 1-d arrays. *)
Definition subtract_outer (u v : list R) : matrix :=
  map (fun x => map (fun y => x - y) v) u.

Definition _compute_distances (T : npval) : py matrix :=
  ndims_T <- test_vector_or_matrix T (Some "_compute_distances"%string) ;;
  if (ndims_T =? 1)%nat then
    ret (mat_map Rabs (subtract_outer (flat T) (flat T)))
  else
    let n := item_nat (np_shape T) 0 in
    let nv := item_nat (np_shape T) 1 in
    let A := np_zeros2 n n in
    let A :=
      foldl (fun A iv =>
               let Tiv := column (rows_of T) iv in
               let Aiv := subtract_outer Tiv Tiv in
               mat_zip Rplus A (mat_zip Rmult Aiv Aiv))
        A (seq 0 nv) in
    ret (mat_map sqrt A).

(** [math.sqrt] raises [ValueError] on a negative argument. *)
Definition math_sqrt (x : R) : py R :=
  if bool_decide (x < 0) then raise "ValueError: math domain error"
  else ret (sqrt x).

Definition dcov_dcor (X Y : npval) (unbiased : bool) : py DcovResults :=
  X_dist <- _compute_distances X ;;
  let n := nrows X_dist in
  X_dd <- _double_decenter X_dist unbiased ;;
  Y_dist <- _compute_distances Y ;;
  Y_dd <- _double_decenter Y_dist unbiased ;;
  dcov2 <- _dcov_prod X_dd Y_dd unbiased ;;
  C_XX <- _dcov_prod X_dd X_dd unbiased ;;
  C_YY <- _dcov_prod Y_dd Y_dd unbiased ;;
  root <- math_sqrt (C_XX * C_YY) ;;
  let dcor2 := dcov2 / root in
  ret (mk_DcovResults dcov2 (INR n * dcov2) dcor2 X_dd Y_dd unbiased).

Definition pdcov_pdcor (X Y Z : npval) : py PdcovResults :=
  let unbiased := true in
  X_dist <- _compute_distances X ;;
  X_dd <- _double_decenter X_dist unbiased ;;
  Y_dist <- _compute_distances Y ;;
  Y_dd <- _double_decenter Y_dist unbiased ;;
  Z_dist <- _compute_distances Z ;;
  Z_dd <- _double_decenter Z_dist unbiased ;;
  C_XX <- _dcov_prod X_dd X_dd unbiased ;;
  C_XY <- _dcov_prod X_dd Y_dd unbiased ;;
  C_YY <- _dcov_prod Y_dd Y_dd unbiased ;;
  C_XZ <- _dcov_prod X_dd Z_dd unbiased ;;
  C_YZ <- _dcov_prod Y_dd Z_dd unbiased ;;
  C_ZZ <- _dcov_prod Z_dd Z_dd unbiased ;;
  let pdcov := C_XY - (C_XZ * C_YZ) / C_ZZ in
  root <- math_sqrt ((C_XX - C_XZ * C_XZ / C_ZZ)
                     * (C_YY - C_YZ * C_YZ / C_ZZ)) ;;
  let pdcor := pdcov / root in
  let n := item_nat (np_shape X) 0 in
  ret (mk_PdcovResults pdcov (INR n * pdcov) pdcor X_dd Y_dd Z_dd).

End DistanceCovariances.

(** * Vocabulary of the statements *)

Import Bsnputils.
Import DistanceCovariances.

(** [a ** b] on one entry, for a scalar exponent. *)
Definition scalar_power (b : exponent) (v : R) : R :=
  match b with
  | BInt z => powerRZ v z
  | BFloat r => float_pow v r
  | BArray _ => v
  end.

(** The exponent is a number ([int] or [float]), not an array. *)
Definition is_scalar (b : exponent) : Prop :=
  match b with
  | BArray _ => False
  | _ => True
  end.

(** A square array: [n] rows of [n] entries. *)
Definition square (n : nat) (A : matrix) : Prop :=
  length A = n /\ Forall (fun r => length r = n) A.

(** A sample of two observations whose bootstrap reproduces the observed
    statistic: the doubly decentered distances of [[0; 1]], and a random
    tape whose first draw is the identity resampling [[0; 1]]. *)
Definition tie_matrix : matrix := [[-1/2; 1/2]; [1/2; -1/2]].
Definition tie_results : DcovResults :=
  mk_DcovResults (1/4) (1/2) 1 tie_matrix tie_matrix false.
Definition identity_tape : rng := mk_rng (fun k => k) 0.

(** Partial-distance results on four observations: the unbiased doubly
    decentered distances of [[0; 1; 2; 3]] in all three places. *)
Definition line_matrix : matrix :=
  [[0; -2/3; 1/3; 1/3]; [-2/3; 0; 1/3; 1/3];
   [1/3; 1/3; 0; -2/3]; [1/3; 1/3; -2/3; 0]].
Definition line_results : PdcovResults :=
  mk_PdcovResults 0 0 0 line_matrix line_matrix line_matrix.

Section Integrands.

Context {P : Type}.

(** The integrand is scalar-valued and pointwise-consistent: on the
    array of nodes it returns the array of its values at the nodes. *)
Definition pointwise_scalar (f : @callable P) (fs : R -> option P -> R)
  : Prop :=
  forall p,
    (forall v, f (Scalar v) p = Scalar (fs v p)) /\
    (forall l, f (Vector l) p = Vector (map (fun v => fs v p) l)).

(** The integrand is vector-valued with [k] components and
    pointwise-consistent along the last axis: on the array of nodes it
    returns the 2-d array whose column [i] is its value at node [i]. *)
Definition pointwise_vector (k : nat) (f : @callable P)
  (fv : R -> option P -> list R) : Prop :=
  forall p,
    (forall v, f (Scalar v) p = Vector (fv v p) /\ length (fv v p) = k) /\
    (forall l,
       f (Vector l) p
       = Matrix (map (fun c => map (fun v => item (fv v p) c) l)
                   (seq 0 k))).

(** The sum over [i] of [(w_i / sqrt pi) * g (x_i * sqrt 2)]. *)
Definition hermite_sum (g : R -> R) (x w : list R) : R :=
  sum_list (zip_with (fun xi wi => wi / sqrt PI * g (xi * sqrt 2)) x w).

End Integrands.

(** The integrand [x ** 2], on a node and on the array of nodes. *)
Definition square_integrand : @callable unit :=
  fun v _ =>
    match v with
    | Scalar r => Scalar (r * r)
    | Vector l => Vector (map (fun r => r * r) l)
    | Matrix m => Matrix (map (map (fun r => r * r)) m)
    end.

(** The identity integrand. *)
Definition identity_integrand : @callable unit := fun v _ => v.

(** [x[i] == -x[n-1-i]] for every index that is not its own mirror. *)
Definition antisymmetric_pairs (n : nat) (x : list R) : Prop :=
  forall i, (i < n)%nat -> i <> (n - 1 - i)%nat ->
            item x i = - item x (n - 1 - i).

(** [w[i] == w[n-1-i]] for every index. *)
Definition symmetric (n : nat) (w : list R) : Prop :=
  forall i, (i < n)%nat -> item w i = item w (n - 1 - i).

(** The arrays of a quadrature rule with [n] nodes, mirrored. *)
Definition mirrored (n : nat) (x w : list R) : Prop :=
  length x = n /\ length w = n /\
  antisymmetric_pairs n x /\ symmetric n w.









(** The entry at position [i] of the [k]-th array a call returned. *)
Definition entry (m : py pyval) (k i : nat) : option R :=
  res ← returned m; arr ← components res !! k; data arr !! i.

(** The value [npexp] puts at an entry [a], and its first derivative. *)
Definition npexp_value (bigx lowx a : R) : R :=
  if bool_decide (a < lowx)
  then exp lowx * (1 - (lowx - a) * (1 - 0.5 * (lowx - a)))
  else if bool_decide (bigx < a)
       then exp bigx * (1 + (a - bigx) * (1 + 0.5 * (a - bigx)))
       else exp a.
Definition npexp_slope (bigx lowx a : R) : R :=
  if bool_decide (a < lowx) then exp lowx * (1 - (lowx - a))
  else if bool_decide (bigx < a) then exp bigx * (1 + (a - bigx))
       else exp a.

(** The number of entries a shape announces, and the arrays that hold
    as many. *)
Definition size_of (sh : list nat) : nat := foldr Nat.mul 1%nat sh.
Definition well_formed (a : ndarray) : Prop :=
  length (data a) = size_of (shape a).

(** The first and second derivative [nplog] returns at an entry [a]. *)
Definition nplog_slope (eps a : R) : R :=
  if bool_decide (eps < a) then 1 / a else (1 + (1 - a / eps)) / eps.
Definition nplog_curvature (eps a : R) : R :=
  if bool_decide (eps < a) then - 1 / (a * a) else - 1 / (eps * eps).

(** The value and the two derivatives [npxlogx] puts at an entry [a]. *)
Definition npxlogx_value (eps a : R) : R :=
  if bool_decide (eps < a) then a * ln a else a * (a / eps + ln eps - 1).
Definition npxlogx_slope (eps a : R) : R :=
  if bool_decide (eps < a) then 1 + ln a else ln eps + a / eps.
Definition npxlogx_curvature (eps a : R) : R := 1 / Rmax a eps.

(** The exponent of a scalar power, as a float. *)
Definition exponent_value (b : exponent) : R :=
  match b with
  | BInt z => IZR z
  | BFloat r => r
  | BArray _ => 0
  end.

(** What the sign check of [nppow] lets through: any array when the
    exponent is an [int], an array without negative entry when it is a
    [float]. *)
Definition accepted_base (b : exponent) (a : ndarray) : Prop :=
  match b with
  | BFloat _ => Forall (fun v => 0 <= v) (data a)
  | _ => True
  end.

(** The value [nplog] puts at an entry [a]. *)
Definition nplog_value (eps a : R) : R :=
  if bool_decide (eps < a) then ln a
  else ln eps - (1 - a / eps) * (1 + (1 - a / eps) / 2).

(** [A[i, j]], read at indices known to be in range. *)
Definition entry2 (A : matrix) (i j : nat) : R :=
  item (default [] (A !! i)) j.

(** A symmetric [n] by [n] array. *)
Definition symmetric_matrix (n : nat) (A : matrix) : Prop :=
  forall i j, (i < n)%nat -> (j < n)%nat -> entry2 A i j = entry2 A j i.

(** The array [a] with its rows extended by zeros to [N] columns and
    followed by rows of zeros up to [M] rows. *)
Definition padded (a : matrix) (M N : nat) : matrix :=
  map (fun row => row ++ replicate (N - ncols a) 0) a
  ++ replicate (M - nrows a) (replicate N 0).

(** The [n] by [n] array whose entry [(i, j)] is [f i j]. *)
Definition tabulate (n : nat) (f : nat -> nat -> R) : matrix :=
  map (fun i => map (fun j => f i j) (seq 0 n)) (seq 0 n).

(** The squared distance of the rows [i] and [j] of [a], summed over its
    first [nv] columns. *)
Definition sq_dist (a : matrix) (nv i j : nat) : R :=
  sum_list (map (fun iv => (entry2 a i iv - entry2 a j iv)
                           * (entry2 a i iv - entry2 a j iv))
              (seq 0 nv)).

(** The sum of the products of the entries of two arrays, the numerator
    of [_dcov_prod]. *)
Definition frobenius (A B : matrix) : R :=
  sum_list (map sum_list (zip_with (zip_with Rmult) A B)).

(** [X.shape[0]], the number of observations. *)
Definition nobs (X : npval) : nat := item_nat (np_shape X) 0.

(** The doubly decentered distances of the observations. *)
Definition decentered_distances (X : npval) (unbiased : bool) : py matrix :=
  X_dist <- _compute_distances X ;; _double_decenter X_dist unbiased.

(** The value at [(x1, x2)] of the rows of a coefficient array, by
    Horner's rule in the first variable. *)
Definition eval2 (a : matrix) (x1 x2 : R) : R :=
  foldr (fun row acc => polyval row x2 + acc * x1) 0 a.

(** A coefficient array that the constructor accepts and that has an
    entry [(0, 0)]: rows of one positive length, and at least one. *)
Definition coefficient_array (a : matrix) : Prop :=
  rectangular a /\ ncols a <> 0%nat.

(** An array of [M] rows of [N] entries. *)
Definition has_shape (M N : nat) (A : matrix) : Prop :=
  length A = M /\ Forall (fun row => length row = N) A.

(** A list in increasing order: every entry is at most the later ones. *)
Fixpoint ascending (l : list R) : Prop :=
  match l with
  | [] => True
  | a :: l' => Forall (Rle a) l' /\ ascending l'
  end.

(** What numpy promises of [np.argsort(x)]: the indices of [x], each
    once, in an order in which the entries increase. *)
Definition is_argsort (x : list R) (order : list nat) : Prop :=
  order ≡ₚ seq 0 (length x) /\ ascending (map (item x) order).

(** The lines that a bootstrap of [ndraws] draws prints: one for every
    draw whose number is a multiple of 50. *)
Definition progress_lines (prefix : string) (first ndraws : nat)
  : list event :=
  map (fun idraw => PrintText (prefix ++ pystr (Z.of_nat idraw)))
    (filter (fun idraw => (idraw mod 50 = 0)%nat) (seq first ndraws)).

(** Output [k] of a call on an array, read at its first entry; the
    arrays used below have one entry, or two of which the second one is
    fixed. *)
Definition first_entry (m : py pyval) (k : nat) : R :=
  default 0 (entry m k 0).

(** Outputs [0], [1] and [2] of [nplog] and [npexp] with [deriv = 2], as
    functions of the entry of an array of one entry; the same for
    [npxlogx], on an array whose second entry is [eps], so that the
    derivatives are returned whatever the first one. *)
Definition nplog_at (eps : R) (k : nat) (a : R) : R :=
  first_entry (nplog (mk_ndarray [1%nat] [a]) eps 2 false) k.
Definition npexp_at (bigx lowx : R) (k : nat) (a : R) : R :=
  first_entry (npexp (mk_ndarray [1%nat] [a]) bigx lowx 2 false) k.
Definition npxlogx_at (eps : R) (k : nat) (a : R) : R :=
  first_entry (npxlogx (mk_ndarray [2%nat] [a; eps]) eps 2 false) k.

(** * Properties *)

(** ** Arrays and the monad *)

Lemma lookup_amap (f : R -> R) (a : ndarray) (i : nat) :
  data (amap f a) !! i = f <$> (data a !! i).
Proof. unfold amap; simpl. apply list_lookup_fmap. Qed.

Lemma lookup_where_gt (a : ndarray) (bound : R) (x y : ndarray) (i : nat)
  (v xv yv : R) :
  data a !! i = Some v -> data x !! i = Some xv -> data y !! i = Some yv ->
  data (where_gt a bound x y) !! i
  = Some (if bool_decide (bound < v) then xv else yv).
Proof.
  intros Ha Hx Hy. unfold where_gt; simpl.
  rewrite lookup_zip_with, list_lookup_fmap, Ha. simpl.
  rewrite (lookup_zip_with pair), Hx. simpl. rewrite Hy. reflexivity.
Qed.

Lemma foldr_Rmin_le (x : R) (xs : list R) :
  foldr Rmin x xs <= x /\ Forall (fun v => foldr Rmin x xs <= v) xs.
Proof.
  induction xs as [|y ys [IH1 IH2]]; simpl.
  - split; [lra | constructor].
  - split.
    + eapply Rle_trans; [apply Rmin_r | exact IH1].
    + constructor; [apply Rmin_l |].
      eapply Forall_impl; [exact IH2 |].
      intros v Hv; simpl in Hv. eapply Rle_trans; [apply Rmin_r | exact Hv].
Qed.

(** [np.min] returns a lower bound of every entry. *)
Lemma np_min_lower (a : ndarray) (i : nat) (v : R) :
  data a !! i = Some v ->
  exists mn, np_min a = ret mn /\ mn <= v.
Proof.
  unfold np_min. destruct (data a) as [|x xs]; [discriminate |].
  intros Hi. eexists; split; [reflexivity |].
  destruct (foldr_Rmin_le x xs) as [H1 H2].
  destruct i as [|i]; simpl in Hi.
  - now inversion Hi; subst.
  - rewrite Forall_lookup in H2. exact (H2 i v Hi).
Qed.

Lemma math_log_pos (x : R) : 0 < x -> math_log x = ret (ln x).
Proof. intros H. unfold math_log. now rewrite bool_decide_eq_true_2. Qed.

Lemma returned_bind {A B} (m : py A) (k : A -> py B) :
  returned (bind m k) = returned m ≫= (fun a => returned (k a)).
Proof.
  destruct m as [t [a | msg | exc]]; unfold returned; simpl; try reflexivity.
  now destruct (k a).
Qed.

Lemma returned_ret {A} (a : A) : returned (ret a) = Some a.
Proof. reflexivity. Qed.

Lemma output_bind {A B} (m : py A) (k : A -> py B) :
  output (bind m k)
  = output m ++ match returned m with
                | Some a => output (k a)
                | None => []
                end.
Proof.
  destruct m as [t [a | msg | exc]]; unfold returned, output; simpl;
    try (now rewrite app_nil_r).
  now destruct (k a).
Qed.

Arguments returned : simpl never.
Arguments output : simpl never.

(** ** [nplog] *)

(** C1.  With [eps] positive and [deriv] in range, [nplog] returns, and
    at every position of the array the value it returns is [ln a] for an
    entry [a] above [eps], and the second-order expansion
    [ln eps - d * (1 + d / 2)] with [d = 1 - a / eps] for an entry not
    above [eps].  At an entry equal to [eps] the value is [ln eps] and
    the first derivative, returned when [deriv >= 1], is [1 / eps]. *)
Theorem nplog_elementwise (arr : ndarray) (eps : R) (deriv : Z)
  (verbose : bool) (i : nat) (a : R) :
  0 < eps -> (0 <= deriv <= 2)%Z -> data arr !! i = Some a ->
  exists res val,
    returned (nplog arr eps deriv verbose) = Some res /\
    components res !! 0%nat = Some val /\
    (eps < a -> data val !! i = Some (ln a)) /\
    (a <= eps ->
     data val !! i
     = Some (ln eps - (1 - a / eps) * (1 + (1 - a / eps) / 2))) /\
    (a = eps ->
     data val !! i = Some (ln eps) /\
     ((1 <= deriv)%Z ->
      exists der, components res !! 1%nat = Some der /\
                  data der !! i = Some (1 / eps))).
Proof.
  intros Heps Hderiv Hi.
  destruct (np_min_lower arr i a Hi) as (mn & Hmin & Hle).
  assert (Hd : deriv = 0%Z \/ deriv = 1%Z \/ deriv = 2%Z) by lia.
  assert (Hval :
    data (where_gt arr eps (np_log (amap (fun a => Rmax a eps) arr))
            (amap (fun d => ln eps - d * (1 + d / 2))
               (amap (fun a => 1 - a / eps) arr))) !! i
    = Some (if bool_decide (eps < a) then ln (Rmax a eps)
            else ln eps - (1 - a / eps) * (1 + (1 - a / eps) / 2))).
  { erewrite lookup_where_gt; [| exact Hi | |].
    2:{ unfold np_log. rewrite !lookup_amap, Hi. reflexivity. }
    2:{ rewrite !lookup_amap, Hi. reflexivity. }
    reflexivity. }
  assert (Hder :
    data (where_gt arr eps (amap (fun a => 1 / a) (amap (fun a => Rmax a eps) arr))
            (amap (fun d => (1 + d) / eps)
               (amap (fun a => 1 - a / eps) arr))) !! i
    = Some (if bool_decide (eps < a) then 1 / Rmax a eps
            else (1 + (1 - a / eps)) / eps)).
  { erewrite lookup_where_gt; [| exact Hi | |].
    2:{ rewrite !lookup_amap, Hi. reflexivity. }
    2:{ rewrite !lookup_amap, Hi. reflexivity. }
    reflexivity. }
  unfold nplog. rewrite returned_bind.
  replace (deriv_not_in_012 deriv) with false
    by (destruct Hd as [-> | [-> | ->]]; reflexivity).
  rewrite returned_ret; simpl. rewrite returned_bind, Hmin, returned_ret; simpl.
  destruct (decide (eps < mn)) as [Hmn | Hmn].
  - (* every entry is above eps *)
    rewrite (bool_decide_eq_true_2 _ Hmn).
    assert (Ha : eps < a) by lra.
    assert (Hln : data (np_log arr) !! i = Some (ln a)).
    { unfold np_log. now rewrite lookup_amap, Hi. }
    destruct Hd as [-> | [-> | ->]]; simpl;
      (do 2 eexists; split; [reflexivity |]; split; [reflexivity |];
       split; [intros _; exact Hln |]; split; [intros; lra | intros; lra]).
  - rewrite (bool_decide_eq_false_2 _ Hmn).
    rewrite returned_bind, (math_log_pos eps Heps), returned_ret; simpl.
    rewrite returned_bind.
    assert (Hv : returned
      (if verbose
       then
        if (0 <? count_lt arr eps)%nat
        then print (PrintCount "nplog" (count_lt arr eps) "smaller than" eps mn)
        else ret ()
       else ret ()) = Some tt).
    { destruct verbose; [| reflexivity]. now destruct (0 <? _)%nat. }
    rewrite Hv; simpl.
    assert (Hgt : eps < a -> Rmax a eps = a) by (intros; apply Rmax_left; lra).
    assert (Hbd : a = eps -> 1 - a / eps = 0) by (intros ->; field; lra).
    destruct Hd as [-> | [-> | ->]]; simpl; rewrite returned_ret;
      (do 2 eexists; split; [reflexivity |]; split; [reflexivity |];
       rewrite Hval; split; [| split]).
    all: try (intros Ha; rewrite (bool_decide_eq_true_2 _ Ha), (Hgt Ha);
              reflexivity).
    all: try (intros Ha; rewrite bool_decide_eq_false_2 by lra; reflexivity).
    all: intros Ha; rewrite bool_decide_eq_false_2 by lra;
      rewrite (Hbd Ha); split; [f_equal; lra |]; intros Hd1; try lia.
    all: eexists; split; [reflexivity |]; rewrite Hder;
      rewrite bool_decide_eq_false_2 by lra; rewrite (Hbd Ha); f_equal; lra.
Qed.

(** The statement of [nplog_elementwise] at the array [[1; 1/2; 1/4]]
    with [eps = 1/2], first derivative requested, boundary element. *)
Lemma nplog_elementwise_witness :
  exists res val,
    returned (nplog (mk_ndarray [3%nat] [1; 1/2; 1/4]) (1/2) 1 false)
    = Some res /\
    components res !! 0%nat = Some val /\
    (1/2 < 1/2 -> data val !! 1%nat = Some (ln (1/2))) /\
    (1/2 <= 1/2 ->
     data val !! 1%nat
     = Some (ln (1/2) - (1 - (1/2) / (1/2)) * (1 + (1 - (1/2) / (1/2)) / 2))) /\
    (1/2 = 1/2 ->
     data val !! 1%nat = Some (ln (1/2)) /\
     ((1 <= 1)%Z ->
      exists der, components res !! 1%nat = Some der /\
                  data der !! 1%nat = Some (1 / (1/2)))).
Proof.
  apply (nplog_elementwise (mk_ndarray [3%nat] [1; 1/2; 1/4]) (1/2) 1 false
           1%nat (1/2)).
  - lra.
  - lia.
  - reflexivity.
Defined.

(** ** The [deriv] argument *)

(** An out-of-range [deriv] makes [nplog], [npexp] and [npxlogx] abort. *)
Lemma deriv_check_aborts (arr : ndarray) (eps bigx lowx : R) (deriv : Z)
  (verbose : bool) :
  (deriv < 0 \/ 2 < deriv)%Z ->
  (exists msg, nplog arr eps deriv verbose = ([], Abort msg)) /\
  (exists msg, npexp arr bigx lowx deriv verbose = ([], Abort msg)) /\
  (exists msg, npxlogx arr eps deriv verbose = ([], Abort msg)).
Proof.
  intros Hd.
  assert (Hc : deriv_not_in_012 deriv = true).
  { unfold deriv_not_in_012.
    destruct (Z.eqb_spec deriv 0), (Z.eqb_spec deriv 1), (Z.eqb_spec deriv 2);
      simpl; try reflexivity; lia. }
  unfold nplog, npexp, npxlogx. rewrite Hc.
  repeat split; eexists; reflexivity.
Qed.

(** C3.  Two calls that break the contract on [deriv]: [nppow] does not
    validate [deriv] and hands back [None] for [deriv = 3]; [npxlogx]
    returns the bare value, without derivative, for [deriv = 1] when every
    entry is above [eps]. *)
Theorem deriv_contract_broken :
  nppow (mk_ndarray [1%nat] [2]) (BInt 2) 3 = ret PNone /\
  npxlogx (mk_ndarray [1%nat] [1]) (1/2) 1 false
  = ret (PArray (mk_ndarray [1%nat] [1 * ln 1])).
Proof.
  split; [reflexivity |].
  unfold npxlogx, np_min; simpl.
  rewrite bool_decide_eq_true_2 by lra. reflexivity.
Qed.

(** ** [nppow] with a scalar exponent *)

Lemma foldr_Rmin_pos (x : R) (xs : list R) :
  0 < x -> Forall (fun v => 0 < v) xs -> 0 < foldr Rmin x xs.
Proof.
  intros Hx Hxs. induction Hxs as [|y ys Hy Hys IH]; simpl; [exact Hx |].
  apply Rmin_glb_lt; assumption.
Qed.

(** With a scalar exponent and [deriv] in range, a call that passes the
    sign check returns [a ** b] as its first component. *)
Lemma nppow_scalar_value (a : ndarray) (b : exponent) (deriv : Z) :
  is_scalar b -> (0 <= deriv <= 2)%Z ->
  returned (match b with
            | BFloat _ =>
                mina <- np_min a ;;
                if bool_decide (mina < 0)
                then bs_error_abort "All elements of a must be positive!"
                else ret tt
            | _ => ret tt
            end) = Some tt ->
  exists res,
    returned (nppow a b deriv) = Some res /\
    components res !! 0%nat = Some (amap (scalar_power b) a) /\
    (deriv = 0%Z -> res = PArray (amap (scalar_power b) a)).
Proof.
  intros Hb Hd Hchk.
  assert (Hd' : deriv = 0%Z \/ deriv = 1%Z \/ deriv = 2%Z) by lia.
  unfold nppow. rewrite returned_bind, Hchk. simpl.
  destruct b as [z | r | b']; [| | destruct Hb]; simpl;
    destruct Hd' as [-> | [-> | ->]]; simpl;
    (eexists; split; [reflexivity |]; split; [reflexivity |]);
    first [reflexivity | intros; lia].
Qed.

(** C5, as the code has it.  A float exponent makes [nppow] abort on an
    array with a negative entry.  With a scalar exponent, [deriv] in
    range and a non-empty array of positive entries, the call returns
    [a ** b] elementwise.  An integer exponent is never checked: the
    call returns [a ** b] whatever the signs of the entries. *)
Theorem nppow_scalar_exponent (a : ndarray) (deriv : Z) :
  (forall (r : R) (i : nat) (v : R),
     data a !! i = Some v -> v < 0 ->
     nppow a (BFloat r) deriv
     = ([], Abort "All elements of a must be positive!")) /\
  (forall b : exponent,
     is_scalar b -> (0 <= deriv <= 2)%Z -> data a <> [] ->
     Forall (fun v => 0 < v) (data a) ->
     exists res,
       returned (nppow a b deriv) = Some res /\
       components res !! 0%nat = Some (amap (scalar_power b) a) /\
       (deriv = 0%Z -> res = PArray (amap (scalar_power b) a))) /\
  (forall z : Z,
     (0 <= deriv <= 2)%Z ->
     exists res,
       returned (nppow a (BInt z) deriv) = Some res /\
       components res !! 0%nat = Some (amap (fun v => powerRZ v z) a) /\
       (deriv = 0%Z -> res = PArray (amap (fun v => powerRZ v z) a))).
Proof.
  split; [| split].
  - intros r i v Hi Hv.
    destruct (np_min_lower a i v Hi) as (mn & Hmin & Hle).
    unfold nppow. rewrite Hmin. simpl.
    rewrite bool_decide_eq_true_2 by lra. reflexivity.
  - intros b Hb Hd Hne Hpos.
    apply nppow_scalar_value; [assumption | assumption |].
    destruct b as [z | r | b']; try reflexivity.
    destruct (data a) as [|x xs] eqn:Ha; [congruence |].
    assert (Hmin : np_min a = ret (foldr Rmin x xs)).
    { unfold np_min. now rewrite Ha. }
    rewrite returned_bind, Hmin, returned_ret. simpl.
    assert (Hfold : 0 < foldr Rmin x xs).
    { apply foldr_Rmin_pos; [now inversion Hpos | now inversion Hpos]. }
    rewrite bool_decide_eq_false_2 by lra. reflexivity.
  - intros z Hd.
    exact (nppow_scalar_value a (BInt z) deriv I Hd eq_refl).
Qed.

(** The statement of [nppow_scalar_exponent] at the array [[1; -2]]
    (abort for the exponent [0.5]) and at [[1; 2]] with the exponent
    [2.0]. *)
Lemma nppow_scalar_exponent_witness :
  nppow (mk_ndarray [2%nat] [1; -2]) (BFloat 0.5) 0
  = ([], Abort "All elements of a must be positive!") /\
  exists res,
    returned (nppow (mk_ndarray [2%nat] [1; 2]) (BFloat 2) 0) = Some res /\
    components res !! 0%nat
    = Some (amap (scalar_power (BFloat 2)) (mk_ndarray [2%nat] [1; 2])) /\
    (0%Z = 0%Z ->
     res = PArray (amap (scalar_power (BFloat 2))
                     (mk_ndarray [2%nat] [1; 2]))).
Proof.
  split.
  - apply (proj1 (nppow_scalar_exponent (mk_ndarray [2%nat] [1; -2]) 0)
             0.5 1%nat (-2)); [reflexivity | lra].
  - apply (proj1 (proj2 (nppow_scalar_exponent
                           (mk_ndarray [2%nat] [1; 2]) 0)) (BFloat 2)).
    + exact I.
    + lia.
    + discriminate.
    + repeat constructor; lra.
Defined.

(** C5 fails as stated: with the integer exponent [2] and the array
    [[-1]], whose only entry is negative, [nppow] does not abort but
    returns [[(-1) ** 2]] = [[1]]. *)
Lemma nppow_int_exponent_negative_base :
  (exists v, v ∈ data (mk_ndarray [1%nat] [-1]) /\ v <= 0) /\
  nppow (mk_ndarray [1%nat] [-1]) (BInt 2) 0
  = ret (PArray (mk_ndarray [1%nat] [1])).
Proof.
  split.
  - exists (-1). split; [apply list_elem_of_singleton; reflexivity | lra].
  - unfold nppow; simpl. unfold amap; simpl.
    replace (-1 * (-1 * 1)) with 1 by lra. reflexivity.
Qed.

(** ** Console output *)

Lemma output_ret {A} (a : A) : output (ret a) = [].
Proof. reflexivity. Qed.

Lemma output_abort {A} (msg : string) : output (@bs_error_abort A msg) = [].
Proof. reflexivity. Qed.

Lemma output_np_min (a : ndarray) : output (np_min a) = [].
Proof. unfold np_min. now destruct (data a). Qed.

Lemma output_np_max (a : ndarray) : output (np_max a) = [].
Proof. unfold np_max. now destruct (data a). Qed.

Lemma output_math_log (x : R) : output (math_log x) = [].
Proof. unfold math_log. now destruct (bool_decide _). Qed.

(** A computation that prints nothing, whatever comes before it. *)
Lemma output_bind_nil {A B} (m : py A) (k : A -> py B) :
  output m = [] -> (forall a, output (k a) = []) -> output (bind m k) = [].
Proof.
  intros Hm Hk. rewrite output_bind, Hm. simpl.
  destruct (returned m); [apply Hk | reflexivity].
Qed.

Ltac quiet :=
  repeat first
    [ apply output_ret | apply output_abort | apply output_np_min
    | apply output_np_max | apply output_math_log
    | apply output_bind_nil; [| intros ?]
    | match goal with
      | |- output (if ?c then _ else _) = [] => destruct c
      | |- output (match ?c with _ => _ end) = [] => destruct c
      end ].

(** Without [verbose], [nplog] and [npxlogx] print nothing, and neither
    does [nppow], which has no such flag. *)
Lemma quiet_unless_verbose (arr : ndarray) (eps : R) (deriv : Z)
  (b : exponent) :
  output (nplog arr eps deriv false) = [] /\
  output (npxlogx arr eps deriv false) = [] /\
  output (nppow arr b deriv) = [].
Proof.
  assert (Hlog : forall a e d, output (nplog a e d false) = []).
  { intros a e d. unfold nplog. quiet. }
  split; [apply Hlog | split].
  - unfold npxlogx. quiet.
  - unfold nppow. destruct b; quiet; first [apply Hlog | reflexivity].
Qed.

(** C8.  [npexp] prints although [verbose] is off: on the array [[60]]
    with the bounds [50] and [-50] it prints the clipped exponentials
    twice. *)
Theorem npexp_prints_without_verbose :
  output (npexp (mk_ndarray [1%nat] [60]) 50 (-50) 0 false)
  = [PrintArray "exparr=" (mk_ndarray [1%nat] [exp 50]);
     PrintArray "" (mk_ndarray [1%nat] [exp 50])].
Proof.
  unfold npexp, np_min, np_max; simpl.
  rewrite (bool_decide_eq_false_2 (60 <= 50)) by lra. simpl.
  unfold amap; simpl.
  rewrite (Rmin_right 60 50) by lra. rewrite (Rmax_left 50 (-50)) by lra.
  reflexivity.
Qed.

(** ** [gauher]: the iteration budget *)

(** After [for its in range(...)], [its] is one of the values of the
    range, whether or not the loop was left by [break]. *)
Lemma newton_for_its (n : nat) (range : list nat) (s : newton_state) :
  range <> [] -> cur_its (newton_for n range s) ∈ range.
Proof.
  revert s. induction range as [|its rest IH]; intros s Hne; [congruence |].
  cbn [newton_for]. cbv zeta.
  assert (Hits : cur_its (fst (newton_body n its (cur_z s))) = its)
    by reflexivity.
  destruct (snd (newton_body n its (cur_z s))).
  - rewrite Hits. apply list_elem_of_here.
  - destruct rest as [|its' rest'].
    + cbn [newton_for]. rewrite Hits. apply list_elem_of_here.
    + apply list_elem_of_further. apply IH. discriminate.
Qed.

Lemma newton_for_its_lt_MAXIT (n : nat) (s : newton_state) :
  (cur_its (newton_for n (seq 0 MAXIT) s) < MAXIT)%nat.
Proof.
  pose proof (newton_for_its n (seq 0 MAXIT) s) as H.
  assert (Hne : seq 0 MAXIT <> []) by discriminate.
  apply H in Hne. apply list_elem_of_In, in_seq in Hne. lia.
Qed.

(** The test [its >= MAXIT] never succeeds: every pass of the outer loop
    stores its root and goes on. *)
Lemma gauher_iter_returns (n : nat) (s : gauher_state) (i : nat) :
  exists s', gauher_iter n s i = ret s'.
Proof.
  unfold gauher_iter.
  pose proof (newton_for_its_lt_MAXIT n
    (mk_newton (initial_guess n i (g_z s) (g_x s)) 0 0)) as Hlt.
  apply Nat.leb_gt in Hlt. rewrite Hlt. eexists; reflexivity.
Qed.

Lemma for_each_returns {S : Type} (body : S -> nat -> py S)
  (range : list nat) (s : S) :
  (forall s i, exists s', body s i = ret s') ->
  exists s', for_each body range s = ret s'.
Proof.
  intros Hbody. revert s. induction range as [|i rest IH]; intros s; simpl.
  - eexists; reflexivity.
  - destruct (Hbody s i) as [s1 ->]. destruct (IH s1) as [s2 Hs2].
    exists s2. simpl. now rewrite Hs2.
Qed.

(** C4.  [gauher] never takes the exit "too many iterations in gauher":
    for every [n] it returns a pair of arrays and prints nothing,
    whether or not the Newton iterations met the tolerance. *)
Theorem gauher_never_aborts (n : nat) :
  exists x w : list R, gauher n = ret (x, w).
Proof.
  unfold gauher.
  destruct (for_each_returns (gauher_iter n) (seq 0 ((n + 1) / 2))
              (mk_gauher 0 (replicate n 0) (replicate n 0))
              (gauher_iter_returns n)) as [s ->].
  do 2 eexists. reflexivity.
Qed.

(** ** Sums *)

Lemma sum_list_app (l1 l2 : list R) :
  sum_list (l1 ++ l2) = sum_list l1 + sum_list l2.
Proof. induction l1 as [|a l IH]; simpl; [lra | rewrite IH; lra]. Qed.

Lemma sum_list_map_plus {A} (f g : A -> R) (l : list A) :
  sum_list (map (fun a => f a + g a) l)
  = sum_list (map f l) + sum_list (map g l).
Proof. induction l as [|a l IH]; simpl; [lra | rewrite IH; lra]. Qed.

Lemma sum_list_map_const {A} (c : R) (l : list A) :
  sum_list (map (fun _ => c) l) = INR (length l) * c.
Proof.
  induction l as [|a l IH]; [simpl; lra |].
  cbn [map sum_list foldr length]. fold (sum_list (map (fun _ => c) l)).
  rewrite IH, S_INR. lra.
Qed.

Lemma sum_list_map_ext {A} (f g : A -> R) (l : list A) :
  Forall (fun a => f a = g a) l ->
  sum_list (map f l) = sum_list (map g l).
Proof.
  induction 1 as [|a l Ha Hl IH]; simpl; [reflexivity |].
  now rewrite Ha, IH.
Qed.

Lemma item_cons (a : R) (r : list R) (j : nat) :
  item (a :: r) (S j) = item r j.
Proof. reflexivity. Qed.

(** Summing the entries by index is summing the list. *)
Lemma sum_list_items (r : list R) :
  sum_list (map (item r) (seq 0 (length r))) = sum_list r.
Proof.
  induction r as [|a r IH]; [reflexivity |].
  cbn [length seq map]. rewrite <- fmap_S_seq.
  change (sum_list (item (a :: r) 0 :: map (item (a :: r)) (S <$> seq 0 (length r)))
          = a + sum_list r).
  rewrite <- list_fmap_compose. simpl. f_equal. exact IH.
Qed.

(** Row sums and column sums of a rectangular array add up to the same
    total. *)
Lemma sum_axis_exchange (A : matrix) (m : nat) :
  Forall (fun r => length r = m) A ->
  sum_list (map (fun j => sum_list (map (fun row => item row j) A)) (seq 0 m))
  = sum_list (map sum_list A).
Proof.
  induction 1 as [|r A' Hr HA IH].
  - simpl. rewrite sum_list_map_const. lra.
  - cbn [map]. change (sum_list (sum_list r :: map sum_list A'))
      with (sum_list r + sum_list (map sum_list A')).
    rewrite <- IH, <- (sum_list_items r), Hr.
    rewrite <- sum_list_map_plus. reflexivity.
Qed.

(** ** [_double_decenter] *)

Lemma sum_zip_affine (row v : list R) (c1 k1 k2 : R) :
  length row = length v ->
  sum_list (zip_with (fun a a1 => a - a1 / c1 - k1 + k2) row v)
  = sum_list row - sum_list v / c1 - INR (length row) * k1
    + INR (length row) * k2.
Proof.
  revert v. induction row as [|a row IH]; intros [|b v] Hlen;
    try discriminate.
  - simpl. lra.
  - cbn [zip_with length]. rewrite S_INR.
    change (sum_list (?x :: ?l)) with (x + sum_list l).
    rewrite IH by (simpl in Hlen; lia). lra.
Qed.

Lemma sum_map_affine {A} (f s : A -> R) (c1 k1 k2 : R) (l : list A) :
  sum_list (map (fun x => f x - k1 - s x / c1 + k2) l)
  = sum_list (map f l) - INR (length l) * k1 - sum_list (map s l) / c1
    + INR (length l) * k2.
Proof.
  induction l as [|a l IH]; [simpl; lra |].
  cbn [map length]. rewrite S_INR.
  change (sum_list (?x :: ?l)) with (x + sum_list l).
  rewrite IH. lra.
Qed.

Lemma item_zip_with (f : R -> R -> R) (r v : list R) (j : nat) :
  (j < length r)%nat -> (j < length v)%nat ->
  item (zip_with f r v) j = f (item r j) (item v j).
Proof.
  intros Hr Hv. unfold item.
  destruct (lookup_lt_is_Some_2 r j Hr) as [a Ha].
  destruct (lookup_lt_is_Some_2 v j Hv) as [b Hb].
  rewrite lookup_zip_with, Ha, Hb. reflexivity.
Qed.

Lemma item_map_seq (f : nat -> R) (n j : nat) :
  (j < n)%nat -> item (map f (seq 0 n)) j = f j.
Proof.
  intros Hj. unfold item.
  rewrite list_lookup_fmap, lookup_seq_lt by exact Hj. reflexivity.
Qed.

Lemma map_zero_replicate {A} (f : A -> R) (l : list A) :
  Forall (fun a => f a = 0) l -> map f l = replicate (length l) 0.
Proof.
  induction 1 as [|a l Ha Hl IH]; simpl; [reflexivity |].
  now rewrite Ha, IH.
Qed.

Lemma test_square_square (n : nat) (A : matrix) (fun_name : string) :
  square n A -> test_square A fun_name = ret n.
Proof.
  intros [Hn Hrows]. unfold test_square, nrows, ncols.
  destruct A as [|r A'].
  - simpl in Hn. subst n. reflexivity.
  - inversion Hrows as [|? ? Hr _]; subst. simpl in *.
    rewrite Hr, Nat.eqb_refl. reflexivity.
Qed.

Lemma square_ncols (n : nat) (A : matrix) : square n A -> ncols A = n.
Proof.
  intros [Hn Hrows]. destruct A as [|r A']; [exact Hn |].
  now inversion Hrows.
Qed.

(** C9.  The biased double decentering of a square array has all its row
    sums and all its column sums equal to zero. *)
Theorem double_decenter_sums_zero (n : nat) (A : matrix) :
  square n A ->
  exists A_dd,
    _double_decenter A false = ret A_dd /\
    square n A_dd /\
    np_sum_axis1 A_dd = replicate n 0 /\
    np_sum_axis0 A_dd = replicate n 0.
Proof.
  intros Hsq. pose proof Hsq as [Hn Hrows].
  unfold _double_decenter. rewrite (test_square_square n A _ Hsq).
  eexists. split; [reflexivity |].
  cbv zeta. cbn [negb].
  set (A_1 := np_sum_axis0 A).
  set (A_0 := sum_list A_1).
  set (N := IZR (Z.of_nat n)).
  set (NN := IZR (Z.of_nat n * Z.of_nat n)).
  assert (HN : N = INR n) by (subst N; now rewrite <- INR_IZR_INZ).
  assert (HNN : NN = INR n * INR n).
  { subst NN. now rewrite mult_IZR, <- INR_IZR_INZ. }
  assert (HA1 : length A_1 = n).
  { subst A_1. unfold np_sum_axis0.
    now rewrite length_map, length_seq, (square_ncols n A Hsq). }
  assert (HA0 : A_0 = sum_list (map sum_list A)).
  { subst A_0 A_1. unfold np_sum_axis0. rewrite (square_ncols n A Hsq).
    now apply sum_axis_exchange. }
  set (h := fun row : list R =>
              zip_with (fun a a1 => a - a1 / N - sum_list row / N + A_0 / NN)
                row A_1).
  assert (HD : zip_with
                 (fun (row : list R) (a2 : R) =>
                    zip_with (fun a a1 => a - a1 / N - a2 / N + A_0 / NN)
                      row A_1)
                 A (np_sum_axis1 A) = map h A).
  { unfold np_sum_axis1. now rewrite zip_with_fmap_r, zip_with_diag. }
  rewrite HD. clear HD.
  assert (Hh : Forall (fun row => length (h row) = n) A).
  { eapply Forall_impl; [exact Hrows |]. intros row Hrow. simpl in Hrow. subst h. simpl.
    rewrite length_zip_with. lia. }
  assert (Hsq' : square n (map h A)).
  { split; [now rewrite length_map |]. now apply Forall_fmap. }
  split; [exact Hsq' | split].
  - (* rows *)
    unfold np_sum_axis1. rewrite <- list_fmap_compose, <- Hn.
    apply map_zero_replicate, Forall_forall. intros row Hin.
    assert (Hrow : length row = n).
    { rewrite Forall_forall in Hrows. now apply Hrows. }
    assert (Hn0 : INR n <> 0).
    { apply not_0_INR. destruct A; [inversion Hin | simpl in Hn; lia]. }
    simpl. subst h. simpl. rewrite sum_zip_affine by lia.
    rewrite Hrow. fold A_0. rewrite HN, HNN. field. assumption.
  - (* columns *)
    unfold np_sum_axis0. rewrite (square_ncols n (map h A) Hsq').
    replace (replicate n 0) with (replicate (length (seq 0 n)) 0)
      by now rewrite length_seq.
    apply map_zero_replicate.
    apply Forall_forall. intros j Hj%list_elem_of_In%in_seq.
    assert (Hj' : (j < n)%nat) by lia. clear Hj.
    rewrite <- list_fmap_compose.
    assert (HNne : INR n <> 0) by (apply not_0_INR; lia).
    rewrite (sum_list_map_ext _
      (fun row => item row j - item A_1 j / N - sum_list row / N + A_0 / NN)).
    2:{ eapply Forall_impl; [exact Hrows |]. intros row Hrow. simpl in Hrow. simpl.
        subst h. simpl. apply item_zip_with; lia. }
    rewrite (sum_map_affine (fun row : list R => item row j) sum_list).
    assert (HC : sum_list (map (fun row : list R => item row j) A)
                 = item A_1 j).
    { subst A_1. unfold np_sum_axis0. rewrite (square_ncols n A Hsq).
      now rewrite item_map_seq. }
    rewrite HC, <- HA0, Hn, HN, HNN. field. assumption.
Qed.

(** The statement of [double_decenter_sums_zero] at the distance matrix
    of the sample [[0; 1]]. *)
Lemma double_decenter_sums_zero_witness :
  exists A_dd,
    _double_decenter [[0; 1]; [1; 0]] false = ret A_dd /\
    square 2 A_dd /\
    np_sum_axis1 A_dd = replicate 2 0 /\
    np_sum_axis0 A_dd = replicate 2 0.
Proof.
  apply (double_decenter_sums_zero 2 [[0; 1]; [1; 0]]).
  split; [reflexivity | repeat constructor].
Defined.

(** ** Bootstrap p-values *)

Lemma returned_for_each {S : Type} (I : S -> Prop) (body : S -> nat -> py S)
  (range : list nat) (s : S) :
  (forall s i, I s -> exists s', returned (body s i) = Some s' /\ I s') ->
  I s ->
  exists s', returned (for_each body range s) = Some s' /\ I s'.
Proof.
  intros Hbody. revert s. induction range as [|i rest IH]; intros s Hs.
  - exists s. split; [reflexivity | exact Hs].
  - destruct (Hbody s i Hs) as (s1 & H1 & HI1).
    destruct (IH s1 HI1) as (s2 & H2 & HI2).
    exists s2. split; [| exact HI2].
    cbn [for_each]. rewrite returned_bind, H1. exact H2.
Qed.

Lemma returned_bind_Some {A B} (m : py A) (k : A -> py B) (a : A) :
  returned m = Some a -> returned (bind m k) = returned (k a).
Proof. intros H. now rewrite returned_bind, H. Qed.

Lemma returned_map_each {A B : Type} (g : A -> py B) (f : A -> B)
  (l : list A) :
  Forall (fun a => returned (g a) = Some (f a)) l ->
  returned (map_each g l) = Some (map f l).
Proof.
  induction 1 as [|a l Ha Hl IH]; [reflexivity |].
  cbn [map_each]. rewrite returned_bind, Ha. simpl.
  rewrite returned_bind, IH. reflexivity.
Qed.

Lemma returned_getitem {A} (v : list A) (i : nat) (a : A) :
  v !! i = Some a -> returned (getitem v i) = Some a.
Proof. intros H. unfold getitem. now rewrite H. Qed.

Lemma lookup_default {A} (l : list A) (i : nat) (d : A) :
  (i < length l)%nat -> l !! i = Some (default d (l !! i)).
Proof.
  intros H. destruct (lookup_lt_is_Some_2 l i H) as [x Hx].
  rewrite Hx. reflexivity.
Qed.

(** The indices drawn by [random_choice] are valid row numbers. *)
Lemma random_choice_draws (n : nat) (g : rng) :
  length (fst (random_choice n g)) = n /\
  Forall (fun d => (d < n)%nat) (fst (random_choice n g)).
Proof.
  unfold random_choice; simpl. split.
  - now rewrite length_map, length_seq.
  - apply Forall_fmap, Forall_forall. intros k Hk%list_elem_of_In%in_seq.
    simpl. apply Nat.mod_upper_bound. lia.
Qed.

(** Resampling a square array with valid indices gives a square array. *)
Lemma resample_square (n : nat) (M : matrix) (draws : list nat) :
  square n M -> Forall (fun d => (d < n)%nat) draws ->
  exists M', returned (resample M draws) = Some M' /\
             square (length draws) M'.
Proof.
  intros [Hn Hrows] Hdraws. unfold resample.
  set (row_of := fun d : nat => default [] (M !! d)).
  set (pick := fun row : list R => map (item row) draws).
  exists (map pick (map row_of draws)). split.
  - rewrite returned_bind.
    rewrite (returned_map_each (getitem M) row_of).
    2:{ eapply Forall_impl; [exact Hdraws |]. intros d Hd. simpl in Hd.
        apply returned_getitem. subst row_of. simpl.
        apply lookup_default. lia. }
    simpl. apply returned_map_each.
    apply Forall_fmap. eapply Forall_impl; [exact Hdraws |].
    intros d Hd. simpl in Hd. simpl.
    apply (returned_map_each _ (item (row_of d))).
    eapply Forall_impl; [exact Hdraws |]. intros d' Hd'. simpl in Hd'.
    apply returned_getitem. unfold item.
    assert (Hlen : length (row_of d) = n).
    { rewrite Forall_lookup in Hrows. apply (Hrows d).
      subst row_of. apply lookup_default. lia. }
    apply lookup_default. lia.
  - split; [now rewrite !length_map |].
    apply Forall_fmap, Forall_fmap, Forall_forall. intros d _. simpl.
    subst pick. simpl. now rewrite length_map.
Qed.

Lemma dcov_prod_square (n : nat) (A B : matrix) (unbiased : bool) :
  square n A -> square n B -> exists v, _dcov_prod A B unbiased = ret v.
Proof.
  intros HA HB. unfold _dcov_prod.
  rewrite (test_square_square n A _ HA), (test_square_square n B _ HB).
  simpl. rewrite Nat.eqb_refl. eexists; reflexivity.
Qed.

Lemma returned_print_if (c : bool) (e : event) :
  returned (if c then print e else ret tt) = Some tt.
Proof. now destruct c. Qed.

(** The bootstrap of [pvalue_dcov] returns [ndraws] statistics. *)
Lemma dcov_bootstrap_returns (n ndraws : nat) (X Y : matrix)
  (unbiased : bool) (g : rng) :
  square n X -> square n Y ->
  exists boot g',
    returned (_dcov_bootstrap X Y unbiased ndraws g) = Some (boot, g') /\
    length boot = ndraws.
Proof.
  intros HX HY. unfold _dcov_bootstrap.
  assert (Hnr : nrows X = n) by (destruct HX as [H _]; exact H).
  rewrite Hnr.
  destruct (returned_for_each
              (fun s : list R * rng => length (fst s) = ndraws)
              (dcov_bootstrap_iter X Y unbiased n) (seq 0 ndraws)
              (replicate ndraws 0, g)) as (s & Hs & Hlen).
  - intros s idraw Hlen. unfold dcov_bootstrap_iter.
    destruct (random_choice_draws n (snd s)) as [Hl Hd].
    destruct (resample_square n X _ HX Hd) as (X' & HX' & HsX).
    destruct (resample_square n Y _ HY Hd) as (Y' & HY' & HsY).
    destruct (dcov_prod_square _ X' Y' unbiased HsX HsY) as [v Hv].
    eexists.
    rewrite (returned_bind_Some _ _ _ HX'), (returned_bind_Some _ _ _ HY').
    rewrite (returned_bind_Some _ _ _ (returned_print_if _ _)).
    rewrite Hv. split; [reflexivity |].
    simpl. now rewrite length_insert.
  - simpl. apply length_replicate.
  - destruct s as [boot g']. simpl in Hlen.
    exists (map (Rmult (INR n)) boot), g'. split.
    + rewrite returned_bind, Hs. reflexivity.
    + now rewrite length_map.
Qed.

(** The bootstrap of [pvalue_pdcov] returns [ndraws] statistics. *)
Lemma pdcovs_bootstrap_returns (n ndraws : nat) (X Y Z : matrix) (g : rng) :
  square n X -> square n Y -> square n Z ->
  exists boot g',
    returned (_pdcovs_bootstrap X Y Z ndraws g) = Some (boot, g') /\
    length boot = ndraws.
Proof.
  intros HX HY HZ. unfold _pdcovs_bootstrap.
  assert (Hnr : nrows X = n) by (destruct HX as [H _]; exact H).
  rewrite Hnr.
  destruct (returned_for_each
              (fun s : list R * rng => length (fst s) = ndraws)
              (pdcovs_bootstrap_iter X Y Z n) (seq 0 ndraws)
              (replicate ndraws 0, g)) as (s & Hs & Hlen).
  - intros s idraw Hlen. unfold pdcovs_bootstrap_iter.
    destruct (random_choice_draws n (snd s)) as [Hl Hd].
    destruct (resample_square n X _ HX Hd) as (X' & HX' & HsX).
    destruct (resample_square n Y _ HY Hd) as (Y' & HY' & HsY).
    destruct (resample_square n Z _ HZ Hd) as (Z' & HZ' & HsZ).
    destruct (dcov_prod_square _ X' Y' true HsX HsY) as [cxy Hxy].
    destruct (dcov_prod_square _ X' Z' true HsX HsZ) as [cxz Hxz].
    destruct (dcov_prod_square _ Y' Z' true HsY HsZ) as [cyz Hyz].
    destruct (dcov_prod_square _ Z' Z' true HsZ HsZ) as [czz Hzz].
    eexists.
    rewrite (returned_bind_Some _ _ _ (returned_print_if _ _)).
    rewrite (returned_bind_Some _ _ _ HX'), (returned_bind_Some _ _ _ HY').
    rewrite (returned_bind_Some _ _ _ HZ').
    rewrite Hxy, Hxz, Hyz, Hzz. split; [reflexivity |].
    simpl. now rewrite length_insert.
  - simpl. apply length_replicate.
  - destruct s as [boot g']. simpl in Hlen.
    exists (map (Rmult (INR n)) boot), g'. split.
    + rewrite returned_bind, Hs. reflexivity.
    + now rewrite length_map.
Qed.

Lemma tie_bootstrap :
  returned (_dcov_bootstrap tie_matrix tie_matrix false 1 identity_tape)
  = Some ([1/2], mk_rng (fun k => k) 2).
Proof.
  unfold _dcov_bootstrap. cbn. unfold returned. cbn.
  change (Z.of_nat 2 * Z.of_nat 2)%Z with 4%Z.
  do 3 f_equal. lra.
Qed.

(** The p-value is [(1 + k) / (1 + ndraws)] for the bootstrap statistics
    the call drew, [k] being [count_above]. *)
Lemma pvalue_dcov_returns (n ndraws : nat) (r : DcovResults) (g : rng) :
  square n (X_dd r) -> square n (Y_dd r) ->
  exists boot g',
    returned (_dcov_bootstrap (X_dd r) (Y_dd r) (unbiased r) ndraws g)
    = Some (boot, g') /\
    length boot = ndraws /\
    returned (pvalue_dcov r ndraws g)
    = Some ((1 + INR (count_above (dcov_stat r) boot)) / (1 + INR ndraws),
            g').
Proof.
  intros HX HY.
  destruct (dcov_bootstrap_returns n ndraws _ _ (unbiased r) g HX HY)
    as (boot & g' & Hb & Hlen).
  exists boot, g'. split; [exact Hb | split; [exact Hlen |]].
  unfold pvalue_dcov. rewrite (returned_bind_Some _ _ _ Hb). reflexivity.
Qed.

Lemma pvalue_pdcov_returns (n ndraws : nat) (r : PdcovResults) (g : rng) :
  square n (pd_X_dd r) -> square n (pd_Y_dd r) -> square n (pd_Z_dd r) ->
  exists boot g',
    returned (_pdcovs_bootstrap (pd_X_dd r) (pd_Y_dd r) (pd_Z_dd r) ndraws g)
    = Some (boot, g') /\
    length boot = ndraws /\
    returned (pvalue_pdcov r ndraws g)
    = Some ((1 + INR (count_above (pdcov_stat r) boot)) / (1 + INR ndraws),
            g').
Proof.
  intros HX HY HZ.
  destruct (pdcovs_bootstrap_returns n ndraws _ _ _ g HX HY HZ)
    as (boot & g' & Hb & Hlen).
  exists boot, g'. split; [exact Hb | split; [exact Hlen |]].
  unfold pvalue_pdcov. rewrite (returned_bind_Some _ _ _ Hb). reflexivity.
Qed.

(** C6, as the code has it.  On results holding square arrays of one
    size, [pvalue_dcov] and [pvalue_pdcov] return
    [(1 + k) / (1 + ndraws)] where [k] is the number of bootstrap
    statistics strictly greater than the observed one. *)
Theorem pvalue_counts_strictly_greater (n ndraws : nat) (g : rng) :
  (forall r : DcovResults,
     square n (X_dd r) -> square n (Y_dd r) ->
     exists boot g',
       returned (_dcov_bootstrap (X_dd r) (Y_dd r) (unbiased r) ndraws g)
       = Some (boot, g') /\
       length boot = ndraws /\
       returned (pvalue_dcov r ndraws g)
       = Some ((1 + INR (length (filter (fun b => dcov_stat r < b) boot)))
               / (1 + INR ndraws), g')) /\
  (forall r : PdcovResults,
     square n (pd_X_dd r) -> square n (pd_Y_dd r) -> square n (pd_Z_dd r) ->
     exists boot g',
       returned (_pdcovs_bootstrap (pd_X_dd r) (pd_Y_dd r) (pd_Z_dd r)
                   ndraws g)
       = Some (boot, g') /\
       length boot = ndraws /\
       returned (pvalue_pdcov r ndraws g)
       = Some ((1 + INR (length (filter (fun b => pdcov_stat r < b) boot)))
               / (1 + INR ndraws), g')).
Proof.
  split.
  - intros r HX HY. exact (pvalue_dcov_returns n ndraws r g HX HY).
  - intros r HX HY HZ. exact (pvalue_pdcov_returns n ndraws r g HX HY HZ).
Qed.

(** The statement of [pvalue_counts_strictly_greater] at the sample
    [tie_results], with one draw. *)
Lemma pvalue_counts_strictly_greater_witness :
  (exists boot g',
     returned (_dcov_bootstrap (X_dd tie_results) (Y_dd tie_results)
                 (unbiased tie_results) 1 identity_tape)
     = Some (boot, g') /\
     length boot = 1%nat /\
     returned (pvalue_dcov tie_results 1 identity_tape)
     = Some ((1 + INR (length (filter (fun b => dcov_stat tie_results < b)
                                 boot)))
             / (1 + INR 1), g')) /\
  (exists boot g',
     returned (_pdcovs_bootstrap (pd_X_dd line_results)
                 (pd_Y_dd line_results) (pd_Z_dd line_results) 3
                 identity_tape)
     = Some (boot, g') /\
     length boot = 3%nat /\
     returned (pvalue_pdcov line_results 3 identity_tape)
     = Some ((1 + INR (length (filter (fun b => pdcov_stat line_results < b)
                                 boot)))
             / (1 + INR 3), g')).
Proof.
  split.
  - apply (proj1 (pvalue_counts_strictly_greater 2 1 identity_tape)
             tie_results).
    + split; [reflexivity | repeat constructor].
    + split; [reflexivity | repeat constructor].
  - apply (proj2 (pvalue_counts_strictly_greater 4 3 identity_tape)
             line_results).
    + split; [reflexivity | repeat constructor].
    + split; [reflexivity | repeat constructor].
    + split; [reflexivity | repeat constructor].
Defined.

(** C6 fails as stated: on [tie_results] the only bootstrap statistic
    equals the observed one, [1/2]; it is at least as extreme, yet
    [pvalue_dcov] returns [(1 + 0) / (1 + 1)] and not [(1 + 1) / (1 + 1)]. *)
Lemma pvalue_dcov_tie_not_counted :
  returned (_dcov_bootstrap (X_dd tie_results) (Y_dd tie_results)
              (unbiased tie_results) 1 identity_tape)
  = Some ([1/2], mk_rng (fun k => k) 2) /\
  length (filter (fun b => dcov_stat tie_results <= b) [1/2]) = 1%nat /\
  returned (pvalue_dcov tie_results 1 identity_tape)
  = Some (1/2, mk_rng (fun k => k) 2) /\
  1/2 <> (1 + INR (length (filter (fun b => dcov_stat tie_results <= b)
                             [1/2])))
         / (1 + INR 1).
Proof.
  assert (Hk : length (filter (fun b => dcov_stat tie_results <= b) [1/2])
               = 1%nat).
  { simpl. rewrite filter_cons_True by (simpl; lra). reflexivity. }
  split; [exact tie_bootstrap | split; [exact Hk | split]].
  - unfold pvalue_dcov.
    rewrite (returned_bind_Some _ _ _ tie_bootstrap).
    unfold returned, count_above. simpl.
    rewrite filter_cons_False by (simpl; lra).
    do 2 f_equal. simpl. lra.
  - rewrite Hk. simpl. lra.
Qed.

(** What the bootstrap loops hand back has [ndraws] entries, whatever
    the arrays they resample. *)
Lemma returned_bind_inv {A B} (m : py A) (k : A -> py B) (b : B) :
  returned (bind m k) = Some b ->
  exists a, returned m = Some a /\ returned (k a) = Some b.
Proof.
  rewrite returned_bind. destruct (returned m) as [a|]; simpl.
  - intros H. now exists a.
  - discriminate.
Qed.

Lemma for_each_preserves {S : Type} (I : S -> Prop)
  (body : S -> nat -> py S) (range : list nat) :
  (forall s i s', I s -> returned (body s i) = Some s' -> I s') ->
  forall s s', I s -> returned (for_each body range s) = Some s' -> I s'.
Proof.
  intros Hbody. induction range as [|i range IH]; intros s s' Hs Hret.
  - cbn [for_each] in Hret. rewrite returned_ret in Hret.
    now inversion Hret; subst.
  - cbn [for_each] in Hret.
    apply returned_bind_inv in Hret as (s1 & H1 & H2).
    exact (IH s1 s' (Hbody s i s1 Hs H1) H2).
Qed.

Lemma dcov_bootstrap_length (X Y : matrix) (unbiased : bool) (ndraws : nat)
  (g g' : rng) (boot : list R) :
  returned (_dcov_bootstrap X Y unbiased ndraws g) = Some (boot, g') ->
  length boot = ndraws.
Proof.
  unfold _dcov_bootstrap. intros H.
  apply returned_bind_inv in H as (s & Hs & Hr).
  rewrite returned_ret in Hr. inversion Hr; subst boot g'; clear Hr.
  rewrite length_map.
  apply (for_each_preserves (fun s => length (fst s) = ndraws)) in Hs.
  - exact Hs.
  - clear. intros s i s' Hlen H. unfold dcov_bootstrap_iter in H.
    apply returned_bind_inv in H as (Xi & _ & H).
    apply returned_bind_inv in H as (Yi & _ & H).
    apply returned_bind_inv in H as (u & _ & H).
    apply returned_bind_inv in H as (v & _ & H).
    rewrite returned_ret in H. inversion H; subst s'. simpl.
    now rewrite length_insert.
  - simpl. apply length_replicate.
Qed.

Lemma pdcovs_bootstrap_length (X Y Z : matrix) (ndraws : nat)
  (g g' : rng) (boot : list R) :
  returned (_pdcovs_bootstrap X Y Z ndraws g) = Some (boot, g') ->
  length boot = ndraws.
Proof.
  unfold _pdcovs_bootstrap. intros H.
  apply returned_bind_inv in H as (s & Hs & Hr).
  rewrite returned_ret in Hr. inversion Hr; subst boot g'; clear Hr.
  rewrite length_map.
  apply (for_each_preserves (fun s => length (fst s) = ndraws)) in Hs.
  - exact Hs.
  - clear. intros s i s' Hlen H. unfold pdcovs_bootstrap_iter in H.
    apply returned_bind_inv in H as (u & _ & H).
    apply returned_bind_inv in H as (Xi & _ & H).
    apply returned_bind_inv in H as (Yi & _ & H).
    apply returned_bind_inv in H as (Zi & _ & H).
    apply returned_bind_inv in H as (c1 & _ & H).
    apply returned_bind_inv in H as (c2 & _ & H).
    apply returned_bind_inv in H as (c3 & _ & H).
    apply returned_bind_inv in H as (c4 & _ & H).
    rewrite returned_ret in H. inversion H; subst s'. simpl.
    now rewrite length_insert.
  - simpl. apply length_replicate.
Qed.

(** C10.  For every input, every [ndraws] and every state of the random
    generator, a p-value returned by [pvalue_dcov] or by [pvalue_pdcov]
    lies between [1 / (1 + ndraws)] and [1]; and on results holding
    square arrays of one size both calls do return. *)
Theorem pvalue_bounds (n ndraws : nat) (g : rng) :
  (forall (r : DcovResults) (p : R) (g' : rng),
     returned (pvalue_dcov r ndraws g) = Some (p, g') ->
     1 / (1 + INR ndraws) <= p <= 1) /\
  (forall (r : PdcovResults) (p : R) (g' : rng),
     returned (pvalue_pdcov r ndraws g) = Some (p, g') ->
     1 / (1 + INR ndraws) <= p <= 1) /\
  (forall r : DcovResults,
     square n (X_dd r) -> square n (Y_dd r) ->
     exists p g',
       returned (pvalue_dcov r ndraws g) = Some (p, g') /\
       1 / (1 + INR ndraws) <= p <= 1) /\
  (forall r : PdcovResults,
     square n (pd_X_dd r) -> square n (pd_Y_dd r) -> square n (pd_Z_dd r) ->
     exists p g',
       returned (pvalue_pdcov r ndraws g) = Some (p, g') /\
       1 / (1 + INR ndraws) <= p <= 1).
Proof.
  assert (Hb : forall (stat : R) (boot : list R),
             length boot = ndraws ->
             1 / (1 + INR ndraws)
             <= (1 + INR (count_above stat boot)) / (1 + INR ndraws) <= 1).
  { intros stat boot Hlen. unfold count_above.
    pose proof (length_filter (fun b => stat < b) boot) as Hle.
    rewrite Hlen in Hle. apply le_INR in Hle.
    pose proof (pos_INR (length (filter (fun b => stat < b) boot))) as H0.
    pose proof (pos_INR ndraws) as Hnd.
    set (k := INR (length (filter (fun b => stat < b) boot))) in *.
    assert (Hd : 0 < 1 + INR ndraws) by lra.
    split.
    - apply Rmult_le_compat_r; [| lra].
      left. now apply Rinv_0_lt_compat.
    - apply (Rmult_le_reg_r (1 + INR ndraws)); [exact Hd |].
      unfold Rdiv. rewrite Rmult_assoc, Rinv_l by lra. lra. }
  assert (H1 : forall (r : DcovResults) (p : R) (g' : rng),
             returned (pvalue_dcov r ndraws g) = Some (p, g') ->
             1 / (1 + INR ndraws) <= p <= 1).
  { intros r p g' H. unfold pvalue_dcov in H.
    apply returned_bind_inv in H as ([boot g1] & Hboot & H).
    rewrite returned_ret in H. inversion H; subst p g'; clear H.
    apply Hb. exact (dcov_bootstrap_length _ _ _ _ _ _ _ Hboot). }
  assert (H2 : forall (r : PdcovResults) (p : R) (g' : rng),
             returned (pvalue_pdcov r ndraws g) = Some (p, g') ->
             1 / (1 + INR ndraws) <= p <= 1).
  { intros r p g' H. unfold pvalue_pdcov in H.
    apply returned_bind_inv in H as ([boot g1] & Hboot & H).
    rewrite returned_ret in H. inversion H; subst p g'; clear H.
    apply Hb. exact (pdcovs_bootstrap_length _ _ _ _ _ _ _ Hboot). }
  split; [exact H1 | split; [exact H2 | split]].
  - intros r HX HY.
    destruct (pvalue_dcov_returns n ndraws r g HX HY)
      as (boot & g' & _ & _ & Hp).
    eexists _, g'. split; [exact Hp | exact (H1 r _ g' Hp)].
  - intros r HX HY HZ.
    destruct (pvalue_pdcov_returns n ndraws r g HX HY HZ)
      as (boot & g' & _ & _ & Hp).
    eexists _, g'. split; [exact Hp | exact (H2 r _ g' Hp)].
Qed.

(** The statement of [pvalue_bounds] at the sample [tie_results], with
    one draw, and at [line_results], with three. *)
Lemma pvalue_bounds_witness :
  (exists p g',
     returned (pvalue_dcov tie_results 1 identity_tape) = Some (p, g') /\
     1 / (1 + INR 1) <= p <= 1) /\
  (exists p g',
     returned (pvalue_pdcov line_results 3 identity_tape) = Some (p, g') /\
     1 / (1 + INR 3) <= p <= 1).
Proof.
  split.
  - apply (proj1 (proj2 (proj2 (pvalue_bounds 2 1 identity_tape)))
             tie_results).
    + split; [reflexivity | repeat constructor].
    + split; [reflexivity | repeat constructor].
  - apply (proj2 (proj2 (proj2 (pvalue_bounds 4 3 identity_tape)))
             line_results).
    + split; [reflexivity | repeat constructor].
    + split; [reflexivity | repeat constructor].
    + split; [reflexivity | repeat constructor].
Defined.

(** ** [gaussian_expectation] *)

Lemma bind_ret_l {A B} (a : A) (k : A -> py B) : bind (ret a) k = k a.
Proof. unfold bind, ret. now destruct (k a). Qed.

Lemma getitem_item (v : list R) (i : nat) :
  (i < length v)%nat -> getitem v i = ret (item v i).
Proof.
  intros H. unfold getitem, item.
  destruct (lookup_lt_is_Some_2 v i H) as [x Hx]. now rewrite Hx.
Qed.

(** A list is the list of its entries. *)
Lemma map_item_seq (l : list R) : map (item l) (seq 0 (length l)) = l.
Proof.
  induction l as [|a l IH]; [reflexivity |].
  cbn [length seq map]. rewrite <- fmap_S_seq, <- list_fmap_compose.
  change (item (a :: l) 0 :: map (item l) (seq 0 (length l)) = a :: l).
  now rewrite IH.
Qed.

Lemma zip_with_index (g : R -> R -> R) (a b : list R) :
  length a = length b ->
  zip_with g a b
  = map (fun i => g (item a i) (item b i)) (seq 0 (length a)).
Proof.
  revert b. induction a as [|x a IH]; intros [|y b] Hlen;
    try discriminate; [reflexivity |].
  cbn [length seq map zip_with].
  rewrite <- fmap_S_seq, <- list_fmap_compose.
  rewrite (IH b) by (simpl in Hlen; lia). reflexivity.
Qed.

Section GaussianExpectationFacts.

Context {P : Type}.

Lemma accumulate_scalar (call : npval -> npval) (g : R -> R)
  (nodes weights : list R) (m k : nat) (acc : R) :
  (forall v, call (Scalar v) = Scalar (g v)) ->
  (k + m <= length nodes)%nat -> length weights = length nodes ->
  for_each (accumulate call nodes weights) (seq k m) (Scalar acc)
  = ret (Scalar
           (acc + sum_list (map (fun i => item weights i * g (item nodes i))
                              (seq k m)))).
Proof.
  intros Hcall. revert k acc.
  induction m as [|m IH]; intros k acc Hk Hlen.
  - simpl. now rewrite Rplus_0_r.
  - cbn [seq for_each map]. unfold accumulate at 1.
    rewrite (getitem_item weights k) by lia. rewrite bind_ret_l.
    rewrite (getitem_item nodes k) by lia. rewrite bind_ret_l.
    rewrite Hcall. cbn [np_scale np_iadd]. rewrite bind_ret_l.
    rewrite IH by lia.
    change (sum_list (?a :: ?l)) with (a + sum_list l).
    do 2 f_equal. lra.
Qed.

Lemma elementwise_scalar (call : npval -> npval) (g : R -> R)
  (nodes weights : list R) :
  (forall v, call (Scalar v) = Scalar (g v)) ->
  nodes <> [] -> length weights = length nodes ->
  elementwise call nodes weights (length nodes)
  = ret (Scalar (sum_list (zip_with (fun xi wi => wi * g xi)
                             nodes weights))).
Proof.
  intros Hcall Hne Hlen. unfold elementwise.
  assert (Hpos : (0 < length nodes)%nat).
  { destruct nodes; [congruence | simpl; lia]. }
  rewrite (getitem_item weights 0) by lia. rewrite bind_ret_l.
  rewrite (getitem_item nodes 0) by lia. rewrite bind_ret_l.
  rewrite Hcall. cbn [np_scale].
  rewrite (accumulate_scalar call g) by (try assumption; lia).
  rewrite zip_with_index by lia.
  replace (seq 0 (length nodes)) with (0%nat :: seq 1 (length nodes - 1)).
  2:{ destruct (length nodes) as [|n']; [lia |]. simpl.
      now rewrite Nat.sub_0_r. }
  reflexivity.
Qed.

Lemma matmul_scalar (g : R -> R) (nodes weights : list R) :
  length weights = length nodes ->
  matmul (Vector (map g nodes)) weights
  = ret (Scalar (sum_list (zip_with (fun xi wi => wi * g xi)
                             nodes weights))).
Proof.
  intros Hlen. unfold matmul. rewrite length_map, <- Hlen, Nat.eqb_refl.
  unfold dot. rewrite zip_with_fmap_l. do 3 f_equal.
  apply zip_with_ext; [| reflexivity | reflexivity].
  intros; lra.
Qed.

Lemma hermite_sum_nodes (g : R -> R) (x w : list R) :
  sum_list (zip_with (fun xi wi => wi * g xi)
              (map (fun v => v * sqrt 2) x) (map (fun v => v / sqrt PI) w))
  = hermite_sum g x w.
Proof.
  unfold hermite_sum. now rewrite zip_with_fmap_l, zip_with_fmap_r.
Qed.

Lemma forallb_true_Forall {A} (t : A -> bool) (l : list A) :
  Forall (fun a => t a = true) l -> forallb t l = true.
Proof. induction 1 as [|a l Ha Hl IH]; simpl; [| rewrite Ha]; auto. Qed.

Lemma accumulate_vector (call : npval -> npval) (h : R -> list R)
  (k : nat) (nodes weights : list R) (m j : nat) (a : nat -> R) :
  (forall v, call (Scalar v) = Vector (h v) /\ length (h v) = k) ->
  (j + m <= length nodes)%nat -> length weights = length nodes ->
  for_each (accumulate call nodes weights) (seq j m)
    (Vector (map a (seq 0 k)))
  = ret (Vector
           (map (fun c =>
                   a c + sum_list
                           (map (fun i => item weights i
                                          * item (h (item nodes i)) c)
                              (seq j m)))
              (seq 0 k))).
Proof.
  intros Hcall. revert j a.
  induction m as [|m IH]; intros j a Hj Hlen.
  - simpl. do 2 f_equal. apply map_ext. intros c. lra.
  - cbn [seq for_each map]. unfold accumulate at 1.
    rewrite (getitem_item weights j) by lia. rewrite bind_ret_l.
    rewrite (getitem_item nodes j) by lia. rewrite bind_ret_l.
    destruct (Hcall (item nodes j)) as [-> Hk].
    cbn [np_scale np_iadd].
    rewrite !length_map, length_seq, Hk, Nat.eqb_refl, bind_ret_l.
    rewrite <- (map_item_seq (h (item nodes j))) at 1. rewrite Hk.
    rewrite <- list_fmap_compose, zip_with_fmap_l, zip_with_fmap_r,
      zip_with_diag.
    etransitivity;
      [apply (IH (S j) (fun c => a c + item weights j
                                       * item (h (item nodes j)) c));
       [lia | exact Hlen] |].
    do 2 f_equal. apply map_ext. intros c.
    change (sum_list (?x :: ?l)) with (x + sum_list l). simpl. lra.
Qed.

Lemma elementwise_vector (call : npval -> npval) (h : R -> list R)
  (k : nat) (nodes weights : list R) :
  (forall v, call (Scalar v) = Vector (h v) /\ length (h v) = k) ->
  nodes <> [] -> length weights = length nodes ->
  elementwise call nodes weights (length nodes)
  = ret (Vector
           (map (fun c =>
                   sum_list (zip_with (fun xi wi => wi * item (h xi) c)
                               nodes weights))
              (seq 0 k))).
Proof.
  intros Hcall Hne Hlen. unfold elementwise.
  assert (Hpos : (0 < length nodes)%nat).
  { destruct nodes; [congruence | simpl; lia]. }
  rewrite (getitem_item weights 0) by lia. rewrite bind_ret_l.
  rewrite (getitem_item nodes 0) by lia. rewrite bind_ret_l.
  destruct (Hcall (item nodes 0)) as [-> Hk]. cbn [np_scale].
  rewrite <- (map_item_seq (h (item nodes 0))) at 1. rewrite Hk.
  rewrite <- list_fmap_compose.
  etransitivity;
    [apply (accumulate_vector call h k nodes weights (length nodes - 1) 1
              (fun c => item weights 0 * item (h (item nodes 0)) c));
     [exact Hcall | lia | exact Hlen] |].
  do 2 f_equal. apply map_ext. intros c.
  rewrite zip_with_index by lia.
  replace (seq 0 (length nodes)) with (0%nat :: seq 1 (length nodes - 1)).
  2:{ destruct (length nodes) as [|n']; [lia |]. simpl.
      now rewrite Nat.sub_0_r. }
  reflexivity.
Qed.

Lemma matmul_vector (h : R -> list R) (k : nat) (nodes weights : list R) :
  length weights = length nodes ->
  matmul (Matrix (map (fun c => map (fun v => item (h v) c) nodes)
                    (seq 0 k))) weights
  = ret (Vector
           (map (fun c =>
                   sum_list (zip_with (fun xi wi => wi * item (h xi) c)
                               nodes weights))
              (seq 0 k))).
Proof.
  intros Hlen. unfold matmul. rewrite forallb_true_Forall.
  2:{ apply Forall_fmap, Forall_forall. intros c _. simpl.
      rewrite length_map, Hlen. apply Nat.eqb_refl. }
  rewrite <- list_fmap_compose. do 2 f_equal. apply map_ext. intros c.
  simpl. unfold dot. rewrite zip_with_fmap_l. f_equal.
  apply zip_with_ext; [| reflexivity | reflexivity].
  intros; lra.
Qed.

End GaussianExpectationFacts.
(** C7, as the code has it.  With caller-supplied nodes [x] and weights
    [w] of equal length, not empty, and a pointwise-consistent integrand,
    the vectorized and the element-wise evaluation return the same
    value: the weighted sum of the values of the integrand at the scaled
    nodes, a scalar for a scalar-valued integrand and a vector with the
    integrand's number of components for a vector-valued one.  If [w] is
    missing, or has another length than [x], the call aborts. *)
Theorem gaussian_expectation_vectorized_agrees {P : Type}
  (f : @callable P) (pars : option P) (n : nat) (x w : list R) :
  (x <> [] -> length w = length x ->
   (forall fs : R -> option P -> R,
      pointwise_scalar f fs ->
      gaussian_expectation f true pars n (Some x) (Some w)
      = ret (Scalar (hermite_sum (fun v => fs v pars) x w)) /\
      gaussian_expectation f false pars n (Some x) (Some w)
      = ret (Scalar (hermite_sum (fun v => fs v pars) x w))) /\
   (forall (k : nat) (fv : R -> option P -> list R),
      pointwise_vector k f fv ->
      gaussian_expectation f true pars n (Some x) (Some w)
      = ret (Vector (map (fun c =>
                            hermite_sum (fun v => item (fv v pars) c) x w)
                       (seq 0 k))) /\
      gaussian_expectation f false pars n (Some x) (Some w)
      = ret (Vector (map (fun c =>
                            hermite_sum (fun v => item (fv v pars) c) x w)
                       (seq 0 k))))) /\
  (forall vectorized : bool,
     exists msg,
       gaussian_expectation f vectorized pars n (Some x) None
       = ([], Abort msg)) /\
  (forall vectorized : bool,
     length w <> length x ->
     exists msg,
       gaussian_expectation f vectorized pars n (Some x) (Some w)
       = ([], Abort msg)).
Proof.
  split; [| split].
  - intros Hne Hlen.
    set (nodes := map (fun v => v * sqrt 2) x).
    set (weights := map (fun v => v / sqrt PI) w).
    assert (Hnodes : nodes <> []).
    { subst nodes. destruct x; [congruence | discriminate]. }
    assert (Hlen' : length weights = length nodes).
    { subst nodes weights. now rewrite !length_map. }
    assert (Hge : forall vectorized,
      gaussian_expectation f vectorized pars n (Some x) (Some w)
      = if vectorized then matmul (f (Vector nodes) pars) weights
        else elementwise (fun v => f v pars) nodes weights (length nodes)).
    { intros vectorized. unfold gaussian_expectation.
      rewrite Hlen, Nat.eqb_refl. cbn [negb]. rewrite bind_ret_l.
      cbn [fst snd]. now destruct pars, vectorized. }
    split.
    + intros fs Hf. destruct (Hf pars) as [Hs Hv].
      rewrite !Hge. split.
      * subst nodes weights. rewrite Hv.
        rewrite (matmul_scalar (fun v => fs v pars)) by exact Hlen'.
        now rewrite hermite_sum_nodes.
      * rewrite (elementwise_scalar _ (fun v => fs v pars))
          by assumption.
        subst nodes weights. now rewrite hermite_sum_nodes.
    + intros k fv Hf. destruct (Hf pars) as [Hs Hv].
      rewrite !Hge. split.
      * rewrite Hv.
        rewrite (matmul_vector (fun v => fv v pars)) by exact Hlen'.
        do 2 f_equal. apply map_ext. intros c.
        subst nodes weights.
        exact (hermite_sum_nodes (fun v => item (fv v pars) c) x w).
      * rewrite (elementwise_vector _ (fun v => fv v pars) k)
          by assumption.
        do 2 f_equal. apply map_ext. intros c.
        subst nodes weights.
        exact (hermite_sum_nodes (fun v => item (fv v pars) c) x w).
  - intros vectorized. eexists. reflexivity.
  - intros vectorized Hlen. unfold gaussian_expectation.
    apply Nat.eqb_neq in Hlen. rewrite Hlen. eexists. reflexivity.
Qed.

(** The statement of [gaussian_expectation_vectorized_agrees] for
    [x ** 2] at the nodes [[1; -1]] with the weights [[1/2; 1/2]], and at
    weights of another length. *)
Lemma gaussian_expectation_vectorized_agrees_witness :
  (gaussian_expectation square_integrand true None 16
     (Some [1; -1]) (Some [1/2; 1/2])
   = ret (Scalar (hermite_sum (fun v => v * v) [1; -1] [1/2; 1/2])) /\
   gaussian_expectation square_integrand false None 16
     (Some [1; -1]) (Some [1/2; 1/2])
   = ret (Scalar (hermite_sum (fun v => v * v) [1; -1] [1/2; 1/2]))) /\
  (exists msg,
     gaussian_expectation square_integrand true None 16
       (Some [1; -1]) (Some [1])
     = ([], Abort msg)).
Proof.
  split.
  - apply (proj1 (proj1 (gaussian_expectation_vectorized_agrees
                           square_integrand None 16 [1; -1] [1/2; 1/2])
                    ltac:(discriminate) eq_refl)
             (fun v _ => v * v)).
    intros p. split; reflexivity.
  - apply (proj2 (proj2 (gaussian_expectation_vectorized_agrees
                           square_integrand None 16 [1; -1] [1]))).
    simpl. lia.
Defined.

(** C7 fails as stated: for the empty arrays of nodes and weights, which
    have equal lengths, and the identity integrand, which is
    pointwise-consistent, the vectorized call returns [0] and the
    element-wise call raises [IndexError]. *)
Lemma gaussian_expectation_empty_nodes :
  length (@nil R) = length (@nil R) /\
  pointwise_scalar identity_integrand (fun v _ => v) /\
  gaussian_expectation identity_integrand true None 16 (Some []) (Some [])
  = ret (Scalar 0) /\
  gaussian_expectation identity_integrand false None 16 (Some []) (Some [])
  = raise "IndexError: index out of bounds".
Proof.
  split; [reflexivity | split; [| split; reflexivity]].
  intros p. split; [reflexivity |].
  intros l. unfold identity_integrand. now rewrite map_id.
Qed.

(** ** Quadrature: mirrored nodes and weights *)

Lemma item_insert (l : list R) (i j : nat) (v : R) :
  (i < length l)%nat ->
  item (<[i := v]> l) j = if decide (i = j) then v else item l j.
Proof.
  intros Hi. unfold item. destruct (decide (i = j)) as [-> | Hne].
  - now rewrite list_lookup_insert_eq.
  - now rewrite list_lookup_insert_ne.
Qed.

(** Storing [v] at [a] and [-v] at the mirror of [a] keeps the mirrored
    pairs antisymmetric. *)
Lemma antisymmetric_pairs_update (n a : nat) (v : R) (x : list R) :
  length x = n -> (a < n)%nat -> antisymmetric_pairs n x ->
  antisymmetric_pairs n (<[(n - 1 - a)%nat := - v]> (<[a := v]> x)).
Proof.
  intros Hlen Ha Hx i Hi Hne.
  rewrite !item_insert by (rewrite ?length_insert; lia).
  repeat destruct (decide _); try lia; try lra.
  now apply Hx.
Qed.

(** Storing a weight at [a] and copying it to the mirror of [a] keeps the
    weights symmetric. *)
Lemma symmetric_update (n a : nat) (c : R) (w : list R) :
  length w = n -> (a < n)%nat -> symmetric n w ->
  symmetric n (<[(n - 1 - a)%nat := item (<[a := c]> w) a]> (<[a := c]> w)).
Proof.
  intros Hlen Ha Hw i Hi.
  rewrite !item_insert by (rewrite ?length_insert; lia).
  repeat destruct (decide _); try lia; try lra.
  now apply Hw.
Qed.

Lemma item_replicate_0 (n i : nat) : item (replicate n 0) i = 0.
Proof.
  unfold item. destruct (replicate n 0 !! i) as [v|] eqn:Hv; [| reflexivity].
  apply lookup_replicate in Hv. simpl. tauto.
Qed.

Lemma item_reverse (x : list R) (i : nat) :
  (i < length x)%nat -> item (reverse x) i = item x (length x - 1 - i).
Proof.
  intros Hi. unfold item. rewrite reverse_lookup by exact Hi.
  now replace (length x - S i)%nat with (length x - 1 - i)%nat by lia.
Qed.

Lemma mirrored_zeros (n : nat) : mirrored n (replicate n 0) (replicate n 0).
Proof.
  repeat split; try apply length_replicate.
  - intros i _ _. rewrite !item_replicate_0. lra.
  - intros i _. now rewrite !item_replicate_0.
Qed.

Lemma gauher_iter_eq (n : nat) (s : gauher_state) (i : nat) :
  gauher_iter n s i
  = let r := newton_for n (seq 0 MAXIT)
               (mk_newton (initial_guess n i (g_z s) (g_x s)) 0 0) in
    let w := <[i := 2 / (cur_pp r * cur_pp r)]> (g_w s) in
    ret (mk_gauher (cur_z r)
           (<[(n - 1 - i)%nat := - cur_z r]> (<[i := cur_z r]> (g_x s)))
           (<[(n - 1 - i)%nat := item w i]> w)).
Proof.
  unfold gauher_iter.
  pose proof (newton_for_its_lt_MAXIT n
    (mk_newton (initial_guess n i (g_z s) (g_x s)) 0 0)) as Hlt.
  apply Nat.leb_gt in Hlt. rewrite Hlt. reflexivity.
Qed.

Lemma for_each_invariant {S : Type} (I : S -> Prop)
  (body : S -> nat -> py S) (range : list nat) (s : S) :
  (forall s i, i ∈ range -> I s -> exists s', body s i = ret s' /\ I s') ->
  I s ->
  exists s', for_each body range s = ret s' /\ I s'.
Proof.
  revert s. induction range as [|i rest IH]; intros s Hbody Hs.
  - exists s. split; [reflexivity | exact Hs].
  - destruct (Hbody s i (list_elem_of_here _ _) Hs) as (s1 & H1 & HI1).
    destruct (IH s1) as (s2 & H2 & HI2); [| exact HI1 |].
    { intros s' j Hj. apply Hbody. now apply list_elem_of_further. }
    exists s2. split; [| exact HI2].
    cbn [for_each]. rewrite H1, bind_ret_l. exact H2.
Qed.

Lemma gauher_mirrored (n : nat) :
  exists x w, gauher n = ret (x, w) /\ mirrored n x w.
Proof.
  unfold gauher.
  destruct (for_each_invariant
              (fun s => mirrored n (g_x s) (g_w s))
              (gauher_iter n) (seq 0 ((n + 1) / 2))
              (mk_gauher 0 (replicate n 0) (replicate n 0)))
    as (s & Hs & Hlx & Hlw & Hx & Hw).
  - intros s i Hi%list_elem_of_In%in_seq (Hlx & Hlw & Hx & Hw).
    assert (Hin : (i < n)%nat).
    { assert ((n + 1) / 2 * 2 <= n + 1)%nat
        by (rewrite Nat.mul_comm; apply Nat.Div0.mul_div_le).
      lia. }
    rewrite gauher_iter_eq. cbv zeta. eexists. split; [reflexivity |].
    cbn [g_x g_w]. repeat split.
    + now rewrite !length_insert.
    + now rewrite !length_insert.
    + now apply antisymmetric_pairs_update.
    + now apply symmetric_update.
  - apply mirrored_zeros.
  - exists (reverse (g_x s)), (g_w s). rewrite Hs, bind_ret_l.
    split; [reflexivity |].
    repeat split; [now rewrite length_reverse | exact Hlw | | exact Hw].
    intros i Hi Hne.
    rewrite !item_reverse by lia. rewrite Hlx.
    replace (n - 1 - (n - 1 - i))%nat with i by lia.
    rewrite (Hx (n - 1 - i)%nat) by lia.
    replace (n - 1 - (n - 1 - i))%nat with i by lia. lra.
Qed.




(** *** [gauleg(2)]: the loop ends *)













(** ** Newton steps and powers *)





Lemma float_pow_pos (x y : R) : 0 < x -> float_pow x y = Rpower x y.
Proof. intros H. unfold float_pow. now rewrite bool_decide_eq_true_2. Qed.

(** ** Enclosures of polynomials by intervals *)












(** ** The Newton step of [gauher], without square roots *)









(** ** [gauher(9)]: the middle node *)













(** * Further properties of the code *)

(** ** [npexp], entry by entry *)

Lemma foldr_Rmax_ge (x : R) (xs : list R) :
  x <= foldr Rmax x xs /\ Forall (fun v => v <= foldr Rmax x xs) xs.
Proof.
  induction xs as [|y ys [IH1 IH2]]; simpl.
  - split; [lra | constructor].
  - split.
    + eapply Rle_trans; [exact IH1 | apply Rmax_r].
    + constructor; [apply Rmax_l |].
      eapply Forall_impl; [exact IH2 |].
      intros v Hv; simpl in Hv. eapply Rle_trans; [exact Hv | apply Rmax_r].
Qed.

(** [np.max] returns an upper bound of every entry. *)
Lemma np_max_upper (a : ndarray) (i : nat) (v : R) :
  data a !! i = Some v ->
  exists mx, np_max a = ret mx /\ v <= mx.
Proof.
  unfold np_max. destruct (data a) as [|x xs]; [discriminate |].
  intros Hi. eexists; split; [reflexivity |].
  destruct (foldr_Rmax_ge x xs) as [H1 H2].
  destruct i as [|i]; simpl in Hi.
  - now inversion Hi; subst.
  - rewrite Forall_lookup in H2. exact (H2 i v Hi).
Qed.

Lemma lookup_where_lt (a : ndarray) (bound : R) (x y : ndarray) (i : nat)
  (v xv yv : R) :
  data a !! i = Some v -> data x !! i = Some xv -> data y !! i = Some yv ->
  data (where_lt a bound x y) !! i
  = Some (if bool_decide (v < bound) then xv else yv).
Proof.
  intros Ha Hx Hy. unfold where_lt; simpl.
  rewrite lookup_zip_with, list_lookup_fmap, Ha. simpl.
  rewrite (lookup_zip_with pair), Hx. simpl. rewrite Hy. reflexivity.
Qed.

Lemma lookup_azip (f : R -> R -> R) (a b : ndarray) (i : nat) (x y : R) :
  data a !! i = Some x -> data b !! i = Some y ->
  data (azip f a b) !! i = Some (f x y).
Proof.
  intros Ha Hb. unfold azip; simpl.
  now rewrite lookup_zip_with, Ha; simpl; rewrite Hb.
Qed.

Lemma returned_print (e : event) : returned (print e) = Some tt.
Proof. reflexivity. Qed.

Lemma deriv_in_012 (deriv : Z) :
  (0 <= deriv <= 2)%Z -> deriv_not_in_012 deriv = false.
Proof.
  intros H. assert (Hd : deriv = 0%Z \/ deriv = 1%Z \/ deriv = 2%Z) by lia.
  destruct Hd as [-> | [-> | ->]]; reflexivity.
Qed.

Arguments amap : simpl never.
Arguments azip : simpl never.
Arguments where_gt : simpl never.
Arguments where_lt : simpl never.

Lemma npexp_value_inside (bigx lowx a : R) :
  lowx <= a -> a <= bigx ->
  npexp_value bigx lowx a = exp a /\ npexp_slope bigx lowx a = exp a /\
  Rmax (Rmin a bigx) lowx = a.
Proof.
  intros H1 H2. unfold npexp_value, npexp_slope.
  rewrite !(bool_decide_eq_false_2 (a < lowx)) by lra.
  rewrite !(bool_decide_eq_false_2 (bigx < a)) by lra.
  repeat split. rewrite Rmin_left, Rmax_left by lra. reflexivity.
Qed.

(** X1.  At every position, [npexp] returns [exp a] for an entry [a]
    between [lowx] and [bigx], and the second-order expansion of [exp]
    around [bigx] (resp. [lowx]) for an entry above [bigx] (resp. below
    [lowx]); the first derivative, returned when [deriv >= 1], is the
    derivative of that value, and the second one, returned when
    [deriv = 2], is the exponential of the entry clipped to
    [[lowx, bigx]]. *)
Theorem npexp_elementwise (arr : ndarray) (bigx lowx : R) (deriv : Z)
  (verbose : bool) (i : nat) (a : R) :
  (0 <= deriv <= 2)%Z -> data arr !! i = Some a ->
  entry (npexp arr bigx lowx deriv verbose) 0 i
  = Some (npexp_value bigx lowx a) /\
  ((1 <= deriv)%Z ->
   entry (npexp arr bigx lowx deriv verbose) 1 i
   = Some (npexp_slope bigx lowx a)) /\
  (deriv = 2%Z ->
   entry (npexp arr bigx lowx deriv verbose) 2 i
   = Some (exp (Rmax (Rmin a bigx) lowx))).
Proof.
  intros Hderiv Hi.
  destruct (np_min_lower arr i a Hi) as (mn & Hmin & Hle).
  destruct (np_max_upper arr i a Hi) as (mx & Hmax & Hge).
  assert (Hd : deriv = 0%Z \/ deriv = 1%Z \/ deriv = 2%Z) by lia.
  unfold entry, npexp. cbv zeta.
  rewrite (returned_bind_Some _ _ tt)
    by (now rewrite (deriv_in_012 _ Hderiv)).
  rewrite (returned_bind_Some _ _ mn) by (now rewrite Hmin).
  rewrite (returned_bind_Some _ _ mx) by (now rewrite Hmax).
  destruct (bool_decide (mx <= bigx) && bool_decide (mn >= lowx)) eqn:Hin.
  - apply andb_true_iff in Hin as [H1%bool_decide_eq_true H2%bool_decide_eq_true].
    destruct (npexp_value_inside bigx lowx a) as (Hv & Hs & Hc); [lra | lra |].
    rewrite Hv, Hs, Hc.
    destruct Hd as [-> | [-> | ->]]; simpl;
      rewrite ?list_lookup_fmap, ?Hi; repeat split; intros; try lia; reflexivity.
  - rewrite (returned_bind_Some _ _ tt) by reflexivity.
    rewrite (returned_bind_Some _ _ tt) by (now destruct verbose).
    rewrite (returned_bind_Some _ _ tt) by reflexivity.
    set (exparr := amap (fun a0 => exp (Rmax (Rmin a0 bigx) lowx)) arr).
    assert (Hexp : data exparr !! i = Some (exp (Rmax (Rmin a bigx) lowx))).
    { unfold exparr. now rewrite lookup_amap, Hi. }
    assert (Hval :
      data (where_lt arr lowx
              (amap (fun d => exp lowx * (1 - d * (1 - 0.5 * d)))
                 (amap (fun a0 => lowx - a0) arr))
              (where_gt arr bigx
                 (amap (fun d => exp bigx * (1 + d * (1 + 0.5 * d)))
                    (amap (fun a0 => a0 - bigx) arr)) exparr)) !! i
      = Some (npexp_value bigx lowx a)).
    { erewrite lookup_where_lt; [| exact Hi | |].
      2:{ rewrite !lookup_amap, Hi. reflexivity. }
      2:{ erewrite lookup_where_gt; [| exact Hi | | exact Hexp].
          2:{ rewrite !lookup_amap, Hi. reflexivity. }
          reflexivity. }
      unfold npexp_value. f_equal.
      destruct (decide (a < lowx)) as [Hl | Hl].
      { now rewrite !(bool_decide_eq_true_2 _ Hl). }
      rewrite !(bool_decide_eq_false_2 _ Hl).
      destruct (decide (bigx < a)) as [Hb | Hb].
      - now rewrite !(bool_decide_eq_true_2 _ Hb).
      - rewrite !(bool_decide_eq_false_2 _ Hb).
        now rewrite Rmin_left, Rmax_left by lra. }
    assert (Hder :
      data (where_lt arr lowx
              (amap (fun d => exp lowx * (1 - d))
                 (amap (fun a0 => lowx - a0) arr))
              (where_gt arr bigx
                 (amap (fun d => exp bigx * (1 + d))
                    (amap (fun a0 => a0 - bigx) arr)) exparr)) !! i
      = Some (npexp_slope bigx lowx a)).
    { erewrite lookup_where_lt; [| exact Hi | |].
      2:{ rewrite !lookup_amap, Hi. reflexivity. }
      2:{ erewrite lookup_where_gt; [| exact Hi | | exact Hexp].
          2:{ rewrite !lookup_amap, Hi. reflexivity. }
          reflexivity. }
      unfold npexp_slope. f_equal.
      destruct (decide (a < lowx)) as [Hl | Hl].
      { now rewrite !(bool_decide_eq_true_2 _ Hl). }
      rewrite !(bool_decide_eq_false_2 _ Hl).
      destruct (decide (bigx < a)) as [Hb | Hb].
      - now rewrite !(bool_decide_eq_true_2 _ Hb).
      - rewrite !(bool_decide_eq_false_2 _ Hb).
        now rewrite Rmin_left, Rmax_left by lra. }
    destruct Hd as [-> | [-> | ->]]; cbn [Z.eqb Pos.eqb];
      rewrite returned_ret;
      cbn [mbind option_bind components lookup list_lookup];
      repeat split; intros; try lia; try discriminate; assumption.
Qed.

(** The statement of [npexp_elementwise] on the array [[60]] with the
    bounds [50] and [-50], asking for the first derivative. *)
Lemma npexp_elementwise_witness :
  entry (npexp (mk_ndarray [1%nat] [60]) 50 (-50) 1 false) 0 0
  = Some (npexp_value 50 (-50) 60) /\
  ((1 <= 1)%Z ->
   entry (npexp (mk_ndarray [1%nat] [60]) 50 (-50) 1 false) 1 0
   = Some (npexp_slope 50 (-50) 60)) /\
  (1%Z = 2%Z ->
   entry (npexp (mk_ndarray [1%nat] [60]) 50 (-50) 1 false) 2 0
   = Some (exp (Rmax (Rmin 60 50) (-50)))).
Proof.
  apply (npexp_elementwise (mk_ndarray [1%nat] [60]) 50 (-50) 1 false 0 60).
  - lia.
  - reflexivity.
Defined.

(** ** The derivatives [nplog] returns *)

Lemma lookup_np_full (arr : ndarray) (v : R) (i : nat) (a : R) :
  well_formed arr -> data arr !! i = Some a ->
  data (np_full (shape arr) v) !! i = Some v.
Proof.
  intros Hwf Hi. unfold np_full; simpl.
  apply lookup_replicate_2. apply lookup_lt_Some in Hi.
  unfold well_formed, size_of in Hwf. lia.
Qed.

(** X2.  With [deriv >= 1], [nplog] returns as first derivative [1 / a]
    at an entry [a] above [eps] and [(2 - a / eps) / eps] at an entry
    not above [eps]; with [deriv = 2] it returns as second derivative
    [-1 / a^2] above [eps] and the constant [-1 / eps^2] elsewhere. *)
Theorem nplog_derivatives (arr : ndarray) (eps : R) (deriv : Z)
  (verbose : bool) (i : nat) (a : R) :
  well_formed arr -> 0 < eps -> (1 <= deriv <= 2)%Z ->
  data arr !! i = Some a ->
  entry (nplog arr eps deriv verbose) 1 i = Some (nplog_slope eps a) /\
  (deriv = 2%Z ->
   entry (nplog arr eps deriv verbose) 2 i = Some (nplog_curvature eps a)).
Proof.
  intros Hwf Heps Hderiv Hi.
  destruct (np_min_lower arr i a Hi) as (mn & Hmin & Hle).
  assert (Hd : deriv = 1%Z \/ deriv = 2%Z) by lia.
  unfold entry, nplog. cbv zeta.
  rewrite (returned_bind_Some _ _ tt)
    by (rewrite deriv_in_012 by lia; reflexivity).
  rewrite (returned_bind_Some _ _ mn) by (now rewrite Hmin).
  destruct (decide (eps < mn)) as [Hmn | Hmn].
  - rewrite (bool_decide_eq_true_2 _ Hmn).
    unfold nplog_slope, nplog_curvature.
    rewrite !(bool_decide_eq_true_2 (eps < a)) by lra.
    destruct Hd as [-> | ->]; cbn [Z.eqb Pos.eqb];
      rewrite returned_ret;
      cbn [mbind option_bind components lookup list_lookup];
      rewrite !lookup_amap, Hi; split; intros; try lia; try discriminate;
      reflexivity.
  - rewrite (bool_decide_eq_false_2 _ Hmn).
    rewrite (returned_bind_Some _ _ (ln eps))
      by (now rewrite (math_log_pos eps Heps)).
    rewrite (returned_bind_Some _ _ tt)
      by (destruct verbose; [destruct (0 <? _)%nat |]; reflexivity).
    set (arreps := amap (fun a0 => Rmax a0 eps) arr).
    assert (Hder :
      data (where_gt arr eps (amap (fun a0 => 1 / a0) arreps)
              (amap (fun d => (1 + d) / eps)
                 (amap (fun a0 => 1 - a0 / eps) arr))) !! i
      = Some (nplog_slope eps a)).
    { erewrite lookup_where_gt; [| exact Hi | |].
      2:{ unfold arreps. rewrite !lookup_amap, Hi. reflexivity. }
      2:{ rewrite !lookup_amap, Hi. reflexivity. }
      unfold nplog_slope. f_equal.
      destruct (decide (eps < a)) as [Ha | Ha].
      - rewrite !(bool_decide_eq_true_2 _ Ha). now rewrite Rmax_left by lra.
      - now rewrite !(bool_decide_eq_false_2 _ Ha). }
    assert (Hder2 :
      data (where_gt arr eps (amap (fun a0 => - 1 / (a0 * a0)) arreps)
              (np_full (shape arr) (- 1 / (eps * eps)))) !! i
      = Some (nplog_curvature eps a)).
    { erewrite lookup_where_gt; [| exact Hi | |].
      2:{ unfold arreps. rewrite !lookup_amap, Hi. reflexivity. }
      2:{ exact (lookup_np_full arr _ i a Hwf Hi). }
      unfold nplog_curvature. f_equal.
      destruct (decide (eps < a)) as [Ha | Ha].
      - rewrite !(bool_decide_eq_true_2 _ Ha). now rewrite Rmax_left by lra.
      - now rewrite !(bool_decide_eq_false_2 _ Ha). }
    destruct Hd as [-> | ->]; cbn [Z.eqb Pos.eqb];
      rewrite returned_ret;
      cbn [mbind option_bind components lookup list_lookup];
      split; intros; try lia; try discriminate; assumption.
Qed.

(** The statement of [nplog_derivatives] on the array [[1; 1/4]] with
    [eps = 1/2], at the entry below [eps]. *)
Lemma nplog_derivatives_witness :
  entry (nplog (mk_ndarray [2%nat] [1; 1/4]) (1/2) 2 false) 1 1
  = Some (nplog_slope (1/2) (1/4)) /\
  (2%Z = 2%Z ->
   entry (nplog (mk_ndarray [2%nat] [1; 1/4]) (1/2) 2 false) 2 1
   = Some (nplog_curvature (1/2) (1/4))).
Proof.
  apply (nplog_derivatives (mk_ndarray [2%nat] [1; 1/4]) (1/2) 2 false 1
           (1/4)).
  - reflexivity.
  - lra.
  - lia.
  - reflexivity.
Defined.

(** ** [npxlogx], entry by entry *)

(** X3.  At every position [npxlogx] returns [a * ln a] for an entry [a]
    above [eps] and [a * (a / eps + ln eps - 1)] for an entry not above
    [eps].  When some entry of the array is not above [eps], the first
    derivative, returned for [deriv >= 1], is [1 + ln a] above [eps] and
    [ln eps + a / eps] elsewhere, and the second one, returned for
    [deriv = 2], is [1 / max a eps].  When every entry is above [eps]
    the call returns the bare array of values, whatever [deriv]. *)
Theorem npxlogx_elementwise (arr : ndarray) (eps : R) (deriv : Z)
  (verbose : bool) (i : nat) (a : R) :
  0 < eps -> (0 <= deriv <= 2)%Z -> data arr !! i = Some a ->
  entry (npxlogx arr eps deriv verbose) 0 i = Some (npxlogx_value eps a) /\
  (forall (j : nat) (b : R),
     data arr !! j = Some b -> b <= eps ->
     ((1 <= deriv)%Z ->
      entry (npxlogx arr eps deriv verbose) 1 i
      = Some (npxlogx_slope eps a)) /\
     (deriv = 2%Z ->
      entry (npxlogx arr eps deriv verbose) 2 i
      = Some (npxlogx_curvature eps a))) /\
  (Forall (fun b => eps < b) (data arr) ->
   returned (npxlogx arr eps deriv verbose)
   = Some (PArray (azip Rmult arr (np_log arr)))).
Proof.
  intros Heps Hderiv Hi.
  destruct (np_min_lower arr i a Hi) as (mn & Hmin & Hle).
  assert (Hd : deriv = 0%Z \/ deriv = 1%Z \/ deriv = 2%Z) by lia.
  assert (Hdirect :
    data (azip Rmult arr (np_log arr)) !! i = Some (a * ln a)).
  { apply lookup_azip; [exact Hi |].
    unfold np_log. now rewrite lookup_amap, Hi. }
  assert (Hrun : forall k,
    entry (npxlogx arr eps deriv verbose) k i
    = if bool_decide (eps < mn)
      then match k with
           | 0%nat => Some (a * ln a)
           | _ => None
           end
      else match k with
           | 0%nat => Some (npxlogx_value eps a)
           | 1%nat => if (1 <=? deriv)%Z then Some (npxlogx_slope eps a)
                      else None
           | 2%nat => if (deriv =? 2)%Z then Some (npxlogx_curvature eps a)
                      else None
           | _ => None
           end).
  { intros k. unfold entry, npxlogx. cbv zeta.
    rewrite (returned_bind_Some _ _ tt)
      by (now rewrite (deriv_in_012 _ Hderiv)).
    rewrite (returned_bind_Some _ _ mn) by (now rewrite Hmin).
    destruct (decide (eps < mn)) as [Hmn | Hmn].
    - rewrite !(bool_decide_eq_true_2 _ Hmn). rewrite returned_ret.
      cbn [mbind option_bind components].
      destruct k as [|k]; cbn [lookup list_lookup mbind option_bind];
        [exact Hdirect | reflexivity].
    - rewrite !(bool_decide_eq_false_2 _ Hmn).
      rewrite (returned_bind_Some _ _ (ln eps))
        by (now rewrite (math_log_pos eps Heps)).
      rewrite (returned_bind_Some _ _ tt)
        by (destruct verbose; [destruct (0 <? _)%nat |]; reflexivity).
      set (logarreps := np_log (amap (fun a0 => Rmax a0 eps) arr)).
      assert (Hlog : data logarreps !! i = Some (ln (Rmax a eps))).
      { unfold logarreps, np_log. now rewrite !lookup_amap, Hi. }
      assert (Hval :
        data (where_gt arr eps (azip Rmult arr logarreps)
                (amap (fun a0 => a0 * (a0 / eps + ln eps - 1)) arr)) !! i
        = Some (npxlogx_value eps a)).
      { erewrite lookup_where_gt; [| exact Hi | |].
        2:{ exact (lookup_azip Rmult _ _ _ _ _ Hi Hlog). }
        2:{ rewrite lookup_amap, Hi. reflexivity. }
        unfold npxlogx_value. f_equal.
        destruct (decide (eps < a)) as [Ha | Ha].
        - rewrite !(bool_decide_eq_true_2 _ Ha). now rewrite Rmax_left by lra.
        - now rewrite !(bool_decide_eq_false_2 _ Ha). }
      assert (Hder :
        data (where_gt arr eps (amap (fun l => 1 + l) logarreps)
                (amap (fun a0 => ln eps + a0 / eps) arr)) !! i
        = Some (npxlogx_slope eps a)).
      { erewrite lookup_where_gt; [| exact Hi | |].
        2:{ rewrite lookup_amap, Hlog. reflexivity. }
        2:{ rewrite lookup_amap, Hi. reflexivity. }
        unfold npxlogx_slope. f_equal.
        destruct (decide (eps < a)) as [Ha | Ha].
        - rewrite !(bool_decide_eq_true_2 _ Ha). now rewrite Rmax_left by lra.
        - now rewrite !(bool_decide_eq_false_2 _ Ha). }
      assert (Hder2 :
        data (amap (fun a0 => 1 / Rmax a0 eps) arr) !! i
        = Some (npxlogx_curvature eps a)).
      { now rewrite lookup_amap, Hi. }
      destruct Hd as [-> | [-> | ->]]; cbn [Z.eqb Pos.eqb Z.leb Z.compare
                                             Pos.compare Pos.compare_cont];
        rewrite returned_ret; cbn [mbind option_bind components];
        (destruct k as [|[|[|k]]];
         cbn [lookup list_lookup mbind option_bind];
         rewrite ?lookup_nil; try assumption; reflexivity). }
  split; [| split].
  - rewrite Hrun. destruct (decide (eps < mn)) as [Hmn | Hmn].
    + rewrite (bool_decide_eq_true_2 _ Hmn). unfold npxlogx_value.
      now rewrite bool_decide_eq_true_2 by lra.
    + now rewrite (bool_decide_eq_false_2 _ Hmn).
  - intros j b Hj Hb.
    destruct (np_min_lower arr j b Hj) as (mn' & Hmin' & Hle').
    assert (mn' = mn) by (rewrite Hmin in Hmin'; now inversion Hmin').
    subst mn'.
    rewrite !Hrun, !bool_decide_eq_false_2 by lra. split.
    + intros H1. now rewrite (proj2 (Z.leb_le 1 deriv) H1).
    + now intros ->.
  - intros Hall. unfold npxlogx.
    rewrite (returned_bind_Some _ _ tt)
      by (now rewrite (deriv_in_012 _ Hderiv)).
    rewrite (returned_bind_Some _ _ mn) by (now rewrite Hmin).
    rewrite bool_decide_eq_true_2; [reflexivity |].
    unfold np_min in Hmin. destruct (data arr) as [|x xs]; [discriminate |].
    inversion Hmin; subst mn. clear - Hall.
    inversion Hall as [|? ? Hx Hxs]; subst. clear Hall.
    induction Hxs as [|y ys Hy Hys IH]; simpl; [exact Hx |].
    now apply Rmin_glb_lt.
Qed.

(** The statement of [npxlogx_elementwise] on the array [[1; 1/4]] with
    [eps = 1/2], at the entry below [eps]. *)
Lemma npxlogx_elementwise_witness :
  entry (npxlogx (mk_ndarray [2%nat] [1; 1/4]) (1/2) 2 false) 0 1
  = Some (npxlogx_value (1/2) (1/4)) /\
  (forall (j : nat) (b : R),
     data (mk_ndarray [2%nat] [1; 1/4]) !! j = Some b -> b <= 1/2 ->
     ((1 <= 2)%Z ->
      entry (npxlogx (mk_ndarray [2%nat] [1; 1/4]) (1/2) 2 false) 1 1
      = Some (npxlogx_slope (1/2) (1/4))) /\
     (2%Z = 2%Z ->
      entry (npxlogx (mk_ndarray [2%nat] [1; 1/4]) (1/2) 2 false) 2 1
      = Some (npxlogx_curvature (1/2) (1/4)))) /\
  (Forall (fun b => 1/2 < b) (data (mk_ndarray [2%nat] [1; 1/4])) ->
   returned (npxlogx (mk_ndarray [2%nat] [1; 1/4]) (1/2) 2 false)
   = Some (PArray (azip Rmult (mk_ndarray [2%nat] [1; 1/4])
                     (np_log (mk_ndarray [2%nat] [1; 1/4]))))).
Proof.
  apply (npxlogx_elementwise (mk_ndarray [2%nat] [1; 1/4]) (1/2) 2 false 1
           (1/4)).
  - lra.
  - lia.
  - reflexivity.
Defined.

(** ** [nppow]: derivatives and array exponents *)

Lemma foldr_Rmin_nonneg (x : R) (xs : list R) :
  0 <= x -> Forall (fun v => 0 <= v) xs -> 0 <= foldr Rmin x xs.
Proof.
  intros Hx Hxs. induction Hxs as [|y ys Hy Hys IH]; simpl; [exact Hx |].
  apply Rmin_glb; assumption.
Qed.

Lemma nppow_check_passes (a : ndarray) (b : exponent) (i : nat) (x : R) :
  is_scalar b -> accepted_base b a -> data a !! i = Some x ->
  returned (match b with
            | BFloat _ =>
                mina <- np_min a ;;
                if bool_decide (mina < 0)
                then bs_error_abort "All elements of a must be positive!"
                else ret tt
            | _ => ret tt
            end) = Some tt.
Proof.
  intros Hb Hacc Hi. destruct b as [z | r | b']; [reflexivity | | destruct Hb].
  simpl in Hacc. unfold np_min.
  destruct (data a) as [|y ys]; [discriminate |].
  inversion Hacc as [|? ? Hy Hys]; subst.
  rewrite (returned_bind_Some _ _ (foldr Rmin y ys)) by reflexivity.
  rewrite bool_decide_eq_false_2; [reflexivity |].
  pose proof (foldr_Rmin_nonneg y ys Hy Hys). lra.
Qed.

(** X4.  With a scalar exponent [b] and an array that passes the sign
    check, [nppow] returns, at a positive entry [x] with [p = x ** b]:
    for [deriv = 1] three arrays, holding [p], [b * p / x] and
    [p * ln x]; for [deriv = 2] six arrays, those three followed by
    [b * (b - 1) * (p / x) / x], [(p / x) * (1 + b * ln x)] and
    [p * ln x * ln x].  Nothing is said of an entry that is not
    positive, where [np.log] and the division have no finite value. *)
Theorem nppow_scalar_derivatives (a : ndarray) (b : exponent) (deriv : Z)
  (i : nat) (x : R) :
  is_scalar b -> accepted_base b a -> (1 <= deriv <= 2)%Z ->
  data a !! i = Some x -> 0 < x ->
  let p := scalar_power b x in
  let bv := exponent_value b in
  entry (nppow a b deriv) 0 i = Some p /\
  entry (nppow a b deriv) 1 i = Some (bv * p / x) /\
  entry (nppow a b deriv) 2 i = Some (p * ln x) /\
  (deriv = 1%Z -> entry (nppow a b deriv) 3 i = None) /\
  (deriv = 2%Z ->
   entry (nppow a b deriv) 3 i = Some (bv * (bv - 1) * (p / x) / x) /\
   entry (nppow a b deriv) 4 i = Some (p / x * (1 + bv * ln x)) /\
   entry (nppow a b deriv) 5 i = Some (p * ln x * ln x) /\
   entry (nppow a b deriv) 6 i = None).
Proof.
  intros Hb Hacc Hderiv Hi Hpos p bv.
  pose proof (nppow_check_passes a b i x Hb Hacc Hi) as Hchk.
  assert (Hd : deriv = 1%Z \/ deriv = 2%Z) by lia.
  assert (Hp : data (amap (scalar_power b) a) !! i = Some p).
  { now rewrite lookup_amap, Hi. }
  assert (Hln : data (np_log a) !! i = Some (ln x)).
  { unfold np_log. now rewrite lookup_amap, Hi. }
  assert (Hrun : forall k,
    entry (nppow a b deriv) k i
    = arr ← (amap (scalar_power b) a
             :: [azip Rdiv (amap (fun q => bv * q) (amap (scalar_power b) a)) a;
                 azip Rmult (amap (scalar_power b) a) (np_log a)]
             ++ (if (deriv =? 2)%Z then
                   [azip Rdiv
                      (amap (fun q => bv * (bv - 1) * q)
                         (azip Rdiv (amap (scalar_power b) a) a)) a;
                    azip Rmult (azip Rdiv (amap (scalar_power b) a) a)
                      (amap (fun l => 1 + bv * l) (np_log a));
                    azip Rmult (azip Rmult (amap (scalar_power b) a) (np_log a))
                      (np_log a)]
                 else [])) !! k;
      data arr !! i).
  { intros k. unfold entry, nppow.
    rewrite (returned_bind_Some _ _ tt) by exact Hchk.
    destruct b as [z | r | b']; [| | destruct Hb];
      destruct Hd as [-> | ->]; reflexivity. }
  assert (H1 : data (azip Rdiv (amap (fun q => bv * q)
                                  (amap (scalar_power b) a)) a) !! i
               = Some (bv * p / x)).
  { apply lookup_azip; [| exact Hi]. now rewrite lookup_amap, Hp. }
  assert (H2 : data (azip Rmult (amap (scalar_power b) a) (np_log a)) !! i
               = Some (p * ln x)).
  { now apply lookup_azip. }
  assert (Hq : data (azip Rdiv (amap (scalar_power b) a) a) !! i
               = Some (p / x)).
  { now apply lookup_azip. }
  split; [rewrite Hrun; exact Hp |].
  split; [rewrite Hrun; exact H1 |].
  split; [rewrite Hrun; exact H2 |].
  split; [intros ->; rewrite Hrun; reflexivity |].
  intros ->. rewrite !Hrun. cbn [Z.eqb Pos.eqb app lookup list_lookup].
  cbn [mbind option_bind].
  split; [| split; [| split; [| reflexivity]]].
  - apply lookup_azip; [| exact Hi]. now rewrite lookup_amap, Hq.
  - apply lookup_azip; [exact Hq |]. now rewrite lookup_amap, Hln.
  - apply lookup_azip; [exact H2 | exact Hln].
Qed.

(** The statement of [nppow_scalar_derivatives] for [[2; 3] ** 2.0] with
    both derivatives, at the second entry. *)
Lemma nppow_scalar_derivatives_witness :
  let p := scalar_power (BFloat 2) 3 in
  let bv := exponent_value (BFloat 2) in
  entry (nppow (mk_ndarray [2%nat] [2; 3]) (BFloat 2) 2) 0 1 = Some p /\
  entry (nppow (mk_ndarray [2%nat] [2; 3]) (BFloat 2) 2) 1 1 = Some (bv * p / 3) /\
  entry (nppow (mk_ndarray [2%nat] [2; 3]) (BFloat 2) 2) 2 1 = Some (p * ln 3) /\
  (2%Z = 1%Z -> entry (nppow (mk_ndarray [2%nat] [2; 3]) (BFloat 2) 2) 3 1 = None) /\
  (2%Z = 2%Z ->
   entry (nppow (mk_ndarray [2%nat] [2; 3]) (BFloat 2) 2) 3 1 = Some (bv * (bv - 1) * (p / 3) / 3) /\
   entry (nppow (mk_ndarray [2%nat] [2; 3]) (BFloat 2) 2) 4 1 = Some (p / 3 * (1 + bv * ln 3)) /\
   entry (nppow (mk_ndarray [2%nat] [2; 3]) (BFloat 2) 2) 5 1 = Some (p * ln 3 * ln 3) /\
   entry (nppow (mk_ndarray [2%nat] [2; 3]) (BFloat 2) 2) 6 1 = None).
Proof.
  apply (nppow_scalar_derivatives (mk_ndarray [2%nat] [2; 3]) (BFloat 2) 2 1
           3).
  - exact I.
  - repeat constructor; simpl; lra.
  - lia.
  - reflexivity.
  - lra.
Defined.

(** [nplog] without derivative: a bare array, entry by entry. *)
Lemma nplog_values (arr : ndarray) (eps : R) (verbose : bool) (i0 : nat)
  (a0 : R) :
  0 < eps -> data arr !! i0 = Some a0 ->
  exists val,
    returned (nplog arr eps 0 verbose) = Some (PArray val) /\
    forall i a, data arr !! i = Some a ->
                data val !! i = Some (nplog_value eps a).
Proof.
  intros Heps Hi0.
  destruct (np_min_lower arr i0 a0 Hi0) as (mn & Hmin & _).
  unfold nplog. cbv zeta.
  rewrite (returned_bind_Some _ _ tt) by reflexivity.
  rewrite (returned_bind_Some _ _ mn) by (now rewrite Hmin).
  destruct (decide (eps < mn)) as [Hmn | Hmn].
  - rewrite (bool_decide_eq_true_2 _ Hmn). cbn [Z.eqb].
    eexists; split; [reflexivity |]. intros i a Hi.
    destruct (np_min_lower arr i a Hi) as (mn' & Hmin' & Hle).
    assert (mn' = mn) by (rewrite Hmin in Hmin'; now inversion Hmin').
    subst mn'. unfold np_log, nplog_value.
    rewrite lookup_amap, Hi, bool_decide_eq_true_2 by lra. reflexivity.
  - rewrite (bool_decide_eq_false_2 _ Hmn).
    rewrite (returned_bind_Some _ _ (ln eps))
      by (now rewrite (math_log_pos eps Heps)).
    rewrite (returned_bind_Some _ _ tt)
      by (destruct verbose; [destruct (0 <? _)%nat |]; reflexivity).
    cbn [Z.eqb]. eexists; split; [reflexivity |]. intros i a Hi.
    erewrite lookup_where_gt; [| exact Hi | |].
    2:{ unfold np_log. rewrite !lookup_amap, Hi. reflexivity. }
    2:{ rewrite !lookup_amap, Hi. reflexivity. }
    unfold nplog_value. f_equal.
    destruct (decide (eps < a)) as [Ha | Ha].
    + rewrite !(bool_decide_eq_true_2 _ Ha). now rewrite Rmax_left by lra.
    + now rewrite !(bool_decide_eq_false_2 _ Ha).
Qed.

(** X5.  With an array exponent [b], [nppow] aborts when the shapes of
    [a] and [b] differ.  When they agree it returns for [deriv = 0] a
    bare array with the shape of [a], holding the power [x ** y] at
    every positive entry [x]; for [deriv = 1] three arrays of that
    shape holding there [x ** y], [x ** y * y / x] and [x ** y * l],
    where [l] is [ln x] extended below [1e-30] as [nplog] does; and
    with [deriv >= 1] an empty array raises the [ValueError] of
    [np.min].  No sign is checked with an array exponent, and nothing
    is said of the entries that are not positive. *)
Theorem nppow_array_exponent (a b : ndarray) (deriv : Z) :
  (shape a <> shape b ->
   nppow a (BArray b) deriv
   = ([], Abort "b is not a number or an array of the same shape as a!")) /\
  (shape a = shape b ->
   (exists r,
      returned (nppow a (BArray b) 0) = Some (PArray r) /\
      shape r = shape a /\
      forall i x y, data a !! i = Some x -> data b !! i = Some y ->
                    0 < x -> data r !! i = Some (Rpower x y)) /\
   (data a <> [] ->
    exists r da db,
      returned (nppow a (BArray b) 1) = Some (PTuple [r; da; db]) /\
      shape r = shape a /\ shape da = shape a /\ shape db = shape a /\
      forall i x y, data a !! i = Some x -> data b !! i = Some y ->
                    0 < x ->
                    data r !! i = Some (Rpower x y) /\
                    data da !! i = Some (Rpower x y * y / x) /\
                    data db !! i
                    = Some (Rpower x y * nplog_value 1e-30 x)) /\
   (data a = [] -> (1 <= deriv <= 2)%Z ->
    exists exc, snd (nppow a (BArray b) deriv) = Raise exc)).
Proof.
  split.
  - intros Hne. unfold nppow.
    rewrite (bool_decide_eq_false_2 _ Hne). reflexivity.
  - intros Heq.
    assert (Hpow : forall i x y,
              data a !! i = Some x -> data b !! i = Some y ->
              data (azip float_pow (ravel a) (ravel b)) !! i
              = Some (float_pow x y)).
    { intros i x y Hx Hy. now apply lookup_azip. }
    split; [| split].
    + unfold nppow. rewrite (bool_decide_eq_true_2 _ Heq).
      eexists; split; [reflexivity |]. split; [reflexivity |].
      intros i x y Hx Hy Hpos. rewrite <- (float_pow_pos x y Hpos).
      exact (Hpow i x y Hx Hy).
    + intros Hne.
      destruct (data a) as [|a0 rest] eqn:Ha; [congruence |]. clear Hne.
      destruct (nplog_values (ravel a) 1e-30 false 0 a0)
        as (lg & Hlg & Hent); [lra | simpl; now rewrite Ha |].
      unfold nppow. cbv zeta. rewrite (bool_decide_eq_true_2 _ Heq).
      rewrite (returned_bind_Some _ _ tt) by reflexivity.
      rewrite (returned_bind_Some _ _ tt) by reflexivity.
      cbn [Z.eqb].
      rewrite (returned_bind_Some _ _ (PArray lg)) by exact Hlg.
      cbn [Z.eqb Pos.eqb].
      do 3 eexists. split; [reflexivity |].
      split; [reflexivity |]. split; [reflexivity |].
      split; [reflexivity |].
      intros i x y Hx Hy Hpos. rewrite <- (float_pow_pos x y Hpos).
      pose proof (Hpow i x y Hx Hy) as Hp. rewrite <- Ha in Hx.
      split; [exact Hp | split].
      * cbn [reshape data]. apply lookup_azip; [| exact Hx].
        now apply lookup_azip.
      * cbn [reshape data]. apply lookup_azip; [exact Hp |].
        apply Hent. exact Hx.
    + intros Hnil Hderiv. unfold nppow.
      rewrite (bool_decide_eq_true_2 _ Heq).
      assert (Hd : deriv = 1%Z \/ deriv = 2%Z) by lia.
      assert (Hraise : exists exc, nplog (ravel a) 1e-30 0 false
                                   = ([], Raise exc)).
      { unfold nplog, np_min. simpl. rewrite Hnil. eexists. reflexivity. }
      destruct Hraise as [exc Hexc].
      exists exc. destruct Hd as [-> | ->]; cbn [Z.eqb Pos.eqb]; cbv zeta;
        rewrite Hexc; reflexivity.
Qed.

(** The statement of [nppow_array_exponent] for [[2; 3] ** [2; 1]] with
    the first derivatives. *)
Lemma nppow_array_exponent_witness :
  exists r da db,
    returned (nppow (mk_ndarray [2%nat] [2; 3])
                (BArray (mk_ndarray [2%nat] [2; 1])) 1)
    = Some (PTuple [r; da; db]) /\
    shape r = [2%nat] /\ shape da = [2%nat] /\ shape db = [2%nat] /\
    forall i x y,
      [2; 3] !! i = Some x -> [2; 1] !! i = Some y -> 0 < x ->
      data r !! i = Some (Rpower x y) /\
      data da !! i = Some (Rpower x y * y / x) /\
      data db !! i = Some (Rpower x y * nplog_value 1e-30 x).
Proof.
  apply (proj1 (proj2 (proj2 (nppow_array_exponent
                                (mk_ndarray [2%nat] [2; 3])
                                (mk_ndarray [2%nat] [2; 1]) 1)
                         eq_refl))).
  discriminate.
Defined.

(** ** Products of decentered arrays *)

Lemma sum_list_nonneg (l : list R) :
  Forall (fun v => 0 <= v) l -> 0 <= sum_list l.
Proof.
  induction 1 as [|v l Hv Hl IH]; unfold sum_list in *; simpl; lra.
Qed.

Lemma zip_with_comm {A B : Type} (f : A -> A -> B) (l1 l2 : list A) :
  (forall x y, f x y = f y x) -> zip_with f l1 l2 = zip_with f l2 l1.
Proof.
  intros Hf. revert l2. induction l1 as [|x l1 IH]; intros [|y l2];
    simpl; try reflexivity. now rewrite Hf, IH.
Qed.



(** ** [_double_decenter]: fixed points and entries *)

Lemma zip_with_replicate_r {A B : Type} (f : A -> B -> A) (l : list A)
  (b : B) :
  (forall a, f a b = a) -> zip_with f l (replicate (length l) b) = l.
Proof.
  intros Hf. induction l as [|a l IH]; simpl; [reflexivity |].
  now rewrite Hf, IH.
Qed.

Lemma sum_list_replicate_0 (n : nat) : sum_list (replicate n 0) = 0.
Proof.
  induction n as [|n IH]; [reflexivity |].
  cbn [replicate]. change (0 + sum_list (replicate n 0) = 0).
  rewrite IH. lra.
Qed.

(** X7.  The biased double decentering leaves unchanged every square
    array whose row sums and column sums are all zero: decentering an
    array that is already doubly decentered gives it back. *)
Theorem double_decenter_fixed_point (n : nat) (A : matrix) :
  square n A ->
  np_sum_axis1 A = replicate n 0 -> np_sum_axis0 A = replicate n 0 ->
  _double_decenter A false = ret A.
Proof.
  intros Hsq Hrows0 Hcols0. pose proof Hsq as [Hn Hrows].
  unfold _double_decenter. rewrite (test_square_square n A _ Hsq).
  rewrite bind_ret_l. cbv zeta. f_equal.
  rewrite Hcols0, Hrows0, sum_list_replicate_0.
  rewrite <- Hn at 1.
  assert (Hrow : forall row : list R, row ∈ A ->
            zip_with (fun a a1 => a - a1 / IZR (Z.of_nat n) - 0 / IZR (Z.of_nat n)
                                  + 0 / IZR (Z.of_nat n * Z.of_nat n))
              row (replicate n 0) = row).
  { intros row Hin. rewrite Forall_forall in Hrows.
    rewrite <- (Hrows row Hin).
    apply zip_with_replicate_r. intros a. unfold Rdiv. ring. }
  clear Hrows0 Hcols0.
  assert (Hgen : forall (B : matrix),
            (forall row, row ∈ B -> row ∈ A) ->
            zip_with
              (fun (row : list R) (a2 : R) =>
                 zip_with (fun a a1 => a - a1 / IZR (Z.of_nat n)
                                       - a2 / IZR (Z.of_nat n)
                                       + 0 / IZR (Z.of_nat n * Z.of_nat n))
                   row (replicate n 0))
              B (replicate (length B) 0) = B).
  { induction B as [|row B IH]; intros Hsub; [reflexivity |].
    cbn [length replicate zip_with]. rewrite Hrow by (apply Hsub; left).
    f_equal. apply IH. intros r Hr. apply Hsub. now right. }
  apply Hgen. auto.
Qed.

Lemma tie_matrix_sums :
  np_sum_axis1 tie_matrix = replicate 2 0 /\
  np_sum_axis0 tie_matrix = replicate 2 0.
Proof.
  unfold np_sum_axis1, np_sum_axis0, tie_matrix, sum_list, item. simpl.
  split; repeat (f_equal; try lra).
Qed.

(** The statement of [double_decenter_fixed_point] on the decentered
    distances of the sample [[0; 1]]. *)
Lemma double_decenter_fixed_point_witness :
  _double_decenter tie_matrix false = ret tie_matrix.
Proof.
  apply (double_decenter_fixed_point 2 tie_matrix).
  - split; [reflexivity | repeat constructor].
  - exact (proj1 tie_matrix_sums).
  - exact (proj2 tie_matrix_sums).
Defined.

Lemma square_row (n : nat) (A : matrix) (i : nat) :
  square n A -> (i < n)%nat ->
  exists row, A !! i = Some row /\ length row = n.
Proof.
  intros [Hn Hrows] Hi.
  destruct (lookup_lt_is_Some_2 A i) as [row Hrow]; [lia |].
  exists row. split; [exact Hrow |].
  rewrite Forall_lookup in Hrows. exact (Hrows i row Hrow).
Qed.

Lemma column_by_index (n : nat) (A : matrix) (j : nat) :
  length A = n ->
  map (fun row => item row j) A = map (fun k => entry2 A k j) (seq 0 n).
Proof.
  intros <-. apply list_eq. intros k.
  rewrite !list_lookup_fmap. unfold entry2, matrix in *.
  destruct (A !! k) as [row|] eqn:Hk.
  - rewrite lookup_seq_lt by (apply lookup_lt_Some in Hk; lia). simpl.
    now rewrite Hk.
  - rewrite lookup_seq_ge; [reflexivity |]. apply lookup_ge_None in Hk. lia.
Qed.

Lemma row_by_index (n : nat) (A : matrix) (i : nat) (row : list R) :
  A !! i = Some row -> length row = n ->
  row = map (fun k => entry2 A i k) (seq 0 n).
Proof.
  intros Hi <-. apply list_eq. intros k.
  rewrite list_lookup_fmap. unfold entry2, item. rewrite Hi. simpl.
  destruct (row !! k) as [v|] eqn:Hk.
  - rewrite lookup_seq_lt by (apply lookup_lt_Some in Hk; lia). simpl.
    now rewrite Hk.
  - rewrite lookup_seq_ge; [reflexivity |]. apply lookup_ge_None in Hk. lia.
Qed.

(** In a symmetric array the sum of row [i] is the sum of column [i]. *)
Lemma symmetric_sums (n : nat) (A : matrix) (i : nat) :
  square n A -> symmetric_matrix n A -> (i < n)%nat ->
  item (np_sum_axis1 A) i = item (np_sum_axis0 A) i.
Proof.
  intros Hsq Hsym Hi. pose proof Hsq as [Hn _].
  destruct (square_row n A i Hsq Hi) as (row & Hrow & Hlen).
  assert (Hl : item (np_sum_axis1 A) i = sum_list row).
  { unfold np_sum_axis1, item, matrix in *.
    now rewrite list_lookup_fmap, Hrow. }
  rewrite Hl. unfold np_sum_axis0.
  rewrite (square_ncols n A Hsq), item_map_seq by exact Hi.
  rewrite (column_by_index n A i Hn).
  rewrite (row_by_index n A i row Hrow Hlen) at 1.
  apply sum_list_map_ext. apply Forall_forall.
  intros k Hk%list_elem_of_In%in_seq. apply Hsym; lia.
Qed.

(** The entries of the doubly decentered array. *)
Lemma double_decenter_entries (n : nat) (A : matrix) (unbiased : bool) :
  square n A ->
  exists A_dd,
    _double_decenter A unbiased = ret A_dd /\
    square n A_dd /\
    forall i j, (i < n)%nat -> (j < n)%nat ->
      entry2 A_dd i j
      = if unbiased && (i =? j)%nat then 0
        else
          let fac2 := if unbiased then (Z.of_nat n - 2)%Z else Z.of_nat n in
          let fac1 := if unbiased then (Z.of_nat n - 1)%Z else Z.of_nat n in
          entry2 A i j - item (np_sum_axis0 A) j / IZR fac2
          - item (np_sum_axis1 A) i / IZR fac2
          + sum_list (np_sum_axis0 A) / IZR (fac1 * fac2).
Proof.
  intros Hsq. pose proof Hsq as [Hn Hrows].
  unfold _double_decenter. rewrite (test_square_square n A _ Hsq).
  rewrite bind_ret_l. cbv zeta.
  set (fac2 := if unbiased then (Z.of_nat n - 2)%Z else Z.of_nat n).
  set (fac1 := if unbiased then (Z.of_nat n - 1)%Z else Z.of_nat n).
  set (A_1 := np_sum_axis0 A). set (A_2 := np_sum_axis1 A).
  set (g := fun a2 a a1 : R =>
              a - a1 / IZR fac2 - a2 / IZR fac2
              + sum_list A_1 / IZR (fac1 * fac2)).
  set (D := zip_with (fun (row : list R) (a2 : R) => zip_with (g a2) row A_1)
              A A_2).
  assert (HA1 : length A_1 = n).
  { subst A_1. unfold np_sum_axis0.
    now rewrite length_map, length_seq, (square_ncols n A Hsq). }
  assert (HA2 : length A_2 = n).
  { subst A_2. unfold np_sum_axis1. now rewrite length_map. }
  assert (HD : forall i, (i < n)%nat ->
             exists row, A !! i = Some row /\ length row = n /\
                         D !! i = Some (zip_with (g (item A_2 i)) row A_1)).
  { intros i Hi. destruct (square_row n A i Hsq Hi) as (row & Hrow & Hlen).
    exists row. split; [exact Hrow | split; [exact Hlen |]].
    subst D. rewrite lookup_zip_with. unfold matrix in *. rewrite Hrow. simpl.
    destruct (lookup_lt_is_Some_2 A_2 i) as [a2 Ha2]; [lia |].
    unfold item. rewrite Ha2. reflexivity. }
  assert (HsqD : square n D).
  { split.
    - subst D. rewrite length_zip_with. lia.
    - apply Forall_lookup. intros i r Hr.
      assert (Hi : (i < n)%nat).
      { apply lookup_lt_Some in Hr. subst D.
        rewrite length_zip_with in Hr. lia. }
      destruct (HD i Hi) as (row & _ & Hlen & HDi).
      unfold matrix in *. rewrite HDi in Hr. inversion Hr; subst r.
      rewrite length_zip_with. lia. }
  assert (HentD : forall i j, (i < n)%nat -> (j < n)%nat ->
             entry2 D i j
             = g (item A_2 i) (entry2 A i j) (item A_1 j)).
  { intros i j Hi Hj. destruct (HD i Hi) as (row & Hrow & Hlen & HDi).
    unfold entry2, matrix in *. rewrite HDi, Hrow. simpl.
    apply item_zip_with; lia. }
  destruct unbiased.
  - exists (fill_diagonal_zeros D). split; [reflexivity |]. split.
    + destruct HsqD as [HlD HrD]. split.
      * unfold fill_diagonal_zeros. now rewrite length_imap.
      * apply Forall_lookup. intros i r Hr.
        unfold fill_diagonal_zeros in Hr.
        rewrite list_lookup_imap in Hr.
        destruct (D !! i) as [r0|] eqn:Hr0; [| discriminate].
        simpl in Hr. inversion Hr; subst r.
        rewrite length_insert. rewrite Forall_lookup in HrD.
        exact (HrD i r0 Hr0).
    + intros i j Hi Hj. cbn [andb].
      destruct (HD i Hi) as (row & Hrow & Hlen & HDi).
      assert (Hf : entry2 (fill_diagonal_zeros D) i j
                   = item (<[i := 0]> (zip_with (g (item A_2 i)) row A_1)) j).
      { unfold entry2, fill_diagonal_zeros, matrix in *.
        now rewrite list_lookup_imap, HDi. }
      rewrite Hf, item_insert by (rewrite length_zip_with; lia).
      destruct (Nat.eqb_spec i j) as [-> | Hne].
      * now rewrite decide_True.
      * rewrite decide_False by exact Hne.
        transitivity (g (item A_2 i) (entry2 A i j) (item A_1 j));
          [| reflexivity].
        rewrite <- (HentD i j Hi Hj).
        unfold entry2, matrix in *. now rewrite HDi.
  - exists D. split; [reflexivity |]. split; [exact HsqD |].
    intros i j Hi Hj. cbn [andb]. exact (HentD i j Hi Hj).
Qed.

(** X8.  Double decentering takes a symmetric square array, such as an
    array of distances, to a symmetric square array of the same size;
    with [unbiased] the diagonal of the result is zero.  With
    [unbiased] the size is at least 3: the unbiased formula divides by
    [n - 2] and by [(n - 1) * (n - 2)]. *)
Theorem double_decenter_symmetric (n : nat) (A : matrix) (unbiased : bool) :
  square n A -> symmetric_matrix n A ->
  (unbiased = true -> (3 <= n)%nat) ->
  exists A_dd,
    _double_decenter A unbiased = ret A_dd /\
    square n A_dd /\
    symmetric_matrix n A_dd /\
    (unbiased = true -> forall i, (i < n)%nat -> entry2 A_dd i i = 0).
Proof.
  intros Hsq Hsym Hsize.
  destruct (double_decenter_entries n A unbiased Hsq)
    as (A_dd & Hret & Hsq' & Hent).
  exists A_dd. split; [exact Hret | split; [exact Hsq' | split]].
  - intros i j Hi Hj. rewrite (Hent i j Hi Hj), (Hent j i Hj Hi).
    rewrite (Nat.eqb_sym j i).
    destruct (unbiased && (i =? j)%nat); [reflexivity |]. cbv zeta.
    rewrite (Hsym i j Hi Hj).
    rewrite (symmetric_sums n A i Hsq Hsym Hi).
    rewrite (symmetric_sums n A j Hsq Hsym Hj). lra.
  - intros -> i Hi. rewrite (Hent i i Hi Hi), Nat.eqb_refl. reflexivity.
Qed.

(** The statement of [double_decenter_symmetric] on the distances of
    the sample [[0; 2; 3]], with the unbiased formula. *)
Lemma double_decenter_symmetric_witness :
  exists A_dd,
    _double_decenter [[0; 2; 3]; [2; 0; 1]; [3; 1; 0]] true = ret A_dd /\
    square 3 A_dd /\
    symmetric_matrix 3 A_dd /\
    (true = true -> forall i, (i < 3)%nat -> entry2 A_dd i i = 0).
Proof.
  apply (double_decenter_symmetric 3 [[0; 2; 3]; [2; 0; 1]; [3; 1; 0]] true).
  - split; [reflexivity | repeat constructor].
  - intros [|[|[|i]]] [|[|[|j]]] Hi Hj; try lia; reflexivity.
  - intros _. lia.
Defined.

(** ** Padding with zeros *)

(** X9.  [nppad_end_zeros] and [nppad_beg_zeros] return, for a 1-d array
    of size [nv] and a requested size [n], a 1-d array of size
    [max nv n]: the array itself followed (resp. preceded) by zeros.
    Padding the result again to the same size changes nothing, and an
    array that is not 1-d makes both abort. *)
Theorem nppad_zeros (v : npval) (n : Z) :
  (forall l, v = Vector l ->
     exists re rb,
       nppad_end_zeros v n = ret (Vector re) /\
       nppad_beg_zeros v n = ret (Vector rb) /\
       Z.of_nat (length re) = Z.max (Z.of_nat (length l)) n /\
       length rb = length re /\
       re = l ++ replicate (length re - length l) 0 /\
       rb = replicate (length rb - length l) 0 ++ l /\
       nppad_end_zeros (Vector re) n = ret (Vector re) /\
       nppad_beg_zeros (Vector rb) n = ret (Vector rb)) /\
  (ndim v <> 1%nat ->
   (exists msg, nppad_end_zeros v n = ([], Abort msg)) /\
   (exists msg, nppad_beg_zeros v n = ([], Abort msg))).
Proof.
  split.
  - intros l ->. unfold nppad_end_zeros, nppad_beg_zeros, test_vector.
    cbn [ndim Nat.eqb negb np_size flat]. rewrite !bind_ret_l.
    destruct (Z.ltb_spec (Z.of_nat (length l)) n) as [Hlt | Hge].
    + set (k := Z.to_nat (n - Z.of_nat (length l))).
      exists (l ++ np_zeros k), (np_zeros k ++ l).
      assert (Hk : Z.of_nat k = (n - Z.of_nat (length l))%Z)
        by (subst k; lia).
      unfold np_zeros. rewrite !length_app, !length_replicate.
      split; [reflexivity |]. split; [reflexivity |].
      split; [lia |]. split; [lia |].
      replace (length l + k - length l)%nat with k by lia.
      replace (k + length l - length l)%nat with k by lia.
      split; [reflexivity |]. split; [reflexivity |].
      unfold nppad_end_zeros, nppad_beg_zeros, test_vector.
      cbn [ndim Nat.eqb negb np_size flat]. rewrite !bind_ret_l.
      rewrite ?length_app, ?length_replicate.
      assert (Hno : (Z.of_nat (length l + k) <? n)%Z = false)
        by (apply Z.ltb_ge; lia).
      assert (Hno' : (Z.of_nat (k + length l) <? n)%Z = false)
        by (apply Z.ltb_ge; lia).
      now rewrite Hno, Hno'.
    + exists l, l. split; [reflexivity |]. split; [reflexivity |].
      split; [lia |]. split; [reflexivity |].
      rewrite Nat.sub_diag. cbn [replicate]. rewrite app_nil_r.
      split; [reflexivity |]. split; [reflexivity |].
      unfold nppad_end_zeros, nppad_beg_zeros, test_vector.
      cbn [ndim Nat.eqb negb np_size flat]. rewrite !bind_ret_l.
      assert (Hno : (Z.of_nat (length l) <? n)%Z = false)
        by (apply Z.ltb_ge; lia).
      now rewrite Hno.
  - intros Hnd. unfold nppad_end_zeros, nppad_beg_zeros, test_vector.
    destruct v as [r | l | a]; cbn [ndim] in *; try congruence;
      split; eexists; reflexivity.
Qed.

(** The statement of [nppad_zeros] for the array [[1; 2]] padded to the
    size [4]. *)
Lemma nppad_zeros_witness :
  exists re rb,
    nppad_end_zeros (Vector [1; 2]) 4 = ret (Vector re) /\
    nppad_beg_zeros (Vector [1; 2]) 4 = ret (Vector rb) /\
    Z.of_nat (length re) = Z.max (Z.of_nat (length [1; 2])) 4 /\
    length rb = length re /\
    re = [1; 2] ++ replicate (length re - length [1; 2]) 0 /\
    rb = replicate (length rb - length [1; 2]) 0 ++ [1; 2] /\
    nppad_end_zeros (Vector re) 4 = ret (Vector re) /\
    nppad_beg_zeros (Vector rb) 4 = ret (Vector rb).
Proof.
  apply (proj1 (nppad_zeros (Vector [1; 2]) 4) [1; 2]). reflexivity.
Defined.

Lemma zip_with_replicate_l {A B C : Type} (f : A -> B -> C) (z : A)
  (l : list B) (M : nat) :
  (length l <= M)%nat -> zip_with f (replicate M z) l = map (f z) l.
Proof.
  revert M. induction l as [|b l IH]; intros M HM.
  - now destruct M.
  - destruct M as [|M]; simpl in HM; [lia |].
    cbn [replicate zip_with map]. f_equal. apply IH. lia.
Qed.

(** Writing an array into the upper left corner of an array of zeros. *)
Lemma set_block_zeros (a : matrix) (nc M N : nat) :
  Forall (fun row => length row = nc) a ->
  (length a <= M)%nat -> (nc <= N)%nat ->
  set_block (np_zeros2 M N) a
  = map (fun row => row ++ replicate (N - nc) 0) a
    ++ replicate (M - length a) (replicate N 0).
Proof.
  intros Hrows HM HN. unfold set_block, np_zeros2, np_zeros.
  rewrite zip_with_replicate_l by exact HM.
  rewrite drop_replicate. f_equal.
  apply map_ext_Forall. eapply Forall_impl; [exact Hrows |].
  intros row Hrow. simpl in Hrow. simpl.
  now rewrite drop_replicate, Hrow.
Qed.

(** What [nppad2_end_zeros] returns on a 2-d array. *)
Lemma nppad2_end_zeros_returns (a : matrix) (m n : Z) :
  rectangular a ->
  let M := Z.to_nat (Z.max m (Z.of_nat (nrows a))) in
  let N := Z.to_nat (Z.max n (Z.of_nat (ncols a))) in
  nppad2_end_zeros (Matrix a) m n = ret (Matrix (padded a M N)) /\
  length (padded a M N) = M /\
  Forall (fun row => length row = N) (padded a M N).
Proof.
  intros Hrect M N.
  assert (HM : (nrows a <= M)%nat) by (subst M; lia).
  assert (HN : (ncols a <= N)%nat) by (subst N; lia).
  split; [| split].
  + unfold nppad2_end_zeros, test_matrix.
    cbn [ndim Nat.eqb negb np_shape rows_of]. rewrite !bind_ret_l.
    cbv zeta. unfold item_nat.
    cbn [lookup list_lookup default from_option Datatypes.id].
    unfold padded, nrows in *.
    destruct (Z.ltb_spec (Z.of_nat (length a))
                (Z.max m (Z.of_nat (length a)))) as [Hr | Hr];
      destruct (Z.ltb_spec (Z.of_nat (ncols a))
                  (Z.max n (Z.of_nat (ncols a)))) as [Hc | Hc];
      cbn [andb].
    * rewrite (set_block_zeros a (ncols a)); [| exact Hrect | unfold nrows in *; lia | lia].
      subst M N. unfold nrows.
      replace (Z.to_nat (Z.max m (Z.of_nat (length a)))) with (Z.to_nat m)
        by (unfold nrows in *; lia).
      replace (Z.to_nat (Z.max n (Z.of_nat (ncols a)))) with (Z.to_nat n)
        by lia.
      reflexivity.
    * rewrite (set_block_zeros a (ncols a)); [| exact Hrect | unfold nrows in *; lia | lia].
      subst M N. unfold nrows.
      replace (Z.to_nat (Z.max m (Z.of_nat (length a)))) with (Z.to_nat m)
        by (unfold nrows in *; lia).
      replace (Z.to_nat (Z.max n (Z.of_nat (ncols a))))
        with (Z.to_nat (Z.of_nat (ncols a))) by lia.
      reflexivity.
    * rewrite (set_block_zeros a (ncols a)); [| exact Hrect | unfold nrows in *; lia | lia].
      subst M N. unfold nrows.
      replace (Z.to_nat (Z.max m (Z.of_nat (length a))))
        with (Z.to_nat (Z.of_nat (length a))) by (unfold nrows in *; lia).
      replace (Z.to_nat (Z.max n (Z.of_nat (ncols a)))) with (Z.to_nat n)
        by lia.
      reflexivity.
    * subst M N. unfold nrows in *.
      replace (Z.to_nat (Z.max m (Z.of_nat (length a)))) with (length a)
        by lia.
      replace (Z.to_nat (Z.max n (Z.of_nat (ncols a)))) with (ncols a)
        by lia.
      rewrite !Nat.sub_diag. cbn [replicate]. rewrite app_nil_r.
      do 2 f_equal. symmetry. rewrite <- (map_id a) at 2.
      apply map_ext. intros row. now rewrite app_nil_r.
  + unfold padded. rewrite length_app, length_map, length_replicate.
    unfold nrows in *. lia.
  + unfold padded. apply Forall_app. split.
    * apply Forall_fmap. eapply Forall_impl; [exact Hrect |].
      intros row Hrow. simpl in Hrow. simpl.
      rewrite length_app, length_replicate. lia.
    * apply Forall_replicate. apply length_replicate.
Qed.

(** X10.  For a 2-d array of shape [(nrows, ncols)], [nppad2_end_zeros]
    returns the array padded with zeros at the end of its rows and
    below them, of shape [(max m nrows, max n ncols)]: the entries of
    the array keep their place and every other entry is zero.  An array
    that is not 2-d makes the call abort. *)
Theorem nppad2_end_zeros_padded (mat : npval) (m n : Z) :
  (forall a, mat = Matrix a -> rectangular a ->
     let M := Z.to_nat (Z.max m (Z.of_nat (nrows a))) in
     let N := Z.to_nat (Z.max n (Z.of_nat (ncols a))) in
     nppad2_end_zeros mat m n = ret (Matrix (padded a M N)) /\
     length (padded a M N) = M /\
     Forall (fun row => length row = N) (padded a M N)) /\
  (ndim mat <> 2%nat ->
   exists msg, nppad2_end_zeros mat m n = ([], Abort msg)).
Proof.
  split.
  - intros a -> Hrect. exact (nppad2_end_zeros_returns a m n Hrect).
  - intros Hnd. unfold nppad2_end_zeros, test_matrix.
    destruct mat as [r | l | a]; cbn [ndim] in *; try congruence;
      eexists; reflexivity.
Qed.

(** The statement of [nppad2_end_zeros_padded] for a 2 by 2 array
    padded to 3 rows and 4 columns. *)
Lemma nppad2_end_zeros_padded_witness :
  let M := Z.to_nat (Z.max 3 (Z.of_nat (nrows [[0; 1]; [2; 3]]))) in
  let N := Z.to_nat (Z.max 4 (Z.of_nat (ncols [[0; 1]; [2; 3]]))) in
  nppad2_end_zeros (Matrix [[0; 1]; [2; 3]]) 3 4
  = ret (Matrix (padded [[0; 1]; [2; 3]] M N)) /\
  length (padded [[0; 1]; [2; 3]] M N) = M /\
  Forall (fun row => length row = N) (padded [[0; 1]; [2; 3]] M N).
Proof.
  apply (proj1 (nppad2_end_zeros_padded (Matrix [[0; 1]; [2; 3]]) 3 4)
           [[0; 1]; [2; 3]]).
  - reflexivity.
  - repeat constructor.
Defined.

(** ** Grids *)

Lemma lookup_concat_uniform (n : nat) (ls : list (list R)) (i j : nat) :
  Forall (fun l => length l = n) ls -> (j < n)%nat ->
  concat ls !! (i * n + j)%nat = ls !! i ≫= (fun l => l !! j).
Proof.
  intros Hls Hj. revert i. induction Hls as [|l ls Hl Hls IH]; intros i.
  - now rewrite lookup_nil.
  - cbn [concat]. destruct i as [|i].
    + cbn. rewrite lookup_app_l by lia. reflexivity.
    + rewrite lookup_app_r by (rewrite Hl; lia).
      replace (S i * n + j - length l)%nat with (i * n + j)%nat
        by (rewrite Hl; lia).
      exact (IH i).
Qed.

Lemma length_concat_uniform (n : nat) (ls : list (list R)) :
  Forall (fun l => length l = n) ls ->
  length (concat ls) = (length ls * n)%nat.
Proof.
  induction 1 as [|l ls Hl Hls IH]; [reflexivity |].
  cbn [concat length]. rewrite length_app, IH, Hl. lia.
Qed.

Lemma lookup_np_repeat (v : list R) (n i j : nat) :
  (j < n)%nat -> np_repeat v n !! (i * n + j)%nat = v !! i.
Proof.
  intros Hj. unfold np_repeat.
  rewrite (lookup_concat_uniform n) by
    (try exact Hj; apply Forall_fmap, Forall_forall; intros x _;
     apply length_replicate).
  rewrite list_lookup_fmap. destruct (v !! i) as [x|]; [| reflexivity].
  simpl. now apply lookup_replicate_2.
Qed.

Lemma length_np_repeat (v : list R) (n : nat) :
  length (np_repeat v n) = (length v * n)%nat.
Proof.
  unfold np_repeat. rewrite (length_concat_uniform n), length_map.
  - reflexivity.
  - apply Forall_fmap, Forall_forall. intros x _. apply length_replicate.
Qed.

Lemma lookup_np_tile (w : list R) (m i j : nat) :
  (i < m)%nat -> (j < length w)%nat ->
  np_tile w m !! (i * length w + j)%nat = w !! j.
Proof.
  intros Hi Hj. unfold np_tile.
  rewrite (lookup_concat_uniform (length w)) by
    (try exact Hj; now apply Forall_replicate).
  now rewrite lookup_replicate_2 by exact Hi.
Qed.

Lemma length_np_tile (w : list R) (m : nat) :
  length (np_tile w m) = (m * length w)%nat.
Proof.
  unfold np_tile. rewrite (length_concat_uniform (length w)).
  - now rewrite length_replicate.
  - now apply Forall_replicate.
Qed.

Lemma item_lookup (l : list R) (i : nat) (x : R) :
  l !! i = Some x -> item l i = x.
Proof. intros H. unfold item. now rewrite H. Qed.

Lemma item_in_range (l : list R) (i : nat) :
  (i < length l)%nat -> l !! i = Some (item l i).
Proof.
  intros H. destruct (lookup_lt_is_Some_2 l i H) as [x Hx].
  now rewrite (item_lookup l i x Hx).
Qed.

(** [np.column_stack] of two 1-d arrays of one length. *)
Lemma column_stack_pair (c1 c2 : list R) :
  length c1 = length c2 ->
  column_stack [c1; c2]
  = ret (map (fun i => [item c1 i; item c2 i]) (seq 0 (length c1))).
Proof.
  intros H. unfold column_stack. cbn [same_length].
  now rewrite H, Nat.eqb_refl.
Qed.

(** The rows of the grid of two 1-d arrays. *)
Lemma grid_rows (lv lw : list R) (i j : nat) :
  (i < length lv)%nat -> (j < length lw)%nat ->
  map (fun k => [item (np_repeat lv (length lw)) k;
                 item (np_tile lw (length lv)) k])
    (seq 0 (length (np_repeat lv (length lw))))
  !! (i * length lw + j)%nat
  = Some [item lv i; item lw j].
Proof.
  intros Hi Hj.
  assert (Hk : (i * length lw + j < length lv * length lw)%nat) by nia.
  rewrite list_lookup_fmap, length_np_repeat, lookup_seq_lt by exact Hk.
  cbn [fmap option_fmap option_map Nat.add]. do 2 f_equal.
  - apply item_lookup. rewrite lookup_np_repeat by exact Hj.
    now apply item_in_range.
  - f_equal. apply item_lookup. rewrite lookup_np_tile by assumption.
    now apply item_in_range.
Qed.

(** X11.  For 1-d arrays [v] of size [m] and [w] of size [n], [bsgrid]
    returns an array of [m * n] rows of two entries, all the pairs in
    lexicographic order: row [i * n + j] is [(v[i], w[j])].  If [v] or
    [w] is not 1-d the call aborts. *)
Theorem bsgrid_pairs (v w : npval) :
  (forall lv lw, v = Vector lv -> w = Vector lw ->
     exists g,
       bsgrid v w = ret g /\
       length g = (length lv * length lw)%nat /\
       forall i j, (i < length lv)%nat -> (j < length lw)%nat ->
                   g !! (i * length lw + j)%nat
                   = Some [item lv i; item lw j]) /\
  (ndim v <> 1%nat \/ ndim w <> 1%nat ->
   exists msg, bsgrid v w = ([], Abort msg)).
Proof.
  split.
  - intros lv lw -> ->. unfold bsgrid, test_vector.
    cbn [ndim Nat.eqb negb np_size flat]. rewrite !bind_ret_l. cbv zeta.
    rewrite column_stack_pair
      by (rewrite length_np_repeat, length_np_tile; reflexivity).
    eexists. split; [reflexivity |]. split.
    + now rewrite length_map, length_seq, length_np_repeat.
    + intros i j Hi Hj. now apply grid_rows.
  - intros Hnd. unfold bsgrid, test_vector.
    destruct v as [r | lv | a]; cbn [ndim] in *;
      try (eexists; reflexivity).
    destruct w as [r | lw | a]; cbn [ndim] in *;
      try (eexists; reflexivity).
    destruct Hnd; congruence.
Qed.

(** The statement of [bsgrid_pairs] for the arrays [[0; 1; 2]] and
    [[5; 6]]. *)
Lemma bsgrid_pairs_witness :
  exists g,
    bsgrid (Vector [0; 1; 2]) (Vector [5; 6]) = ret g /\
    length g = (length [0; 1; 2] * length [5; 6])%nat /\
    forall i j, (i < length [0; 1; 2])%nat -> (j < length [5; 6])%nat ->
                g !! (i * length [5; 6] + j)%nat
                = Some [item [0; 1; 2] i; item [5; 6] j].
Proof.
  apply (proj1 (bsgrid_pairs (Vector [0; 1; 2]) (Vector [5; 6]))
           [0; 1; 2] [5; 6]); reflexivity.
Defined.

Lemma column_stack_triple (c1 c2 c3 : list R) :
  length c1 = length c2 -> length c2 = length c3 ->
  column_stack [c1; c2; c3]
  = ret (map (fun i => [item c1 i; item c2 i; item c3 i])
           (seq 0 (length c1))).
Proof.
  intros H1 H2. unfold column_stack. cbn [same_length].
  now rewrite H1, H2, !Nat.eqb_refl.
Qed.

Lemma length_column (a : matrix) (j : nat) : length (column a j) = nrows a.
Proof. unfold column, nrows. apply length_map. Qed.

Lemma item_column (a : matrix) (i j : nat) :
  (i < nrows a)%nat -> item (column a j) i = entry2 a i j.
Proof.
  intros Hi. unfold column, entry2, nrows, matrix in *.
  destruct (lookup_lt_is_Some_2 a i Hi) as [row Hrow].
  unfold item at 1. now rewrite list_lookup_fmap, Hrow.
Qed.

(** X12.  [make_lexico_grid] returns a 1-d array as it is.  For a 2-d
    array with [nr] rows and two columns it returns what [bsgrid]
    returns for its two columns: [nr * nr] rows, row [i * nr + j] being
    [(arr[i, 0], arr[j, 1])].  With three columns it returns
    [nr * nr * nr] rows, row [(i * nr + j) * nr + k] being
    [(arr[i, 0], arr[j, 1], arr[k, 2])].  With any other number of
    columns, one column included, and for an array of rank zero, the
    call aborts. *)
Theorem make_lexico_grid_rows (arr : npval) :
  (forall l, arr = Vector l -> make_lexico_grid arr = ret arr) /\
  (forall a, arr = Matrix a -> ncols a = 2%nat ->
     (g <- bsgrid (Vector (column a 0)) (Vector (column a 1)) ;;
      ret (Matrix g)) = make_lexico_grid arr /\
     exists g,
       make_lexico_grid arr = ret (Matrix g) /\
       length g = (nrows a * nrows a)%nat /\
       forall i j, (i < nrows a)%nat -> (j < nrows a)%nat ->
                   g !! (i * nrows a + j)%nat
                   = Some [entry2 a i 0; entry2 a j 1]) /\
  (forall a, arr = Matrix a -> ncols a = 3%nat ->
     exists g,
       make_lexico_grid arr = ret (Matrix g) /\
       length g = (nrows a * (nrows a * nrows a))%nat /\
       forall i j k,
         (i < nrows a)%nat -> (j < nrows a)%nat -> (k < nrows a)%nat ->
         g !! ((i * nrows a + j) * nrows a + k)%nat
         = Some [entry2 a i 0; entry2 a j 1; entry2 a k 2]) /\
  (forall a, arr = Matrix a -> ncols a <> 2%nat -> ncols a <> 3%nat ->
     make_lexico_grid arr
     = ([], Abort ("at this stage, the number of columns must be 3 or less, not "
                   ++ pystr (Z.of_nat (ncols a)) ++ "..."))) /\
  (forall r, arr = Scalar r ->
     exists msg, make_lexico_grid arr = ([], Abort msg)).
Proof.
  split; [| split; [| split; [| split]]].
  - intros l ->. reflexivity.
  - intros a -> Hnc.
    assert (Hrun : make_lexico_grid (Matrix a)
                   = (g <- column_stack
                             [np_repeat (column a 0) (nrows a);
                              np_tile (column a 1) (nrows a)] ;;
                      ret (Matrix g))).
    { unfold make_lexico_grid, test_vector_or_matrix, item_nat.
      cbn [ndim Nat.eqb negb andb np_shape rows_of lookup list_lookup
             default from_option Datatypes.id].
      rewrite !bind_ret_l. cbn [Nat.eqb]. now rewrite Hnc. }
    split.
    + rewrite Hrun. unfold bsgrid, test_vector.
      cbn [ndim Nat.eqb negb np_size flat]. rewrite !bind_ret_l. cbv zeta.
      now rewrite !length_column.
    + rewrite Hrun, column_stack_pair
        by (rewrite length_np_repeat, length_np_tile, !length_column;
            reflexivity).
      rewrite bind_ret_l. eexists. split; [reflexivity |]. split.
      * now rewrite length_map, length_seq, length_np_repeat,
          length_column.
      * intros i j Hi Hj.
        pose proof (grid_rows (column a 0) (column a 1) i j) as Hg.
        rewrite !length_column in Hg. rewrite (Hg Hi Hj).
        now rewrite !item_column by assumption.
  - intros a -> Hnc. set (nr := nrows a).
    assert (Hrun : make_lexico_grid (Matrix a)
                   = (g <- column_stack
                             [np_repeat (column a 0) (nr * nr);
                              np_repeat (np_tile (column a 1) nr) nr;
                              np_tile (column a 2) (nr * nr)] ;;
                      ret (Matrix g))).
    { unfold make_lexico_grid, test_vector_or_matrix, item_nat.
      cbn [ndim Nat.eqb negb andb np_shape rows_of lookup list_lookup
             default from_option Datatypes.id].
      rewrite !bind_ret_l. cbn [Nat.eqb]. now rewrite Hnc. }
    rewrite Hrun, column_stack_triple
      by (rewrite ?length_np_repeat, ?length_np_tile, ?length_column;
          fold nr; lia).
    rewrite bind_ret_l. eexists. split; [reflexivity |]. split.
    + rewrite length_map, length_seq, length_np_repeat, length_column.
      reflexivity.
    + intros i j k Hi Hj Hk.
      assert (Hidx : ((i * nr + j) * nr + k < nr * (nr * nr))%nat) by nia.
      rewrite list_lookup_fmap, length_np_repeat, length_column.
      fold nr. rewrite lookup_seq_lt by exact Hidx.
      cbn [fmap option_fmap option_map Nat.add]. do 2 f_equal;
        [| f_equal; [| f_equal]].
      * apply item_lookup.
        replace ((i * nr + j) * nr + k)%nat
          with (i * (nr * nr) + (j * nr + k))%nat by lia.
        rewrite lookup_np_repeat by nia.
        rewrite item_in_range by (now rewrite length_column).
        now rewrite item_column.
      * apply item_lookup. rewrite lookup_np_repeat by exact Hk.
        pose proof (lookup_np_tile (column a 1) nr i j) as Ht.
        rewrite length_column in Ht. fold nr in Ht.
        rewrite Ht by assumption.
        rewrite item_in_range by (now rewrite length_column).
        now rewrite item_column.
      * apply item_lookup.
        pose proof (lookup_np_tile (column a 2) (nr * nr) (i * nr + j) k)
          as Ht.
        rewrite length_column in Ht. fold nr in Ht.
        rewrite Ht by (try assumption; nia).
        rewrite item_in_range by (now rewrite length_column).
        now rewrite item_column.
  - intros a -> H2 H3.
    unfold make_lexico_grid, test_vector_or_matrix, item_nat.
    cbn [ndim Nat.eqb negb andb np_shape rows_of lookup list_lookup
           default from_option Datatypes.id].
    rewrite !bind_ret_l. cbn [Nat.eqb].
    now rewrite (proj2 (Nat.eqb_neq _ _) H2), (proj2 (Nat.eqb_neq _ _) H3).
  - intros r ->. eexists. reflexivity.
Qed.

(** The statement of [make_lexico_grid_rows] for an array of two rows
    and three columns. *)
Lemma make_lexico_grid_rows_witness :
  exists g,
    make_lexico_grid (Matrix [[1; 2; 3]; [4; 5; 6]]%R) = ret (Matrix g) /\
    length g = (nrows [[1; 2; 3]; [4; 5; 6]]%R
                * (nrows [[1; 2; 3]; [4; 5; 6]]%R
                   * nrows [[1; 2; 3]; [4; 5; 6]]%R))%nat /\
    forall i j k,
      (i < nrows [[1; 2; 3]; [4; 5; 6]]%R)%nat ->
      (j < nrows [[1; 2; 3]; [4; 5; 6]]%R)%nat ->
      (k < nrows [[1; 2; 3]; [4; 5; 6]]%R)%nat ->
      g !! ((i * nrows [[1; 2; 3]; [4; 5; 6]]%R + j)
            * nrows [[1; 2; 3]; [4; 5; 6]]%R + k)%nat
      = Some [entry2 [[1; 2; 3]; [4; 5; 6]]%R i 0;
              entry2 [[1; 2; 3]; [4; 5; 6]]%R j 1;
              entry2 [[1; 2; 3]; [4; 5; 6]]%R k 2].
Proof.
  apply (proj1 (proj2 (proj2
           (make_lexico_grid_rows (Matrix [[1; 2; 3]; [4; 5; 6]]%R))))
           [[1; 2; 3]; [4; 5; 6]]%R); reflexivity.
Defined.

Lemma foldr_Rmax_attained (x : R) (xs : list R) :
  foldr Rmax x xs ∈ x :: xs.
Proof.
  induction xs as [|y ys IH]; cbn [foldr].
  - apply list_elem_of_here.
  - unfold Rmax at 1. destruct (Rle_dec y (foldr Rmax x ys)).
    + apply elem_of_cons in IH as [IH | IH].
      * rewrite IH. apply list_elem_of_here.
      * now do 2 apply list_elem_of_further.
    + apply list_elem_of_further, list_elem_of_here.
Qed.

Lemma foldr_Rmax_scale (c x : R) (xs : list R) :
  0 <= c ->
  foldr Rmax (c * x) (map (Rmult c) xs) = c * foldr Rmax x xs.
Proof.
  intros Hc. induction xs as [|y ys IH]; cbn [foldr map]; [reflexivity |].
  rewrite IH. now apply RmaxRmult.
Qed.

(** X13.  [npmaxabs] raises the [ValueError] of [np.max] on an array
    without entries.  On any other array it returns a number [m >= 0]
    which bounds the absolute value of every entry and is the absolute
    value of one of them, and multiplying the array by a number [c]
    multiplies the result by [|c|]. *)
Theorem npmaxabs_sup_norm (arr : ndarray) :
  (data arr = [] -> exists exc, npmaxabs arr = ([], Raise exc)) /\
  (data arr <> [] ->
   exists m,
     npmaxabs arr = ret m /\
     0 <= m /\
     (forall x, x ∈ data arr -> Rabs x <= m) /\
     (exists x, x ∈ data arr /\ m = Rabs x) /\
     (forall c, npmaxabs (amap (Rmult c) arr) = ret (Rabs c * m))).
Proof.
  unfold npmaxabs, np_max, amap. cbn [data]. split.
  - intros ->. eexists. reflexivity.
  - intros Hne. destruct (data arr) as [|x xs]; [congruence |].
    cbn [map]. eexists. split; [reflexivity |].
    destruct (foldr_Rmax_ge (Rabs x) (map Rabs xs)) as [H1 H2].
    split; [| split; [| split]].
    + eapply Rle_trans; [apply Rabs_pos | exact H1].
    + intros y Hy. apply elem_of_cons in Hy as [-> | Hy];
        [exact H1 |].
      rewrite Forall_forall in H2. apply H2.
      now apply list_elem_of_fmap_2.
    + pose proof (foldr_Rmax_attained (Rabs x) (map Rabs xs)) as Hat.
      change (Rabs x :: map Rabs xs) with (Rabs <$> (x :: xs)) in Hat.
      apply list_elem_of_fmap in Hat as (y & Hy & Hin). now exists y.
    + intros c. f_equal. f_equal.
      rewrite <- (foldr_Rmax_scale (Rabs c)) by apply Rabs_pos.
      rewrite Rabs_mult. f_equal.
      rewrite !map_map. apply map_ext. intros y. apply Rabs_mult.
Qed.

(** The statement of [npmaxabs_sup_norm] for the array [[1; -3; 2]]. *)
Lemma npmaxabs_sup_norm_witness :
  exists m,
    npmaxabs (mk_ndarray [3%nat] [1; -3; 2]) = ret m /\
    0 <= m /\
    (forall x, x ∈ [1; -3; 2] -> Rabs x <= m) /\
    (exists x, x ∈ [1; -3; 2] /\ m = Rabs x) /\
    (forall c, npmaxabs (amap (Rmult c) (mk_ndarray [3%nat] [1; -3; 2]))
               = ret (Rabs c * m)).
Proof.
  apply (proj2 (npmaxabs_sup_norm (mk_ndarray [3%nat] [1; -3; 2]))).
  discriminate.
Defined.

Lemma square_tabulate (n : nat) (f : nat -> nat -> R) :
  square n (tabulate n f).
Proof.
  unfold square, tabulate. split.
  - now rewrite length_map, length_seq.
  - apply Forall_forall. intros row Hrow.
    apply list_elem_of_fmap in Hrow as (i & -> & _).
    now rewrite length_map, length_seq.
Qed.

Lemma entry2_tabulate (n : nat) (f : nat -> nat -> R) (i j : nat) :
  (i < n)%nat -> (j < n)%nat -> entry2 (tabulate n f) i j = f i j.
Proof.
  intros Hi Hj. unfold entry2, tabulate, item, matrix.
  rewrite list_lookup_fmap, lookup_seq_lt by exact Hi.
  cbn [fmap option_fmap option_map default from_option Datatypes.id Nat.add].
  rewrite list_lookup_fmap, lookup_seq_lt by exact Hj. reflexivity.
Qed.

Lemma zip_with_map_same {A B C D} (f : B -> C -> D) (g : A -> B)
  (h : A -> C) (l : list A) :
  zip_with f (map g l) (map h l) = map (fun x => f (g x) (h x)) l.
Proof. induction l as [|x l IH]; [reflexivity |]. cbn. now rewrite IH. Qed.

Lemma mat_zip_tabulate (op : R -> R -> R) (n : nat)
  (f g : nat -> nat -> R) :
  mat_zip op (tabulate n f) (tabulate n g)
  = tabulate n (fun i j => op (f i j) (g i j)).
Proof.
  unfold mat_zip, tabulate. rewrite zip_with_map_same.
  apply map_ext. intros i. apply zip_with_map_same.
Qed.

Lemma mat_map_tabulate (op : R -> R) (n : nat) (f : nat -> nat -> R) :
  mat_map op (tabulate n f) = tabulate n (fun i j => op (f i j)).
Proof.
  unfold mat_map, tabulate. rewrite map_map.
  apply map_ext. intros i. apply map_map.
Qed.

Lemma subtract_outer_tabulate (n : nat) (f : nat -> R) :
  subtract_outer (map f (seq 0 n)) (map f (seq 0 n))
  = tabulate n (fun i j => f i - f j).
Proof.
  unfold subtract_outer, tabulate. rewrite map_map.
  apply map_ext. intros i. apply map_map.
Qed.

Lemma zeros_tabulate (n : nat) : np_zeros2 n n = tabulate n (fun _ _ => 0).
Proof.
  assert (H : forall (A : Type) (c : A) m k,
             map (fun _ => c) (seq k m) = replicate m c).
  { intros A c m. induction m as [|m IH]; intros k; [reflexivity |].
    cbn. now rewrite IH. }
  unfold np_zeros2, np_zeros, tabulate. now rewrite (H _ _ n 0%nat), H.
Qed.

Lemma sq_dist_nonneg (a : matrix) (nv i j : nat) : 0 <= sq_dist a nv i j.
Proof.
  unfold sq_dist. apply sum_list_nonneg, Forall_forall. intros v Hv.
  apply list_elem_of_fmap in Hv as (k & -> & _). cbv beta. apply Rle_0_sqr.
Qed.

Lemma sq_dist_sym (a : matrix) (nv i j : nat) :
  sq_dist a nv i j = sq_dist a nv j i.
Proof.
  unfold sq_dist. f_equal. apply map_ext. intros k. ring.
Qed.

Lemma sq_dist_diag (a : matrix) (nv i : nat) : sq_dist a nv i i = 0.
Proof.
  unfold sq_dist.
  rewrite (map_zero_replicate _ (seq 0 nv))
    by (apply Forall_forall; intros k _; cbv beta; ring).
  apply sum_list_replicate_0.
Qed.

(** The loop of [_compute_distances] over the columns. *)
Lemma compute_distances_loop (a : matrix) (nv : nat) :
  foldl (fun A iv =>
           let Tiv := column a iv in
           let Aiv := subtract_outer Tiv Tiv in
           mat_zip Rplus A (mat_zip Rmult Aiv Aiv))
    (np_zeros2 (nrows a) (nrows a)) (seq 0 nv)
  = tabulate (nrows a) (sq_dist a nv).
Proof.
  induction nv as [|nv IH].
  - cbn [seq foldl]. apply zeros_tabulate.
  - rewrite seq_S, foldl_app, IH. cbn [foldl Nat.add]. cbv zeta.
    unfold column. rewrite (column_by_index (nrows a) a nv eq_refl).
    rewrite subtract_outer_tabulate, !mat_zip_tabulate.
    unfold tabulate. apply map_ext. intros i. apply map_ext. intros j.
    unfold sq_dist. rewrite seq_S, map_app, sum_list_app. cbn [map Nat.add].
    unfold sum_list at 3. cbn [foldr]. ring.
Qed.

(** What [_compute_distances] returns. *)
Lemma compute_distances_returns (T : npval) :
  ndim T <> 0%nat ->
  let n := item_nat (np_shape T) 0 in
  _compute_distances T
  = ret (tabulate n
           (match T with
            | Matrix a => fun i j => sqrt (sq_dist a (ncols a) i j)
            | _ => fun i j => Rabs (item (flat T) i - item (flat T) j)
            end)).
Proof.
  intros Hnd n. subst n. unfold _compute_distances, test_vector_or_matrix.
  destruct T as [r | l | a]; cbn [ndim] in *; [congruence | |];
    cbn [Nat.eqb negb andb]; rewrite !bind_ret_l; cbn [Nat.eqb].
  - cbn [flat np_shape item_nat]. unfold item_nat.
    cbn [lookup list_lookup default from_option Datatypes.id].
    rewrite <- (map_item_seq l) at 1 2.
    now rewrite subtract_outer_tabulate, mat_map_tabulate.
  - cbv zeta. unfold item_nat.
    cbn [np_shape rows_of lookup list_lookup default from_option
           Datatypes.id].
    now rewrite compute_distances_loop, mat_map_tabulate.
Qed.

(** X14.  [_compute_distances] returns, for a 1-d array of size [n], the
    [n] by [n] array of the [|T[i] - T[j]|]; for a 2-d array of [n]
    rows, the [n] by [n] array of the Euclidean distances of its rows,
    the square root of the sum over the columns of the squared
    differences.  This array is symmetric, its diagonal is zero and none
    of its entries is negative.  An array of rank zero makes the call
    abort. *)
Theorem compute_distances_metric (T : npval) :
  (ndim T <> 0%nat ->
   let n := item_nat (np_shape T) 0 in
   exists D,
     _compute_distances T = ret D /\
     square n D /\
     (forall l, T = Vector l ->
        forall i j, (i < n)%nat -> (j < n)%nat ->
                    entry2 D i j = Rabs (item l i - item l j)) /\
     (forall a, T = Matrix a ->
        forall i j, (i < n)%nat -> (j < n)%nat ->
                    entry2 D i j = sqrt (sq_dist a (ncols a) i j)) /\
     symmetric_matrix n D /\
     (forall i, (i < n)%nat -> entry2 D i i = 0) /\
     (forall i j, (i < n)%nat -> (j < n)%nat -> 0 <= entry2 D i j)) /\
  (ndim T = 0%nat -> exists msg, _compute_distances T = ([], Abort msg)).
Proof.
  split.
  - intros Hnd n. eexists. split; [exact (compute_distances_returns T Hnd) |].
    fold n. split; [apply square_tabulate |].
    split; [| split; [| split; [| split]]].
    + intros l -> i j Hi Hj. now rewrite entry2_tabulate.
    + intros a -> i j Hi Hj. now rewrite entry2_tabulate.
    + intros i j Hi Hj. rewrite !entry2_tabulate by assumption.
      destruct T as [r | l | a].
      * apply Rabs_minus_sym.
      * apply Rabs_minus_sym.
      * now rewrite sq_dist_sym.
    + intros i Hi. rewrite entry2_tabulate by assumption.
      destruct T as [r | l | a].
      * rewrite Rminus_diag. apply Rabs_R0.
      * rewrite Rminus_diag. apply Rabs_R0.
      * rewrite sq_dist_diag. apply sqrt_0.
    + intros i j Hi Hj. rewrite entry2_tabulate by assumption.
      destruct T as [r | l | a].
      * apply Rabs_pos.
      * apply Rabs_pos.
      * apply sqrt_pos.
  - intros Hnd. destruct T as [r | l | a]; cbn [ndim] in Hnd;
      try discriminate.
    eexists. reflexivity.
Qed.

(** The statement of [compute_distances_metric] for the points [(0, 0)],
    [(3, 4)] and [(6, 8)]. *)
Lemma compute_distances_metric_witness :
  exists D,
    _compute_distances (Matrix [[0; 0]; [3; 4]; [6; 8]]%R) = ret D /\
    square 3 D /\
    (forall l, Matrix [[0; 0]; [3; 4]; [6; 8]]%R = Vector l ->
       forall i j, (i < 3)%nat -> (j < 3)%nat ->
                   entry2 D i j = Rabs (item l i - item l j)) /\
    (forall a, Matrix [[0; 0]; [3; 4]; [6; 8]]%R = Matrix a ->
       forall i j, (i < 3)%nat -> (j < 3)%nat ->
                   entry2 D i j = sqrt (sq_dist a (ncols a) i j)) /\
    symmetric_matrix 3 D /\
    (forall i, (i < 3)%nat -> entry2 D i i = 0) /\
    (forall i j, (i < 3)%nat -> (j < 3)%nat -> 0 <= entry2 D i j).
Proof.
  apply (proj1 (compute_distances_metric
                  (Matrix [[0; 0]; [3; 4]; [6; 8]]%R))).
  discriminate.
Defined.

Lemma dcov_prod_run (u : bool) (p q : nat) (P Q : matrix) :
  square p P -> square q Q ->
  _dcov_prod P Q u
  = if (q =? p)%nat
    then ret (frobenius P Q
              / IZR (Z.of_nat p * (if u then Z.of_nat p - 3 else Z.of_nat p)))
    else bs_error_abort "A and B should be square matrices of the same size".
Proof.
  intros HP HQ. unfold _dcov_prod.
  rewrite (test_square_square p P _ HP), bind_ret_l.
  rewrite (test_square_square q Q _ HQ), bind_ret_l. reflexivity.
Qed.








Lemma frobenius_comm (A B : matrix) : frobenius A B = frobenius B A.
Proof.
  unfold frobenius. do 2 f_equal. apply zip_with_comm.
  intros x y. apply zip_with_comm. intros; apply Rmult_comm.
Qed.

Lemma decentered_distances_returns (X : npval) (u : bool) :
  ndim X <> 0%nat ->
  exists X_dist X_dd,
    _compute_distances X = ret X_dist /\
    nrows X_dist = nobs X /\
    _double_decenter X_dist u = ret X_dd /\
    decentered_distances X u = ret X_dd /\
    square (nobs X) X_dd.
Proof.
  intros Hnd. pose proof (compute_distances_returns X Hnd) as HD.
  cbv zeta in HD. fold (nobs X) in HD.
  set (D := tabulate _ _) in HD.
  assert (HsqD : square (nobs X) D) by apply square_tabulate.
  destruct (double_decenter_entries (nobs X) D u HsqD)
    as (X_dd & Hdd & Hsq & _).
  exists D, X_dd. split; [exact HD |].
  split; [exact (proj1 HsqD) |].
  split; [exact Hdd |]. split; [| exact Hsq].
  unfold decentered_distances. now rewrite HD, bind_ret_l.
Qed.


(** [dcov_dcor] once the decentered distances are known. *)
Lemma dcov_dcor_run (X Y : npval) (u : bool) (X_dd Y_dd : matrix) :
  ndim X <> 0%nat -> ndim Y <> 0%nat ->
  decentered_distances X u = ret X_dd ->
  decentered_distances Y u = ret Y_dd ->
  dcov_dcor X Y u
  = (dcov2 <- _dcov_prod X_dd Y_dd u ;;
     C_XX <- _dcov_prod X_dd X_dd u ;;
     C_YY <- _dcov_prod Y_dd Y_dd u ;;
     root <- math_sqrt (C_XX * C_YY) ;;
     ret (mk_DcovResults dcov2 (INR (nobs X) * dcov2) (dcov2 / root)
            X_dd Y_dd u)).
Proof.
  intros HX HY HXdd HYdd.
  destruct (decentered_distances_returns X u HX)
    as (X_dist & X_dd' & HXd & HXn & HXr & HXdd' & _).
  destruct (decentered_distances_returns Y u HY)
    as (Y_dist & Y_dd' & HYd & _ & HYr & HYdd' & _).
  rewrite HXdd in HXdd'. inversion HXdd'; subst X_dd'.
  rewrite HYdd in HYdd'. inversion HYdd'; subst Y_dd'.
  unfold dcov_dcor. rewrite HXd, bind_ret_l. cbv zeta.
  rewrite HXr, bind_ret_l, HYd, bind_ret_l, HYr, bind_ret_l, HXn.
  reflexivity.
Qed.




(** [pdcov_pdcor] once the decentered distances are known. *)
Lemma pdcov_pdcor_run (X Y Z : npval) (Xd Yd Zd : matrix) :
  ndim X <> 0%nat -> ndim Y <> 0%nat -> ndim Z <> 0%nat ->
  decentered_distances X true = ret Xd ->
  decentered_distances Y true = ret Yd ->
  decentered_distances Z true = ret Zd ->
  pdcov_pdcor X Y Z
  = (C_XX <- _dcov_prod Xd Xd true ;;
     C_XY <- _dcov_prod Xd Yd true ;;
     C_YY <- _dcov_prod Yd Yd true ;;
     C_XZ <- _dcov_prod Xd Zd true ;;
     C_YZ <- _dcov_prod Yd Zd true ;;
     C_ZZ <- _dcov_prod Zd Zd true ;;
     root <- math_sqrt ((C_XX - C_XZ * C_XZ / C_ZZ)
                        * (C_YY - C_YZ * C_YZ / C_ZZ)) ;;
     ret (mk_PdcovResults (C_XY - (C_XZ * C_YZ) / C_ZZ)
            (INR (nobs X) * (C_XY - (C_XZ * C_YZ) / C_ZZ))
            ((C_XY - (C_XZ * C_YZ) / C_ZZ) / root) Xd Yd Zd)).
Proof.
  intros HX HY HZ HXd HYd HZd.
  destruct (decentered_distances_returns X true HX)
    as (X_dist & Xd' & HXc & _ & HXr & HXd' & _).
  destruct (decentered_distances_returns Y true HY)
    as (Y_dist & Yd' & HYc & _ & HYr & HYd' & _).
  destruct (decentered_distances_returns Z true HZ)
    as (Z_dist & Zd' & HZc & _ & HZr & HZd' & _).
  rewrite HXd in HXd'. inversion HXd'; subst Xd'.
  rewrite HYd in HYd'. inversion HYd'; subst Yd'.
  rewrite HZd in HZd'. inversion HZd'; subst Zd'.
  unfold pdcov_pdcor. cbv zeta.
  rewrite HXc, bind_ret_l, HXr, bind_ret_l.
  rewrite HYc, bind_ret_l, HYr, bind_ret_l.
  rewrite HZc, bind_ret_l, HZr, bind_ret_l.
  reflexivity.
Qed.

(** X16.  The number of observations must be the same in all the arrays:
    with either formula [dcov_dcor] aborts with the message of
    [_dcov_prod], [A and B should be square matrices of the same size],
    when [X] and [Y] differ in their number of observations, and so does
    [pdcov_pdcor] when [X], [Y] and [Z] do not all have the same number.
    Both abort when their first array has rank zero. *)
Theorem dcov_sizes_must_agree (X Y Z : npval) (u : bool) :
  (ndim X <> 0%nat -> ndim Y <> 0%nat -> nobs X <> nobs Y ->
   dcov_dcor X Y u
   = ([], Abort "A and B should be square matrices of the same size")) /\
  (ndim X <> 0%nat -> ndim Y <> 0%nat -> ndim Z <> 0%nat ->
   nobs X <> nobs Y \/ nobs X <> nobs Z ->
   pdcov_pdcor X Y Z
   = ([], Abort "A and B should be square matrices of the same size")) /\
  (ndim X = 0%nat ->
   exists msg, dcov_dcor X Y u = ([], Abort msg) /\
               pdcov_pdcor X Y Z = ([], Abort msg)).
Proof.
  split; [| split].
  - intros HX HY Hne.
    destruct (decentered_distances_returns X u HX)
      as (_ & Xd & _ & _ & _ & HXd & HXsq).
    destruct (decentered_distances_returns Y u HY)
      as (_ & Yd & _ & _ & _ & HYd & HYsq).
    rewrite (dcov_dcor_run X Y u Xd Yd HX HY HXd HYd).
    rewrite (dcov_prod_run u _ _ Xd Yd HXsq HYsq).
    rewrite (proj2 (Nat.eqb_neq _ _)) by congruence. reflexivity.
  - intros HX HY HZ Hne.
    destruct (decentered_distances_returns X true HX)
      as (_ & Xd & _ & _ & _ & HXd & HXsq).
    destruct (decentered_distances_returns Y true HY)
      as (_ & Yd & _ & _ & _ & HYd & HYsq).
    destruct (decentered_distances_returns Z true HZ)
      as (_ & Zd & _ & _ & _ & HZd & HZsq).
    rewrite (pdcov_pdcor_run X Y Z Xd Yd Zd HX HY HZ HXd HYd HZd).
    rewrite (dcov_prod_run true _ _ Xd Xd HXsq HXsq), Nat.eqb_refl,
      bind_ret_l.
    rewrite (dcov_prod_run true _ _ Xd Yd HXsq HYsq).
    destruct (Nat.eqb_spec (nobs Y) (nobs X)) as [Heq | Hxy];
      [| reflexivity].
    rewrite bind_ret_l. rewrite Heq in HYsq.
    rewrite (dcov_prod_run true _ _ Yd Yd HYsq HYsq), Nat.eqb_refl,
      bind_ret_l.
    rewrite (dcov_prod_run true _ _ Xd Zd HXsq HZsq).
    rewrite (proj2 (Nat.eqb_neq _ _)); [reflexivity |].
    destruct Hne as [Hne | Hne]; congruence.
  - intros HX. destruct X as [r | l | a]; cbn [ndim] in HX;
      try discriminate.
    eexists. split; reflexivity.
Qed.

(** The statement of [dcov_sizes_must_agree] for three observations
    against two, with the biased formula. *)
Lemma dcov_sizes_must_agree_witness :
  dcov_dcor (Vector [0; 1; 3]) (Vector [2; 0]) false
  = ([], Abort "A and B should be square matrices of the same size").
Proof.
  apply (proj1 (dcov_sizes_must_agree (Vector [0; 1; 3]) (Vector [2; 0])
                  (Vector [1]) false));
    [discriminate | discriminate | cbv; lia].
Defined.

Lemma init_loop (coeffs : matrix) (n k : nat) (acc : list (list R)) :
  Forall (fun row => row <> []) coeffs ->
  (k + n <= length coeffs)%nat ->
  for_each (fun listpol2 k =>
              row <- getitem coeffs k ;;
              p <- Polynomial row ;;
              ret (listpol2 ++ [p]))
    (seq k n) acc
  = ret (acc ++ take n (drop k coeffs)).
Proof.
  intros Hne. revert k acc. induction n as [|n IH]; intros k acc Hk.
  - cbn [seq for_each take]. now rewrite app_nil_r.
  - cbn [seq for_each].
    destruct (lookup_lt_is_Some_2 coeffs k) as [row Hrow]; [lia |].
    unfold getitem at 1. rewrite Hrow, bind_ret_l.
    assert (Hr : row <> []).
    { rewrite Forall_lookup in Hne. exact (Hne k row Hrow). }
    unfold Polynomial at 1. destruct row as [|c row]; [congruence |].
    rewrite !bind_ret_l, IH by lia.
    rewrite (drop_S coeffs (c :: row) k Hrow). cbn [take].
    now rewrite <- app_assoc.
Qed.

Lemma init_returns (coeffs : matrix) :
  Forall (fun row => row <> []) coeffs ->
  __init__ coeffs
  = ret (mk_BivariatePolynomial (Z.of_nat (nrows coeffs) - 1)
           (Z.of_nat (ncols coeffs) - 1) coeffs coeffs).
Proof.
  intros Hne. unfold __init__. cbv zeta.
  replace (Z.to_nat (Z.of_nat (nrows coeffs) - 1 + 1)) with (length coeffs)
    by (unfold nrows; lia).
  rewrite init_loop by (try assumption; lia).
  rewrite bind_ret_l. cbn [app drop]. now rewrite firstn_all.
Qed.

Lemma coefficient_array_rows (a : matrix) :
  coefficient_array a -> a <> [] /\ Forall (fun row => row <> []) a.
Proof.
  intros [Hrect Hnc]. split.
  - intros ->. now apply Hnc.
  - eapply Forall_impl; [exact Hrect |]. intros row Hrow ->.
    simpl in Hrow. congruence.
Qed.

Lemma call_eval (d1 d2 : Z) (a rows : matrix) (x1 x2 : R) :
  __call__ (mk_BivariatePolynomial d1 d2 a rows) x1 x2 = eval2 rows x1 x2.
Proof.
  unfold __call__. cbv zeta. cbn [listpol2].
  assert (H : forall v fac,
             fst (foldl (fun '(val, x1fac) p =>
                           (val + polyval p x2 * x1fac, x1fac * x1))
                    (v, fac) rows)
             = v + fac * eval2 rows x1 x2).
  { induction rows as [|row rows IH]; intros v fac.
    - cbn. ring.
    - cbn [foldl eval2 foldr]. rewrite IH. fold (eval2 rows x1 x2). ring. }
  rewrite H. ring.
Qed.

Lemma polyval_app_zeros (row : list R) (k : nat) (x : R) :
  polyval (row ++ replicate k 0) x = polyval row x.
Proof.
  assert (Hz : polyval (replicate k 0) x = 0).
  { induction k as [|k IH]; [reflexivity |].
    cbn [replicate]. unfold polyval in *. cbn [foldr]. rewrite IH. ring. }
  induction row as [|a row IH]; [exact Hz |].
  unfold polyval in *. cbn [app foldr]. now rewrite IH.
Qed.

Lemma eval2_padded (a : matrix) (M N : nat) (x1 x2 : R) :
  eval2 (padded a M N) x1 x2 = eval2 a x1 x2.
Proof.
  unfold padded. generalize (N - ncols a)%nat (M - nrows a)%nat.
  intros k1 k2.
  assert (Hz : forall k, eval2 (replicate k (replicate N 0)) x1 x2 = 0).
  { induction k as [|k IH]; [reflexivity |].
    cbn [replicate]. unfold eval2 in *. cbn [foldr]. rewrite IH.
    rewrite <- (app_nil_l (replicate N 0)), polyval_app_zeros.
    unfold polyval. cbn [foldr]. ring. }
  induction a as [|row a IH].
  - cbn [map app]. apply Hz.
  - cbn [map app]. unfold eval2 in *. cbn [foldr].
    now rewrite IH, polyval_app_zeros.
Qed.

Lemma polyval_zip (op : R -> R -> R) (r1 r2 : list R) (x : R) :
  (forall a b c d, op (a + b * x) (c + d * x) = op a c + op b d * x) ->
  op 0 0 = 0 ->
  length r1 = length r2 ->
  polyval (zip_with op r1 r2) x = op (polyval r1 x) (polyval r2 x).
Proof.
  intros Hop H0. revert r2. induction r1 as [|a r1 IH]; intros [|b r2] Hlen;
    try discriminate.
  - unfold polyval. cbn. now rewrite H0.
  - unfold polyval in *. cbn [zip_with foldr].
    rewrite IH by (simpl in Hlen; lia). now rewrite Hop.
Qed.

Lemma eval2_zip (op : R -> R -> R) (M N : nat) (A B : matrix) (x1 x2 : R) :
  (forall x a b c d, op (a + b * x) (c + d * x) = op a c + op b d * x) ->
  op 0 0 = 0 ->
  has_shape M N A -> has_shape M N B ->
  eval2 (mat_zip op A B) x1 x2 = op (eval2 A x1 x2) (eval2 B x1 x2).
Proof.
  intros Hop H0 [HA HrA] [HB HrB]. subst M. revert B HB HrB.
  induction HrA as [|ra A Hra HrA IH]; intros [|rb B] HB HrB;
    try discriminate.
  - unfold eval2, mat_zip. cbn. now rewrite H0.
  - inversion HrB as [|? ? Hrb HrB']; subst.
    unfold eval2, mat_zip in *. cbn [zip_with foldr].
    rewrite IH by (try assumption; simpl in HB; lia).
    rewrite (polyval_zip op) by (auto; congruence).
    now rewrite Hop.
Qed.

Lemma polyval_scale (c : R) (row : list R) (x : R) :
  polyval (map (Rmult c) row) x = c * polyval row x.
Proof.
  induction row as [|v row IH]; unfold polyval in *; cbn [map foldr];
    [ring | rewrite IH; ring].
Qed.

Lemma eval2_scale (c : R) (a : matrix) (x1 x2 : R) :
  eval2 (mat_map (Rmult c) a) x1 x2 = c * eval2 a x1 x2.
Proof.
  induction a as [|row a IH].
  - unfold eval2. cbn. ring.
  - change (eval2 (mat_map (Rmult c) (row :: a)) x1 x2)
      with (polyval (map (Rmult c) row) x2
            + eval2 (mat_map (Rmult c) a) x1 x2 * x1).
    change (eval2 (row :: a) x1 x2)
      with (polyval row x2 + eval2 a x1 x2 * x1).
    rewrite IH, polyval_scale. ring.
Qed.

Lemma eval2_outer (p1 p2 : list R) (x1 x2 : R) :
  eval2 (np_outer p1 p2) x1 x2 = polyval p1 x1 * polyval p2 x2.
Proof.
  induction p1 as [|a p1 IH].
  - unfold eval2, polyval. cbn. ring.
  - change (eval2 (np_outer (a :: p1) p2) x1 x2)
      with (polyval (map (Rmult a) p2) x2
            + eval2 (np_outer p1 p2) x1 x2 * x1).
    change (polyval (a :: p1) x1) with (a + polyval p1 x1 * x1).
    rewrite IH, polyval_scale. ring.
Qed.

(** Horner's rule gives the sum of the monomials. *)
Lemma sum_list_imap_scale (f : nat -> R -> R) (c : R) (l : list R) :
  sum_list (imap (fun i a => f i a * c) l) = sum_list (imap f l) * c.
Proof.
  revert f. induction l as [|a l IH]; intros f.
  - unfold sum_list. cbn. ring.
  - rewrite !imap_cons.
    change (sum_list (f 0%nat a * c
                      :: imap (fun i a => (f ∘ S) i a * c) l)
            = sum_list (f 0%nat a :: imap (f ∘ S) l) * c).
    unfold sum_list in *. cbn [foldr]. rewrite (IH (f ∘ S)). ring.
Qed.

Lemma polyval_monomials (c : list R) (x : R) :
  polyval c x = sum_list (imap (fun l a => a * x ^ l) c).
Proof.
  induction c as [|a c IH].
  - reflexivity.
  - rewrite imap_cons. unfold polyval, sum_list in *. cbn [foldr].
    rewrite IH. rewrite <- sum_list_imap_scale. unfold sum_list.
    f_equal; [ring |]. f_equal. apply imap_ext. intros i v _.
    cbn [compose pow]. unfold compose. cbn [pow]. ring.
Qed.

Lemma eval2_monomials (a : matrix) (x1 x2 : R) :
  eval2 a x1 x2
  = sum_list (imap (fun k row =>
                      sum_list (imap (fun l c => c * x1 ^ k * x2 ^ l) row))
                a).
Proof.
  assert (Hrow : forall k row,
             sum_list (imap (fun l c => c * x1 ^ k * x2 ^ l) row)
             = polyval row x2 * x1 ^ k).
  { intros k row. rewrite polyval_monomials, <- sum_list_imap_scale.
    f_equal. apply imap_ext. intros i v _. ring. }
  assert (Hgen : forall k,
             sum_list (imap (fun j row => polyval row x2 * x1 ^ (k + j)) a)
             = eval2 a x1 x2 * x1 ^ k).
  { induction a as [|row a IH]; intros k.
    - unfold sum_list, eval2. cbn. ring.
    - rewrite imap_cons. unfold sum_list, eval2 in *. cbn [foldr].
      rewrite Nat.add_0_r.
      transitivity (polyval row x2 * x1 ^ k
                    + foldr Rplus 0
                        (imap (fun j row0 => polyval row0 x2 * x1 ^ (S k + j))
                           a)).
      + f_equal. f_equal. apply imap_ext. intros j r _. unfold compose.
        f_equal. f_equal. lia.
      + rewrite IH. cbn [pow]. ring. }
  transitivity (sum_list (imap (fun j row => polyval row x2 * x1 ^ (0 + j)) a)).
  - rewrite Hgen. cbn [pow]. ring.
  - f_equal. apply imap_ext. intros k row _. cbn [Nat.add].
    now rewrite Hrow.
Qed.

Lemma has_shape_zip (op : R -> R -> R) (M N : nat) (A B : matrix) :
  has_shape M N A -> has_shape M N B -> has_shape M N (mat_zip op A B).
Proof.
  intros [HA HrA] [HB HrB]. unfold has_shape, mat_zip. split.
  - rewrite length_zip_with. lia.
  - apply Forall_lookup. intros i row Hrow.
    apply lookup_zip_with_Some in Hrow as (ra & rb & -> & Hra & Hrb).
    rewrite Forall_lookup in HrA, HrB.
    rewrite length_zip_with, (HrA i ra Hra), (HrB i rb Hrb). lia.
Qed.

Lemma has_shape_init (M N : nat) (A : matrix) :
  has_shape M N A -> M <> 0%nat -> N <> 0%nat ->
  __init__ A
  = ret (mk_BivariatePolynomial (Z.of_nat M - 1) (Z.of_nat N - 1) A A).
Proof.
  intros [HA HrA] HM HN. rewrite init_returns.
  - unfold nrows. rewrite HA. do 3 f_equal.
    destruct A as [|row A]; [simpl in HA; congruence |].
    inversion HrA; subst. reflexivity.
  - eapply Forall_impl; [exact HrA |]. intros row Hrow ->.
    simpl in Hrow. congruence.
Qed.

(** The sum and the difference of two bivariate polynomials. *)
Lemma bivariate_zip (op : R -> R -> R) (a b : matrix) :
  (forall x u v w t, op (u + v * x) (w + t * x) = op u w + op v t * x) ->
  op 0 0 = 0 ->
  coefficient_array a -> coefficient_array b ->
  let p := mk_BivariatePolynomial (Z.of_nat (nrows a) - 1)
             (Z.of_nat (ncols a) - 1) a a in
  let q := mk_BivariatePolynomial (Z.of_nat (nrows b) - 1)
             (Z.of_nat (ncols b) - 1) b b in
  let max_deg1 := Z.max (deg1 q) (deg1 p) in
  let max_deg2 := Z.max (deg2 q) (deg2 p) in
  exists s,
    (coeffs_new <- nppad2_end_zeros (Matrix (coef p))
                     (max_deg1 + 1) (max_deg2 + 1) ;;
     coeffsbp_new <- nppad2_end_zeros (Matrix (coef q))
                       (max_deg1 + 1) (max_deg2 + 1) ;;
     __init__ (mat_zip op (rows_of coeffs_new) (rows_of coeffsbp_new)))
    = ret s /\
    deg1 s = Z.max (deg1 p) (deg1 q) /\
    deg2 s = Z.max (deg2 p) (deg2 q) /\
    forall x1 x2,
      __call__ s x1 x2 = op (__call__ p x1 x2) (__call__ q x1 x2).
Proof.
  intros Hop H0 Ha Hb p q max_deg1 max_deg2.
  destruct (coefficient_array_rows a Ha) as [Hane _].
  destruct (coefficient_array_rows b Hb) as [Hbne _].
  destruct Ha as [Hra Hca]. destruct Hb as [Hrb Hcb].
  assert (Hna : nrows a <> 0%nat)
    by (unfold nrows; destruct a; simpl; congruence).
  assert (Hnb : nrows b <> 0%nat)
    by (unfold nrows; destruct b; simpl; congruence).
  set (M := Nat.max (nrows a) (nrows b)).
  set (N := Nat.max (ncols a) (ncols b)).
  destruct (nppad2_end_zeros_returns a (max_deg1 + 1) (max_deg2 + 1) Hra)
    as (Hpa & HMa & HNa).
  destruct (nppad2_end_zeros_returns b (max_deg1 + 1) (max_deg2 + 1) Hrb)
    as (Hpb & HMb & HNb).
  cbv zeta in Hpa, HMa, HNa, Hpb, HMb, HNb.
  subst max_deg1 max_deg2 p q. cbn [deg1 deg2 coef] in *.
  replace (Z.to_nat (Z.max (Z.max (Z.of_nat (nrows b) - 1)
                              (Z.of_nat (nrows a) - 1) + 1)
                       (Z.of_nat (nrows a)))) with M in * by (subst M; lia).
  replace (Z.to_nat (Z.max (Z.max (Z.of_nat (ncols b) - 1)
                              (Z.of_nat (ncols a) - 1) + 1)
                       (Z.of_nat (ncols a)))) with N in * by (subst N; lia).
  replace (Z.to_nat (Z.max (Z.max (Z.of_nat (nrows b) - 1)
                              (Z.of_nat (nrows a) - 1) + 1)
                       (Z.of_nat (nrows b)))) with M in * by (subst M; lia).
  replace (Z.to_nat (Z.max (Z.max (Z.of_nat (ncols b) - 1)
                              (Z.of_nat (ncols a) - 1) + 1)
                       (Z.of_nat (ncols b)))) with N in * by (subst N; lia).
  assert (HsA : has_shape M N (padded a M N)) by (split; assumption).
  assert (HsB : has_shape M N (padded b M N)) by (split; assumption).
  rewrite Hpa, bind_ret_l, Hpb, bind_ret_l. cbn [rows_of].
  rewrite (has_shape_init M N) by
    (try apply has_shape_zip; try assumption; subst M N; lia).
  eexists. split; [reflexivity |]. cbn [deg1 deg2].
  split; [subst M; lia |]. split; [subst N; lia |].
  intros x1 x2. rewrite !call_eval.
  rewrite (eval2_zip op M N) by (try assumption; apply Hop).
  now rewrite !eval2_padded.
Qed.

(** X17.  Evaluation commutes with the arithmetic of
    [BivariatePolynomial].  For polynomials [p] and [q] constructed from
    two coefficient arrays, [p + q] and [p - q] are constructed, their
    degrees are the larger of the degrees of [p] and [q] in each
    variable (nothing is trimmed), and at every point they take the
    value [p(x1, x2) + q(x1, x2)], resp. [p(x1, x2) - q(x1, x2)]; for a
    number [c], [p + c], [p - c] and [c * p] take the values
    [p(x1, x2) + c], [p(x1, x2) - c] and [c * p(x1, x2)]. *)
Theorem bivariate_arithmetic (a b : matrix) :
  coefficient_array a -> coefficient_array b ->
  exists p q,
    __init__ a = ret p /\
    __init__ b = ret q /\
    (exists s,
        __add__ p (Bivariate q) = ret s /\
        deg1 s = Z.max (deg1 p) (deg1 q) /\
        deg2 s = Z.max (deg2 p) (deg2 q) /\
        forall x1 x2,
          __call__ s x1 x2 = __call__ p x1 x2 + __call__ q x1 x2) /\
    (exists d,
        __sub__ p (Bivariate q) = ret d /\
        deg1 d = Z.max (deg1 p) (deg1 q) /\
        deg2 d = Z.max (deg2 p) (deg2 q) /\
        forall x1 x2,
          __call__ d x1 x2 = __call__ p x1 x2 - __call__ q x1 x2) /\
    (forall c, exists s,
        __add__ p (Number c) = ret s /\
        forall x1 x2, __call__ s x1 x2 = __call__ p x1 x2 + c) /\
    (forall c, exists d,
        __sub__ p (Number c) = ret d /\
        forall x1 x2, __call__ d x1 x2 = __call__ p x1 x2 - c) /\
    (forall c, exists m,
        mul_number p c = ret m /\
        forall x1 x2, __call__ m x1 x2 = c * __call__ p x1 x2).
Proof.
  intros Ha Hb.
  destruct (coefficient_array_rows a Ha) as [Hane Harows].
  destruct (coefficient_array_rows b Hb) as [Hbne Hbrows].
  eexists _, _.
  split; [exact (init_returns a Harows) |].
  split; [exact (init_returns b Hbrows) |].
  split; [| split; [| split; [| split]]].
  - apply (bivariate_zip Rplus a b); try assumption; intros; ring.
  - apply (bivariate_zip Rminus a b); try assumption; intros; ring.
  - intros c. unfold __add__. cbn [coef].
    destruct a as [|[|a0 row] rows]; [congruence | |].
    + inversion Harows; congruence.
    + cbn [update_00]. rewrite bind_ret_l, init_returns.
      * eexists. split; [reflexivity |]. intros x1 x2.
        rewrite !call_eval. unfold eval2, polyval. cbn [foldr]. ring.
      * inversion Harows; subst. constructor; [discriminate | assumption].
  - intros c. unfold __sub__. cbn [coef].
    destruct a as [|[|a0 row] rows]; [congruence | |].
    + inversion Harows; congruence.
    + cbn [update_00]. rewrite bind_ret_l, init_returns.
      * eexists. split; [reflexivity |]. intros x1 x2.
        rewrite !call_eval. unfold eval2, polyval. cbn [foldr]. ring.
      * inversion Harows; subst. constructor; [discriminate | assumption].
  - intros c. unfold mul_number. cbn [coef]. rewrite init_returns.
    + eexists. split; [reflexivity |]. intros x1 x2.
      now rewrite !call_eval, eval2_scale.
    + unfold mat_map. apply Forall_fmap.
      eapply Forall_impl; [exact Harows |]. intros row Hrow. simpl.
      destruct row; [congruence | discriminate].
Qed.

(** The statement of [bivariate_arithmetic] for [1 + 2 x2 + 3 x1] and
    [x2^2]. *)
Lemma bivariate_arithmetic_witness :
  exists p q,
    __init__ [[1; 2]; [3; 0]] = ret p /\
    __init__ [[0; 0; 1]] = ret q /\
    (exists s,
        __add__ p (Bivariate q) = ret s /\
        deg1 s = Z.max (deg1 p) (deg1 q) /\
        deg2 s = Z.max (deg2 p) (deg2 q) /\
        forall x1 x2,
          __call__ s x1 x2 = __call__ p x1 x2 + __call__ q x1 x2) /\
    (exists d,
        __sub__ p (Bivariate q) = ret d /\
        deg1 d = Z.max (deg1 p) (deg1 q) /\
        deg2 d = Z.max (deg2 p) (deg2 q) /\
        forall x1 x2,
          __call__ d x1 x2 = __call__ p x1 x2 - __call__ q x1 x2) /\
    (forall c, exists s,
        __add__ p (Number c) = ret s /\
        forall x1 x2, __call__ s x1 x2 = __call__ p x1 x2 + c) /\
    (forall c, exists d,
        __sub__ p (Number c) = ret d /\
        forall x1 x2, __call__ d x1 x2 = __call__ p x1 x2 - c) /\
    (forall c, exists m,
        mul_number p c = ret m /\
        forall x1 x2, __call__ m x1 x2 = c * __call__ p x1 x2).
Proof.
  apply (bivariate_arithmetic [[1; 2]; [3; 0]] [[0; 0; 1]]).
  - split; [repeat constructor | discriminate].
  - split; [repeat constructor | discriminate].
Defined.

(** X18.  A [BivariatePolynomial] constructed from a coefficient array
    [a] takes at [(x1, x2)] the value of the sum of the
    [a[k, l] * x1^k * x2^l]; the polynomial that [outer_bivar] makes of
    two polynomials takes the value [pol1(x1) * pol2(x2)]; and the
    constructor raises [ValueError] on an array that has rows but no
    column. *)
Theorem bivariate_evaluation (a : matrix) (pol1 pol2 : list R) :
  (Forall (fun row => row <> []) a ->
   exists p,
     __init__ a = ret p /\
     forall x1 x2,
       __call__ p x1 x2
       = sum_list
           (imap (fun k row =>
                    sum_list (imap (fun l c => c * x1 ^ k * x2 ^ l) row))
              a)) /\
  (pol1 <> [] -> pol2 <> [] ->
   exists p,
     outer_bivar pol1 pol2 = ret p /\
     forall x1 x2,
       __call__ p x1 x2 = polyval pol1 x1 * polyval pol2 x2) /\
  (forall rows, a = [] :: rows ->
     __init__ a = ([], Raise "ValueError: Coefficient array is empty")).
Proof.
  split; [| split].
  - intros Hrows. eexists. split; [exact (init_returns a Hrows) |].
    intros x1 x2. rewrite call_eval. apply eval2_monomials.
  - intros H1 H2. unfold outer_bivar. cbv zeta. rewrite init_returns.
    + eexists. split; [reflexivity |]. intros x1 x2.
      rewrite call_eval. apply eval2_outer.
    + unfold np_outer. apply Forall_fmap, Forall_forall. intros c _. simpl.
      destruct pol2; [congruence | discriminate].
  - intros rows ->. unfold __init__. cbv zeta.
    replace (Z.to_nat (Z.of_nat (nrows ([] :: rows)) - 1 + 1))
      with (S (length rows)) by (unfold nrows; simpl; lia).
    reflexivity.
Qed.

(** The statement of [bivariate_evaluation] for the polynomials [1 + x]
    and [2 - x + x^2]. *)
Lemma bivariate_evaluation_witness :
  exists p,
    outer_bivar [1; 1] [2; -1; 1] = ret p /\
    forall x1 x2,
      __call__ p x1 x2 = polyval [1; 1] x1 * polyval [2; -1; 1] x2.
Proof.
  apply (proj1 (proj2 (bivariate_evaluation [] [1; 1] [2; -1; 1])));
    discriminate.
Defined.

Lemma insert_sorted_perm (a : R) (l : list R) : insert_sorted a l ≡ₚ a :: l.
Proof.
  induction l as [|b l IH]; [reflexivity |].
  cbn [insert_sorted]. destruct (bool_decide (a <= b)); [reflexivity |].
  rewrite IH. apply Permutation_swap.
Qed.

Lemma np_sort_perm (v : list R) : np_sort v ≡ₚ v.
Proof.
  induction v as [|a v IH]; [reflexivity |].
  unfold np_sort in *. cbn [foldr]. now rewrite insert_sorted_perm, IH.
Qed.

Lemma insert_sorted_ascending (a : R) (l : list R) :
  ascending l -> ascending (insert_sorted a l).
Proof.
  induction l as [|b l IH]; intros Hl.
  - cbn. split; [constructor | exact I].
  - cbn [insert_sorted]. destruct Hl as [Hb Hl].
    destruct (bool_decide (a <= b)) eqn:Hab.
    + apply bool_decide_eq_true in Hab. split; [| split; assumption].
      constructor; [exact Hab |].
      eapply Forall_impl; [exact Hb |]. intros c Hc. simpl in *. lra.
    + apply bool_decide_eq_false in Hab. split; [| now apply IH].
      rewrite insert_sorted_perm. constructor; [lra | exact Hb].
Qed.

Lemma np_sort_ascending (v : list R) : ascending (np_sort v).
Proof.
  induction v as [|a v IH]; [exact I |].
  unfold np_sort in *. cbn [foldr]. now apply insert_sorted_ascending.
Qed.

Lemma ascending_unique (l1 l2 : list R) :
  ascending l1 -> ascending l2 -> l1 ≡ₚ l2 -> l1 = l2.
Proof.
  revert l2. induction l1 as [|a l1 IH]; intros l2 H1 H2 Hp.
  - now apply Permutation_nil_l in Hp.
  - destruct l2 as [|b l2]; [now apply Permutation_nil_r in Hp |].
    destruct H1 as [Ha H1]. destruct H2 as [Hb H2].
    assert (Hab : a = b).
    { assert (Hin1 : a ∈ b :: l2) by (rewrite <- Hp; apply list_elem_of_here).
      assert (Hin2 : b ∈ a :: l1) by (rewrite Hp; apply list_elem_of_here).
      apply elem_of_cons in Hin1 as [-> | Hin1]; [reflexivity |].
      apply elem_of_cons in Hin2 as [-> | Hin2]; [reflexivity |].
      rewrite Forall_forall in Ha, Hb.
      pose proof (Ha b Hin2). pose proof (Hb a Hin1). lra. }
    subst b. f_equal. apply IH; try assumption.
    now apply Permutation_cons_inv in Hp.
Qed.

Lemma ascending_lookup (l : list R) (i j : nat) (a b : R) :
  ascending l -> (i <= j)%nat -> l !! i = Some a -> l !! j = Some b -> a <= b.
Proof.
  revert i j. induction l as [|c l IH]; intros i j Hl Hij Hi Hj;
    [discriminate |].
  destruct Hl as [Hc Hl]. destruct i as [|i], j as [|j]; try lia.
  - cbn in Hi, Hj. assert (a = b) by congruence. lra.
  - cbn in Hi, Hj. inversion Hi; subst c.
    rewrite Forall_lookup in Hc. exact (Hc j b Hj).
  - cbn in Hi, Hj. apply (IH i j); try assumption. lia.
Qed.

(** An argsort lists the sorted entries. *)
Lemma argsort_sorts (x : list R) (order : list nat) :
  is_argsort x order -> map (item x) order = np_sort x.
Proof.
  intros [Hperm Hasc]. apply ascending_unique.
  - exact Hasc.
  - apply np_sort_ascending.
  - rewrite np_sort_perm. rewrite <- (map_item_seq x) at 2.
    now apply Permutation_map.
Qed.

Lemma argsort_indices (x : list R) (order : list nat) :
  order ≡ₚ seq 0 (length x) ->
  length order = length x /\ NoDup order /\
  Forall (fun k => (k < length x)%nat) order /\
  forall k, (k < length x)%nat -> exists i, order !! i = Some k.
Proof.
  intros Hperm. split; [| split; [| split]].
  - now rewrite Hperm, length_seq.
  - rewrite Hperm. apply NoDup_seq.
  - rewrite Hperm. apply Forall_forall. intros k Hk.
    apply elem_of_seq in Hk. lia.
  - intros k Hk. apply list_elem_of_lookup. rewrite Hperm.
    apply elem_of_seq. lia.
Qed.

Lemma setitem_in_range (l : list R) (i : nat) (v : R) :
  (i < length l)%nat -> setitem l i v = ret (<[i := v]> l).
Proof.
  intros Hi. unfold setitem.
  now rewrite (proj2 (Nat.ltb_lt _ _) Hi).
Qed.

Lemma getitem_lookup {A} (l : list A) (i : nat) (a : A) :
  l !! i = Some a -> getitem l i = ret a.
Proof. intros H. unfold getitem. now rewrite H. Qed.

(** The loop of [ecdf]: position [order[i]] receives the value [c i]. *)
Lemma ecdf_loop (order : list nat) (n : nat) (c : nat -> R) :
  NoDup order -> Forall (fun k => (k < n)%nat) order ->
  forall m j e,
    (j + m <= length order)%nat -> length e = n ->
    (forall i k, (i < j)%nat -> order !! i = Some k -> e !! k = Some (c i)) ->
    exists e',
      for_each (fun ecdf_val i_order =>
                  n_order <- getitem order i_order ;;
                  setitem ecdf_val n_order (c i_order))
        (seq j m) e = ret e' /\
      length e' = n /\
      forall i k, (i < j + m)%nat -> order !! i = Some k ->
                  e' !! k = Some (c i).
Proof.
  intros Hnd Hlt. induction m as [|m IH]; intros j e Hjm Hlen Hinv.
  - exists e. split; [reflexivity |]. split; [exact Hlen |].
    intros i k Hi. apply Hinv. lia.
  - cbn [seq for_each].
    destruct (lookup_lt_is_Some_2 order j) as [k Hk]; [lia |].
    assert (Hkn : (k < n)%nat).
    { rewrite Forall_lookup in Hlt. exact (Hlt j k Hk). }
    rewrite (getitem_lookup _ _ _ Hk), bind_ret_l.
    rewrite setitem_in_range, bind_ret_l by lia.
    destruct (IH (S j) (<[k := c j]> e)) as (e' & He' & Hlen' & Hinv').
    + lia.
    + now rewrite length_insert.
    + intros i k' Hi Hk'. destruct (Nat.eq_dec i j) as [-> | Hne].
      * assert (k' = k) by congruence. subst k'.
        apply list_lookup_insert_eq. lia.
      * rewrite list_lookup_insert_ne.
        -- apply Hinv; [lia | exact Hk'].
        -- intros ->. apply Hne.
           exact (NoDup_lookup order i j k' Hnd Hk' Hk).
    + exists e'. split; [exact He' |]. split; [exact Hlen' |].
      intros i k' Hi. apply Hinv'. lia.
Qed.

(** X19.  When [np.argsort] returns the indices of [x] in an order in
    which its entries increase, [ecdf] returns an array of the size [n]
    of [x] that holds [(i + 1) / n] at the index that comes in place [i]
    of that order.  Its entries lie between [1 / n] and [1], they are
    all different, also where entries of [x] are equal, and a larger
    entry of [x] has a larger value. *)
Theorem ecdf_ranks (np_argsort : list R -> list nat) (x : list R) :
  is_argsort x (np_argsort x) ->
  exists e,
    ecdf np_argsort x = ret e /\
    length e = length x /\
    (forall i k, np_argsort x !! i = Some k ->
                 e !! k = Some ((INR i + 1) / INR (length x))) /\
    (forall k, (k < length x)%nat ->
               1 / INR (length x) <= item e k <= 1) /\
    (forall k l, (k < length x)%nat -> (l < length x)%nat ->
                 item x k < item x l -> item e k < item e l) /\
    (forall k l, (k < length x)%nat -> (l < length x)%nat ->
                 k <> l -> item e k <> item e l).
Proof.
  intros [Hperm Hasc]. set (n := length x).
  destruct (argsort_indices x _ Hperm) as (Hlen & Hnd & Hlt & Hsurj).
  fold n in Hlen, Hlt, Hsurj.
  destruct (ecdf_loop (np_argsort x) n (fun i => (INR i + 1) / INR n)
              Hnd Hlt (length (np_argsort x)) 0%nat (np_zeros n))
    as (e & He & Hlene & Hinv).
  { lia. }
  { apply length_replicate. }
  { intros i k Hi. lia. }
  assert (Hval : forall k, (k < n)%nat ->
             exists i, (i < n)%nat /\ np_argsort x !! i = Some k /\
                       item e k = (INR i + 1) / INR n).
  { intros k Hk. destruct (Hsurj k Hk) as [i Hi].
    pose proof (lookup_lt_Some _ _ _ Hi) as Hin.
    exists i. split; [lia |]. split; [exact Hi |].
    unfold item. rewrite (Hinv i k) by (try assumption; lia). reflexivity. }
  assert (Hpos : forall k, (k < n)%nat -> 0 < INR n).
  { intros k Hk. apply lt_0_INR. lia. }
  exists e. split; [exact He |]. split; [exact Hlene |].
  split; [| split; [| split]].
  - intros i k Hi. apply Hinv; [| exact Hi].
    apply lookup_lt_Some in Hi. lia.
  - intros k Hk. destruct (Hval k Hk) as (i & Hi & _ & ->).
    pose proof (Hpos k Hk) as Hn. pose proof (pos_INR i) as H0.
    assert (H1 : INR i + 1 <= INR n).
    { rewrite <- S_INR. apply le_INR. lia. }
    split.
    + apply Rmult_le_compat_r; [| lra]. left. now apply Rinv_0_lt_compat.
    + apply (Rmult_le_reg_r (INR n)); [exact Hn |].
      unfold Rdiv. rewrite Rmult_assoc, Rinv_l by lra. lra.
  - intros k l Hk Hl Hxl.
    destruct (Hval k Hk) as (i & Hi & Hik & ->).
    destruct (Hval l Hl) as (j & Hj & Hjl & ->).
    pose proof (Hpos k Hk) as Hn.
    assert (Hij : (i < j)%nat).
    { destruct (Nat.lt_ge_cases i j) as [Hlt' | Hge]; [exact Hlt' |].
      exfalso.
      assert (Hle : item x l <= item x k).
      { apply (ascending_lookup (map (item x) (np_argsort x)) j i);
          try assumption; rewrite list_lookup_fmap.
        - now rewrite Hjl.
        - now rewrite Hik. }
      lra. }
    apply Rmult_lt_compat_r; [now apply Rinv_0_lt_compat |].
    apply lt_INR in Hij. lra.
  - intros k l Hk Hl Hne.
    destruct (Hval k Hk) as (i & Hi & Hik & ->).
    destruct (Hval l Hl) as (j & Hj & Hjl & ->).
    pose proof (Hpos k Hk) as Hn. intros Heq.
    apply (Rmult_eq_compat_r (INR n)) in Heq.
    unfold Rdiv in Heq. rewrite !Rmult_assoc, Rinv_l in Heq by lra.
    assert (Hij : i = j) by (apply INR_eq; lra).
    subst j. congruence.
Qed.

(** The statement of [ecdf_ranks] for the sample [[2; 1; 3]], sorted by
    the indices [[1; 0; 2]]. *)
Lemma ecdf_ranks_witness :
  exists e,
    ecdf (fun _ => [1; 0; 2]%nat) [2; 1; 3] = ret e /\
    length e = length [2; 1; 3] /\
    (forall i k, [1; 0; 2]%nat !! i = Some k ->
                 e !! k = Some ((INR i + 1) / INR (length [2; 1; 3]))) /\
    (forall k, (k < length [2; 1; 3])%nat ->
               1 / INR (length [2; 1; 3]) <= item e k <= 1) /\
    (forall k l, (k < length [2; 1; 3])%nat -> (l < length [2; 1; 3])%nat ->
                 item [2; 1; 3] k < item [2; 1; 3] l -> item e k < item e l) /\
    (forall k l, (k < length [2; 1; 3])%nat -> (l < length [2; 1; 3])%nat ->
                 k <> l -> item e k <> item e l).
Proof.
  apply (ecdf_ranks (fun _ => [1; 0; 2]%nat) [2; 1; 3]).
  split.
  - apply Permutation_swap.
  - cbn. repeat split; repeat constructor; lra.
Defined.

Lemma map_each_ret {A B : Type} (g : A -> py B) (f : A -> B) (l : list A) :
  Forall (fun a => g a = ret (f a)) l -> map_each g l = ret (map f l).
Proof.
  induction 1 as [|a l Ha Hl IH]; [reflexivity |].
  cbn [map_each map]. now rewrite Ha, bind_ret_l, IH, bind_ret_l.
Qed.

Lemma np_take_in_range (l : list R) (i : Z) :
  (0 <= i < Z.of_nat (length l))%Z -> np_take l i = ret (item l (Z.to_nat i)).
Proof.
  intros [H0 H1]. unfold np_take.
  rewrite (proj2 (Z.leb_le _ _) H0), (proj2 (Z.ltb_lt _ _) H1). reflexivity.
Qed.

(** The interpolation that ends [inv_ecdf], on a table [S]. *)
Lemma inv_ecdf_interpolation (S : list R) (nv : nat) (q : list R) :
  Forall (fun qi => (0 <= Zfloor (INR nv * qi))%Z /\
                    (Zfloor (INR nv * qi) + 1 < Z.of_nat (length S))%Z) q ->
  (let q_floor := map (fun qi => Zfloor (INR nv * qi)) q in
   lo <- map_each (np_take S) q_floor ;;
   hi <- map_each (fun k => np_take S (k + 1)) q_floor ;;
   lo' <- map_each (np_take S) q_floor ;;
   ret (zip_with Rplus lo
          (zip_with Rmult
             (zip_with (fun qi k => INR nv * qi - IZR k) q q_floor)
             (zip_with Rminus hi lo'))))
  = ret (map (fun qi =>
                let k := Zfloor (INR nv * qi) in
                item S (Z.to_nat k)
                + (INR nv * qi - IZR k)
                  * (item S (Z.to_nat (k + 1)) - item S (Z.to_nat k)))
           q).
Proof.
  intros Hq. cbv zeta.
  assert (Hlo : map_each (np_take S) (map (fun qi => Zfloor (INR nv * qi)) q)
                = ret (map (fun k => item S (Z.to_nat k))
                         (map (fun qi => Zfloor (INR nv * qi)) q))).
  { apply map_each_ret, Forall_fmap. eapply Forall_impl; [exact Hq |].
    intros qi [H0 H1]. simpl. apply np_take_in_range. lia. }
  assert (Hhi : map_each (fun k => np_take S (k + 1))
                  (map (fun qi => Zfloor (INR nv * qi)) q)
                = ret (map (fun k => item S (Z.to_nat (k + 1)))
                         (map (fun qi => Zfloor (INR nv * qi)) q))).
  { apply map_each_ret, Forall_fmap. eapply Forall_impl; [exact Hq |].
    intros qi [H0 H1]. simpl. apply np_take_in_range. lia. }
  rewrite Hlo, bind_ret_l, Hhi, !bind_ret_l.
  f_equal. clear.
  induction q as [|qi q IH]; [reflexivity |].
  cbn [map zip_with]. now rewrite IH.
Qed.

Lemma set_slice_zeros (n : nat) (vals : list R) :
  length vals = n -> set_slice (np_zeros (n + 2)) 1 vals = 0 :: vals ++ [0].
Proof.
  intros Hlen. unfold set_slice, np_zeros.
  replace (n + 2)%nat with (S (S n)) by lia.
  rewrite drop_replicate, Hlen.
  replace (S (S n) - (1 + n))%nat with 1%nat by lia. reflexivity.
Qed.

(** The table of [inv_ecdf]: the sorted sample between two sentinels,
    the first one extrapolated from the two smallest entries (the second
    of which is still the zero of [np.zeros] when the sample has one
    entry), the last one a copy of the largest entry. *)
Lemma inv_ecdf_table (x : list R) (q : list R) :
  x <> [] ->
  exists S,
    length S = (length x + 2)%nat /\
    (forall i, (i < length x)%nat -> S !! (Datatypes.S i) = np_sort x !! i) /\
    S !! 0%nat
    = Some (2 * item (np_sort x) 0 - item (np_sort x ++ [0]) 1) /\
    S !! (length x + 1)%nat = Some (item (np_sort x) (length x - 1)) /\
    inv_ecdf (Vector x) q
    = (let q_floor := map (fun qi => Zfloor (INR (length x) * qi)) q in
       lo <- map_each (np_take S) q_floor ;;
       hi <- map_each (fun k => np_take S (k + 1)) q_floor ;;
       lo' <- map_each (np_take S) q_floor ;;
       ret (zip_with Rplus lo
              (zip_with Rmult
                 (zip_with (fun qi k => INR (length x) * qi - IZR k)
                    q q_floor)
                 (zip_with Rminus hi lo')))).
Proof.
  intros Hne. set (n := length x).
  assert (Hsl : length (np_sort x) = n) by now rewrite np_sort_perm.
  assert (Hn : (0 < n)%nat) by (subst n; destruct x; simpl; [congruence | lia]).
  unfold inv_ecdf. cbn [ndim Nat.eqb negb np_size flat].
  rewrite bind_ret_l. cbv zeta. fold n.
  rewrite (set_slice_zeros n _ Hsl).
  set (S0 := 0 :: np_sort x ++ [0]).
  assert (HS0 : length S0 = (n + 2)%nat).
  { subst S0. cbn [length]. rewrite length_app, Hsl. simpl. lia. }
  destruct (lookup_lt_is_Some_2 S0 1) as [s1 Hs1]; [lia |].
  destruct (lookup_lt_is_Some_2 S0 2) as [s2 Hs2]; [lia |].
  rewrite (getitem_lookup _ _ _ Hs1), bind_ret_l.
  rewrite (getitem_lookup _ _ _ Hs2), bind_ret_l.
  rewrite setitem_in_range, bind_ret_l by lia.
  set (S1 := <[0%nat := 2 * s1 - s2]> S0).
  assert (HS1 : length S1 = (n + 2)%nat)
    by (subst S1; now rewrite length_insert).
  destruct (lookup_lt_is_Some_2 S1 n) as [snv Hsnv]; [lia |].
  rewrite (getitem_lookup _ _ _ Hsnv), bind_ret_l.
  rewrite setitem_in_range, bind_ret_l by lia.
  exists (<[(n + 1)%nat := snv]> S1).
  split; [now rewrite length_insert |].
  split; [| split; [| split; [| reflexivity]]].
  - intros i Hi. rewrite list_lookup_insert_ne by lia.
    subst S1. rewrite list_lookup_insert_ne by lia.
    subst S0. cbn [lookup list_lookup]. apply lookup_app_l. lia.
  - rewrite list_lookup_insert_ne by lia.
    subst S1. rewrite list_lookup_insert_eq by lia.
    subst S0.
    assert (H1 : item (np_sort x) 0 = s1).
    { unfold item. transitivity (default 0 (Some s1)); [| reflexivity].
      f_equal. rewrite <- (lookup_app_l (np_sort x) [0] 0) by lia.
      exact Hs1. }
    assert (H2 : item (np_sort x ++ [0]) 1 = s2).
    { unfold item. transitivity (default 0 (Some s2)); [| reflexivity].
      f_equal. exact Hs2. }
    now rewrite H1, H2.
  - rewrite list_lookup_insert_eq by lia.
    subst S1. rewrite list_lookup_insert_ne in Hsnv by lia.
    subst S0. destruct n as [|n'] eqn:En; [lia |].
    f_equal. unfold item. replace (S n' - 1)%nat with n' by lia.
    transitivity (default 0 (Some snv)); [reflexivity |].
    f_equal. rewrite <- (lookup_app_l (np_sort x) [0] n') by lia.
    symmetry. exact Hsnv.
Qed.

(** A traversal whose steps return or raise one same exception, without
    output, raises it as soon as one step does. *)
Lemma map_each_raise {A B : Type} (g : A -> py B) (exc : string)
  (l : list A) :
  Forall (fun a => (exists b, g a = ret b) \/ g a = ([], Raise exc)) l ->
  ((exists bs, map_each g l = ret bs) /\
   Forall (fun a => exists b, g a = ret b) l) \/
  map_each g l = ([], Raise exc).
Proof.
  induction 1 as [|a l Ha Hl IH]; [left; split; [now exists [] | constructor] |].
  cbn [map_each]. destruct Ha as [[b Hb] | Hr].
  - rewrite Hb, bind_ret_l.
    destruct IH as [[[bs Hbs] Hall] | Hr'].
    + left. split.
      * exists (b :: bs). now rewrite Hbs, bind_ret_l.
      * constructor; [now exists b | exact Hall].
    + right. now rewrite Hr'.
  - right. now rewrite Hr.
Qed.

Lemma np_take_ret_or_raise (l : list R) (k : Z) :
  (exists b, np_take l k = ret b)
  \/ np_take l k = ([], Raise "IndexError: index out of bounds").
Proof.
  unfold np_take. cbv zeta.
  destruct ((0 <=? k)%Z && (k <? Z.of_nat (length l))%Z);
    [left; eexists; reflexivity |].
  destruct ((- Z.of_nat (length l) <=? k)%Z && (k <? 0)%Z);
    [left; eexists; reflexivity | right; reflexivity].
Qed.

Lemma np_take_beyond (l : list R) (k : Z) :
  (Z.of_nat (length l) <= k)%Z ->
  np_take l k = ([], Raise "IndexError: index out of bounds").
Proof.
  intros Hk. unfold np_take. cbv zeta.
  rewrite (proj2 (Z.ltb_ge _ _) Hk), andb_false_r.
  replace (k <? 0)%Z with false by (symmetry; apply Z.ltb_ge; lia).
  now rewrite andb_false_r.
Qed.

(** The ends of the sorted sample are its smallest and largest entries. *)
Lemma np_sort_ends (x : list R) :
  x <> [] ->
  item (np_sort x) 0 ∈ x /\ item (np_sort x) (length x - 1) ∈ x /\
  forall a, a ∈ x -> item (np_sort x) 0 <= a <= item (np_sort x) (length x - 1).
Proof.
  intros Hne. set (n := length x).
  assert (Hsl : length (np_sort x) = n) by now rewrite np_sort_perm.
  assert (Hn : (0 < n)%nat) by (subst n; destruct x; simpl; [congruence | lia]).
  destruct (lookup_lt_is_Some_2 (np_sort x) 0) as [m Hm]; [lia |].
  destruct (lookup_lt_is_Some_2 (np_sort x) (n - 1)) as [t Ht]; [lia |].
  unfold item. rewrite Hm, Ht. cbn [default from_option Datatypes.id].
  split; [| split].
  - rewrite <- (np_sort_perm x). eapply list_elem_of_lookup_2. exact Hm.
  - rewrite <- (np_sort_perm x). eapply list_elem_of_lookup_2. exact Ht.
  - intros a Ha. rewrite <- (np_sort_perm x) in Ha.
    apply list_elem_of_lookup in Ha as [i Hi].
    pose proof (lookup_lt_Some _ _ _ Hi) as Hlt.
    pose proof (np_sort_ascending x) as Hasc. split.
    + apply (ascending_lookup (np_sort x) 0 i); try assumption. lia.
    + apply (ascending_lookup (np_sort x) i (n - 1)); try assumption. lia.
Qed.

(** X20.  The ends of the scale of [inv_ecdf], for a sample [v] that is
    not empty and [s = np.sort(v)].  At the level [1], [inv_ecdf]
    returns the largest entry of [v].  At the level [0] it returns
    [2 * s[0] - s[1]], which is not above the smallest entry (and is
    [2 * s[0]] for a sample of one entry, whose table still holds a
    zero of [np.zeros] at that place).  A level of [2] or more raises
    [IndexError].  On an empty sample [inv_ecdf] raises [IndexError],
    whatever the levels, and on an array that is not 1-d it aborts. *)
Theorem inv_ecdf_endpoints (v : npval) (q : list R) :
  (forall x, v = Vector x -> x <> [] ->
     let s := np_sort x in
     let n := length x in
     inv_ecdf v [1] = ret [item s (n - 1)] /\
     item s (n - 1) ∈ x /\
     (forall a, a ∈ x -> item s 0 <= a <= item s (n - 1)) /\
     (n = 1%nat -> inv_ecdf v [0] = ret [2 * item s 0]) /\
     ((2 <= n)%nat ->
      inv_ecdf v [0] = ret [2 * item s 0 - item s 1] /\
      2 * item s 0 - item s 1 <= item s 0) /\
     (Exists (fun qi => 2 <= qi) q ->
      inv_ecdf v q = ([], Raise "IndexError: index out of bounds"))) /\
  (v = Vector [] ->
   inv_ecdf v q = ([], Raise "IndexError: index out of bounds")) /\
  (ndim v <> 1%nat ->
   inv_ecdf v q
   = ([], Abort ("v should have 1 dimension, not "
                 ++ pystr (Z.of_nat (ndim v))))).
Proof.
  split; [| split].
  - intros x -> Hne s n.
    assert (Hsl : length s = n) by (subst s n; now rewrite np_sort_perm).
    assert (Hn : (0 < n)%nat)
      by (subst n; destruct x; simpl; [congruence | lia]).
    destruct (np_sort_ends x Hne) as (Hmin & Hmax & Hbounds).
    fold s n in Hmin, Hmax, Hbounds.
    assert (Hzero : inv_ecdf (Vector x) [0]
                    = ret [2 * item s 0 - item (s ++ [0]) 1]).
    { destruct (inv_ecdf_table x [0] Hne) as (tab & Hlen & _ & Hlow & _ & ->).
      fold n s in Hlen, Hlow |- *.
      assert (Hfl : Zfloor (INR n * 0) = 0%Z)
        by (rewrite Rmult_0_r; exact (ZfloorZ 0)).
      rewrite inv_ecdf_interpolation
        by (constructor; [rewrite Hfl, Hlen; lia | constructor]).
      cbn [map]. cbv zeta. rewrite Hfl. f_equal. f_equal.
      change (Z.to_nat 0) with 0%nat.
      rewrite Rmult_0_r, Rminus_diag, Rmult_0_l, Rplus_0_r.
      unfold item at 1. now rewrite Hlow. }
    split; [| split; [exact Hmax | split; [exact Hbounds |]]].
    { destruct (inv_ecdf_table x [1] Hne) as (tab & Hlen & Hmid & _ & _ & ->).
      fold n s in Hlen, Hmid |- *.
      assert (Hfl : Zfloor (INR n * 1) = Z.of_nat n)
        by (rewrite Rmult_1_r, INR_IZR_INZ; apply ZfloorZ).
      rewrite inv_ecdf_interpolation
        by (constructor; [rewrite Hfl, Hlen; lia | constructor]).
      cbn [map]. cbv zeta. rewrite Hfl, Nat2Z.id. f_equal. f_equal.
      rewrite Rmult_1_r, <- INR_IZR_INZ, Rminus_diag, Rmult_0_l, Rplus_0_r.
      unfold item. destruct n as [|n']; [lia |].
      rewrite (Hmid n') by lia. now replace (S n' - 1)%nat with n' by lia. }
    split; [| split].
    + intros Hn1. rewrite Hzero. f_equal. f_equal.
      assert (Hs1 : (s ++ [0]) !! 1%nat = Some 0).
      { rewrite lookup_app_r by lia. now rewrite Hsl, Hn1. }
      unfold item at 2. rewrite Hs1. cbn [default from_option Datatypes.id].
      lra.
    + intros Hn2.
      assert (Hs1 : item (s ++ [0]) 1 = item s 1).
      { unfold item. now rewrite lookup_app_l by lia. }
      rewrite Hzero, Hs1. split; [reflexivity |].
      destruct (lookup_lt_is_Some_2 s 0) as [m1 Hm1]; [lia |].
      destruct (lookup_lt_is_Some_2 s 1) as [m2 Hm2]; [lia |].
      assert (Hle : m1 <= m2).
      { apply (ascending_lookup s 0 1); try assumption; [| lia].
        apply np_sort_ascending. }
      unfold item. rewrite Hm1, Hm2. cbn [default from_option Datatypes.id].
      lra.
    + intros Hex. apply Exists_exists in Hex as (qi & Hqi & Hbig).
      destruct (inv_ecdf_table x q Hne) as (tab & Hlen & _ & _ & _ & ->).
      fold n in Hlen |- *. cbv zeta.
      set (qf := map (fun qi => Zfloor (INR n * qi)) q).
      assert (Hk : (Z.of_nat n + 1 <= Zfloor (INR n * qi))%Z).
      { apply Zfloor_lub. rewrite plus_IZR, <- INR_IZR_INZ.
        assert (1 <= INR n) by (apply (le_INR 1); lia). nra. }
      assert (Hin : Zfloor (INR n * qi) ∈ qf).
      { subst qf. now apply (list_elem_of_fmap_2 (fun qi => Zfloor (INR n * qi))). }
      destruct (map_each_raise (np_take tab)
                  "IndexError: index out of bounds" qf)
        as [[[lo Hlo] _] | Hr].
      { apply Forall_forall. intros k _. apply np_take_ret_or_raise. }
      2:{ now rewrite Hr. }
      rewrite Hlo, bind_ret_l.
      destruct (map_each_raise (fun k => np_take tab (k + 1))
                  "IndexError: index out of bounds" qf)
        as [[_ Hall] | Hr].
      { apply Forall_forall. intros k _. apply np_take_ret_or_raise. }
      2:{ now rewrite Hr. }
      rewrite Forall_forall in Hall. destruct (Hall _ Hin) as [b Hb].
      rewrite np_take_beyond in Hb by (rewrite Hlen; lia). discriminate.
  - intros ->. reflexivity.
  - intros Hnd. unfold inv_ecdf.
    destruct v as [r | l | a]; cbn [ndim] in *; try congruence; reflexivity.
Qed.

(** The statement of [inv_ecdf_endpoints] for the sample [[2; 1; 3]] and
    the level [2]. *)
Lemma inv_ecdf_endpoints_witness :
  let s := np_sort [2; 1; 3] in
  let n := length [2; 1; 3] in
  inv_ecdf (Vector [2; 1; 3]) [1] = ret [item s (n - 1)] /\
  item s (n - 1) ∈ [2; 1; 3] /\
  (forall a, a ∈ [2; 1; 3] -> item s 0 <= a <= item s (n - 1)) /\
  (n = 1%nat -> inv_ecdf (Vector [2; 1; 3]) [0] = ret [2 * item s 0]) /\
  ((2 <= n)%nat ->
   inv_ecdf (Vector [2; 1; 3]) [0] = ret [2 * item s 0 - item s 1] /\
   2 * item s 0 - item s 1 <= item s 0) /\
  (Exists (fun qi => 2 <= qi) [2] ->
   inv_ecdf (Vector [2; 1; 3]) [2]
   = ([], Raise "IndexError: index out of bounds")).
Proof.
  apply (proj1 (inv_ecdf_endpoints (Vector [2; 1; 3]) [2]) [2; 1; 3]).
  - reflexivity.
  - discriminate.
Defined.

Lemma fill_slice_length (l : list R) (a b : nat) (c : R) :
  length (fill_slice l a b c) = length l.
Proof.
  unfold fill_slice. cbv zeta.
  rewrite !length_app, length_take, length_replicate, length_drop. lia.
Qed.

Lemma fill_slice_0_0 (l : list R) (c : R) : fill_slice l 0 0 c = l.
Proof. unfold fill_slice. cbv zeta. now rewrite !Nat.min_0_l. Qed.

Lemma fill_slice_at_end (l : list R) (a b : nat) (c : R) :
  (length l <= a)%nat -> fill_slice l a b c = l.
Proof.
  intros Ha. unfold fill_slice. cbv zeta.
  replace (Nat.min a (length l)) with (length l) by lia.
  replace (Nat.max (length l) (Nat.min b (length l))) with (length l) by lia.
  rewrite Nat.sub_diag, firstn_all, drop_all. cbn [replicate app].
  apply app_nil_r.
Qed.

Lemma slice_empty (l : list R) (a b : nat) : (b <= a)%nat -> slice l a b = [].
Proof.
  intros Hab. unfold slice. now replace (b - a)%nat with 0%nat by lia.
Qed.

Lemma map_sqrt_zeros (n : nat) : map sqrt (replicate n 0) = replicate n 0.
Proof.
  induction n as [|n IH]; [reflexivity |].
  cbn [replicate map]. now rewrite sqrt_0, IH.
Qed.

(** The number of neighbours of [rice_stderr] for small samples. *)
Lemma rice_neighbors (n : nat) :
  ((n < 4)%nat -> Z.to_nat (Zfloor (sqrt (INR n) / 2)) = 0%nat) /\
  ((4 <= n < 16)%nat -> Z.to_nat (Zfloor (sqrt (INR n) / 2)) = 1%nat) /\
  ((4 <= n)%nat -> (1 <= Z.to_nat (Zfloor (sqrt (INR n) / 2)))%nat).
Proof.
  assert (H2 : sqrt 4 = 2).
  { replace 4 with (2 * 2) by lra. apply sqrt_square. lra. }
  assert (H4 : sqrt 16 = 4).
  { replace 16 with (4 * 4) by lra. apply sqrt_square. lra. }
  pose proof (pos_INR n) as H0. pose proof (sqrt_pos (INR n)) as Hs.
  split; [| split].
  - intros Hn. rewrite (Zfloor_eq 0); [reflexivity |].
    assert (Hlt : sqrt (INR n) < sqrt 4).
    { apply sqrt_lt_1; [lra | lra |].
      apply lt_INR in Hn. simpl in Hn. lra. }
    simpl. lra.
  - intros [Hn Hn']. rewrite (Zfloor_eq 1); [reflexivity |].
    assert (Hge : sqrt 4 <= sqrt (INR n)).
    { apply sqrt_le_1; [lra | lra |].
      apply le_INR in Hn. simpl in Hn. lra. }
    assert (Hlt : sqrt (INR n) < sqrt 16).
    { apply sqrt_lt_1; [lra | lra |].
      apply lt_INR in Hn'. simpl in Hn'. lra. }
    simpl. lra.
  - intros Hn.
    assert (Hge : sqrt 4 <= sqrt (INR n)).
    { apply sqrt_le_1; [lra | lra |].
      apply le_INR in Hn. simpl in Hn. lra. }
    assert (Hz : (1 <= Zfloor (sqrt (INR n) / 2))%Z).
    { apply Zfloor_lub. simpl. lra. }
    lia.
Qed.

(** The observations of [rice_stderr], in the order in which it uses
    them. *)
Lemma rice_ys (np_argsort : list R -> list nat) (lx ly : list R)
  (sorted : bool) :
  length ly = length lx ->
  (sorted = false -> np_argsort lx ≡ₚ seq 0 (length lx)) ->
  exists ys,
    (if negb sorted
     then map_each (getitem ly) (np_argsort lx)
     else ret ly) = ret ys /\
    length ys = length lx.
Proof.
  intros Hlen Hperm. destruct sorted; cbn [negb].
  - exists ly. split; [reflexivity | exact Hlen].
  - specialize (Hperm eq_refl).
    destruct (argsort_indices lx _ Hperm) as (Hlo & _ & Hlt & _).
    exists (map (item ly) (np_argsort lx)). split.
    + apply map_each_ret.
      eapply Forall_impl; [exact Hlt |]. intros k Hk. simpl in Hk.
      apply getitem_item. lia.
    + now rewrite length_map.
Qed.

(** X21.  [rice_stderr] aborts when [x] or [y] is not 1-d and when
    their sizes differ.  On samples of fewer than 4 observations it
    raises [ZeroDivisionError], the number of neighbours being zero; on
    samples of 4 to 15 observations it returns zeros only, whatever the
    data; and on every sample of at least 4 observations it returns an
    array of the size of the sample. *)
Theorem rice_stderr_small_samples (np_argsort : list R -> list nat)
  (y x : npval) (sorted : bool) :
  (ndim x <> 1%nat \/ ndim y <> 1%nat ->
   exists msg, rice_stderr np_argsort y x sorted = ([], Abort msg)) /\
  (ndim x = 1%nat -> ndim y = 1%nat -> np_size y <> np_size x ->
   rice_stderr np_argsort y x sorted
   = ([], Abort "x and y should have the same size")) /\
  (forall lx ly,
     x = Vector lx -> y = Vector ly -> length ly = length lx ->
     (sorted = false -> np_argsort lx ≡ₚ seq 0 (length lx)) ->
     ((length lx < 4)%nat ->
      rice_stderr np_argsort y x sorted
      = ([], Raise "ZeroDivisionError: float division by zero")) /\
     ((4 <= length lx < 16)%nat ->
      rice_stderr np_argsort y x sorted = ret (replicate (length lx) 0)) /\
     ((4 <= length lx)%nat ->
      exists r, rice_stderr np_argsort y x sorted = ret r /\
                length r = length lx)).
Proof.
  split; [| split].
  - intros Hnd. unfold rice_stderr, test_vector.
    destruct x as [rx | lx | ax]; cbn [ndim] in *;
      try (eexists; reflexivity).
    destruct y as [ry | ly | ay]; cbn [ndim] in *;
      try (eexists; reflexivity).
    destruct Hnd; congruence.
  - intros Hx Hy Hne. unfold rice_stderr, test_vector.
    rewrite Hx, Hy. cbn [Nat.eqb negb]. rewrite !bind_ret_l.
    now rewrite (proj2 (Nat.eqb_neq _ _) Hne).
  - intros lx ly -> -> Hlen Hperm.
    destruct (rice_ys np_argsort lx ly sorted Hlen Hperm)
      as (ys & Hys & Hlys).
    destruct (rice_neighbors (length lx)) as (Hn0 & Hn1 & Hn2).
    assert (Hrun : forall k : py (list R),
               rice_stderr np_argsort (Vector ly) (Vector lx) sorted
               = (let n := length lx in
                  let variance_estimator := np_zeros n in
                  let n_neighbors := Z.to_nat (Zfloor (sqrt (INR n) / 2)) in
                  facd <- (if (n_neighbors =? 0)%nat
                           then raise "ZeroDivisionError: float division by zero"
                           else ret (1 / (2 * INR n_neighbors))) ;;
                  let n_neighbors2 := (n_neighbors / 2)%nat in
                  let yleft := slice ys 0 n_neighbors2 in
                  let dy := diff yleft in
                  let variance_estimator :=
                    fill_slice variance_estimator 0 n_neighbors2
                      (sum_list (zip_with Rmult dy dy) * facd) in
                  let minus_nn2 := (n - n_neighbors2)%nat in
                  variance_estimator <-
                    for_each
                      (fun variance_estimator ix =>
                         let yx := slice ys (ix - n_neighbors2)
                                     (ix + n_neighbors2) in
                         let dy := diff yx in
                         setitem variance_estimator ix
                           (sum_list (zip_with Rmult dy dy) * facd))
                      (seq n_neighbors2 (minus_nn2 - n_neighbors2))
                      variance_estimator ;;
                  let yright := slice ys minus_nn2 (length ys) in
                  let dy := diff yright in
                  let variance_estimator :=
                    fill_slice variance_estimator minus_nn2
                      (length variance_estimator)
                      (sum_list (zip_with Rmult dy dy) * facd) in
                  ret (map sqrt variance_estimator))).
    { intros _. unfold rice_stderr, test_vector.
      cbn [ndim Nat.eqb negb np_size flat]. rewrite !bind_ret_l.
      rewrite Hlen, Nat.eqb_refl. cbn [negb]. rewrite bind_ret_l.
      cbv zeta. rewrite Hys, bind_ret_l. reflexivity. }
    rewrite (Hrun (ret [])). clear Hrun. cbv zeta.
    split; [| split].
    + intros Hn. rewrite (Hn0 Hn). reflexivity.
    + intros Hn. rewrite (Hn1 Hn). change (1 / 2)%nat with 0%nat.
      cbn [Nat.eqb]. rewrite bind_ret_l, fill_slice_0_0, !Nat.sub_0_r.
      match goal with
      | |- context [for_each ?body ?range ?s0] =>
          destruct (for_each_invariant
                      (fun s : list R => s = replicate (length lx) 0)
                      body range s0) as (s & Hs & ->)
      end.
      * intros s ix Hix ->. apply elem_of_seq in Hix.
        rewrite setitem_in_range by (rewrite length_replicate; lia).
        eexists. split; [reflexivity |].
        rewrite (slice_empty ys (ix - 0) (ix + 0)) by lia.
        unfold diff, sum_list. cbn [drop removelast zip_with foldr].
        rewrite Rmult_0_l. apply list_eq. intros j.
        destruct (Nat.eq_dec j ix) as [-> | Hne].
        -- rewrite list_lookup_insert_eq by (rewrite length_replicate; lia).
           symmetry. apply lookup_replicate_2. lia.
        -- now rewrite list_lookup_insert_ne by congruence.
      * reflexivity.
      * rewrite Hs, bind_ret_l. f_equal.
        rewrite fill_slice_at_end by (rewrite length_replicate; lia).
        apply map_sqrt_zeros.
    + intros Hn. specialize (Hn2 Hn).
      set (nn := Z.to_nat (Zfloor (sqrt (INR (length lx)) / 2))) in *.
      rewrite (proj2 (Nat.eqb_neq nn 0)) by lia. rewrite bind_ret_l.
      set (facd := 1 / (2 * INR nn)).
      set (v0 := fill_slice _ 0 (nn / 2) _).
      assert (Hv0 : length v0 = length lx).
      { subst v0. rewrite fill_slice_length. apply length_replicate. }
      destruct (for_each_invariant
                  (fun s : list R => length s = length lx)
                  (fun variance_estimator ix =>
                     setitem variance_estimator ix
                       (sum_list
                          (zip_with Rmult
                             (diff (slice ys (ix - nn / 2) (ix + nn / 2)))
                             (diff (slice ys (ix - nn / 2) (ix + nn / 2))))
                        * facd))
                  (seq (nn / 2) (length lx - nn / 2 - nn / 2)) v0)
        as (s & Hs & Hls).
      * intros s ix Hix Hl. apply elem_of_seq in Hix.
        rewrite setitem_in_range by lia.
        eexists. split; [reflexivity |]. now rewrite length_insert.
      * exact Hv0.
      * rewrite Hs, bind_ret_l. eexists. split; [reflexivity |].
        now rewrite length_map, fill_slice_length.
Qed.

(** The statement of [rice_stderr_small_samples] for five observations
    already sorted. *)
Lemma rice_stderr_small_samples_witness :
  rice_stderr (fun _ => []) (Vector [3; 1; 4; 1; 5])
    (Vector [0; 1; 2; 3; 4]) true
  = ret (replicate (length [0; 1; 2; 3; 4]) 0).
Proof.
  apply (proj1 (proj2
           (proj2 (proj2 (rice_stderr_small_samples (fun _ => [])
                            (Vector [3; 1; 4; 1; 5])
                            (Vector [0; 1; 2; 3; 4]) true))
              [0; 1; 2; 3; 4] [3; 1; 4; 1; 5] eq_refl eq_refl eq_refl
              (fun H => ltac:(discriminate H))))).
  cbn [length]. lia.
Defined.

(** X22.  Without nodes, [gaussian_expectation] does what it does with
    the nodes and the weights of [gauher(n)]: the argument [w] is then
    ignored, whatever its size, and so is [n] when the nodes are
    given. *)
Theorem gaussian_expectation_default_nodes {P : Type} (f : @callable P)
  (vectorized : bool) (pars : option P) (n : nat) (w : option (list R)) :
  exists x0 w0,
    gauher n = ret (x0, w0) /\
    length x0 = n /\ length w0 = n /\
    (forall n',
       gaussian_expectation f vectorized pars n None w
       = gaussian_expectation f vectorized pars n' (Some x0) (Some w0)).
Proof.
  destruct (gauher_mirrored n) as (x0 & w0 & Hg & Hlx & Hlw & _ & _).
  exists x0, w0. split; [exact Hg |]. split; [exact Hlx |].
  split; [exact Hlw |].
  set (nodes := map (fun v => v * sqrt 2) x0).
  set (weights := map (fun v => v / sqrt PI) w0).
  assert (Hln : length nodes = n).
  { subst nodes. now rewrite length_map. }
  assert (Hdef : gaussian_expectation f vectorized pars n None w
                 = if vectorized then matmul (f (Vector nodes) pars) weights
                   else elementwise (fun v => f v pars) nodes weights
                          (length nodes)).
  { unfold gaussian_expectation. rewrite Hg, bind_ret_l.
    cbn [fst snd]. fold nodes weights. rewrite bind_ret_l.
    cbn [fst snd]. rewrite Hln. now destruct pars, vectorized. }
  intros n'. rewrite Hdef. unfold gaussian_expectation.
  rewrite Hlw, Hlx, Nat.eqb_refl. cbn [negb]. rewrite bind_ret_l.
  cbn [fst snd]. fold nodes weights. now destruct pars, vectorized.
Qed.

Lemma progress_lines_cons (prefix : string) (j m : nat) :
  progress_lines prefix j (S m)
  = (if (j mod 50 =? 0)%nat
     then [PrintText (prefix ++ pystr (Z.of_nat j))] else [])
    ++ progress_lines prefix (S j) m.
Proof.
  unfold progress_lines. cbn [seq]. rewrite filter_cons.
  destruct (Nat.eqb_spec (j mod 50) 0) as [He | Hne].
  - now rewrite decide_True by exact He.
  - now rewrite decide_False by exact Hne.
Qed.

(** Resampling a square array gives a square array, without output. *)
Lemma resample_ret (n : nat) (M : matrix) (draws : list nat) :
  square n M -> Forall (fun d => (d < n)%nat) draws ->
  exists M', resample M draws = ret M' /\ square (length draws) M'.
Proof.
  intros [Hn Hrows] Hdraws. unfold resample.
  set (row_of := fun d : nat => default [] (M !! d)).
  set (pick := fun row : list R => map (item row) draws).
  exists (map pick (map row_of draws)). split.
  - rewrite (map_each_ret (getitem M) row_of).
    2:{ eapply Forall_impl; [exact Hdraws |]. intros d Hd. simpl in Hd.
        apply getitem_lookup. subst row_of. simpl.
        apply lookup_default. lia. }
    rewrite bind_ret_l. apply map_each_ret.
    apply Forall_fmap. eapply Forall_impl; [exact Hdraws |].
    intros d Hd. simpl in Hd. simpl.
    apply (map_each_ret _ (item (row_of d))).
    eapply Forall_impl; [exact Hdraws |]. intros d' Hd'. simpl in Hd'.
    apply getitem_item.
    assert (Hlen : length (row_of d) = n).
    { rewrite Forall_lookup in Hrows. apply (Hrows d).
      subst row_of. apply lookup_default. lia. }
    lia.
  - split; [now rewrite !length_map |].
    apply Forall_fmap, Forall_fmap, Forall_forall. intros d _. simpl.
    subst pick. simpl. now rewrite length_map.
Qed.

Lemma bind_print_if {A} (c : bool) (e : event) (a : A) :
  ((if c then print e else ret tt) ;;; ret a)
  = ((if c then [e] else []), Return a).
Proof. now destruct c. Qed.

Lemma bind_trace {A B} (t t' : list event) (a : A) (k : A -> py B)
  (r : outcome B) :
  k a = (t', r) -> bind (t, Return a) k = (t ++ t', r).
Proof. intros H. unfold bind. now rewrite H. Qed.

(** One draw of the bootstrap of [pvalue_dcov]. *)
Lemma dcov_bootstrap_iter_run (n : nat) (X Y : matrix) (u : bool)
  (s : list R * rng) (idraw : nat) :
  square n X -> square n Y ->
  exists v,
    dcov_bootstrap_iter X Y u n s idraw
    = ((if (idraw mod 50 =? 0)%nat
        then [PrintText ("    bootstrap draw " ++ pystr (Z.of_nat idraw))]
        else []),
       Return (<[idraw := v]> (fst s),
               mk_rng (tape (snd s)) (cursor (snd s) + n))).
Proof.
  intros HX HY. unfold dcov_bootstrap_iter. cbv zeta.
  destruct (random_choice_draws n (snd s)) as [Hl Hd].
  destruct (resample_ret n X _ HX Hd) as (X' & HX' & HsX).
  destruct (resample_ret n Y _ HY Hd) as (Y' & HY' & HsY).
  destruct (dcov_prod_square _ X' Y' u HsX HsY) as [v Hv].
  exists v. rewrite HX', bind_ret_l, HY', bind_ret_l, Hv, bind_ret_l.
  apply bind_print_if.
Qed.

Lemma dcov_bootstrap_loop (n : nat) (X Y : matrix) (u : bool) :
  square n X -> square n Y ->
  forall m j (s : list R * rng),
  exists boot,
    for_each (dcov_bootstrap_iter X Y u n) (seq j m) s
    = (progress_lines "    bootstrap draw " j m,
       Return (boot, mk_rng (tape (snd s)) (cursor (snd s) + n * m))) /\
    length boot = length (fst s).
Proof.
  intros HX HY. induction m as [|m IH]; intros j s.
  - exists (fst s). split; [| reflexivity].
    cbn [seq for_each]. unfold ret, progress_lines. cbn [seq filter map].
    rewrite Nat.mul_0_r, Nat.add_0_r. now destruct s as [b [t c]].
  - destruct (dcov_bootstrap_iter_run n X Y u s j HX HY) as (v & Hv).
    destruct (IH (S j) (<[j := v]> (fst s),
                        mk_rng (tape (snd s)) (cursor (snd s) + n)))
      as (boot & Hboot & Hlen).
    exists boot. split.
    + cbn [seq for_each]. rewrite Hv, progress_lines_cons.
      apply bind_trace. rewrite Hboot. cbn [fst snd tape cursor].
      replace (cursor (snd s) + n * S m)%nat
        with (cursor (snd s) + n + n * m)%nat by lia.
      reflexivity.
    + rewrite Hlen. cbn [fst]. apply length_insert.
Qed.

(** One draw of the bootstrap of [pvalue_pdcov]. *)
Lemma pdcovs_bootstrap_iter_run (n : nat) (X Y Z : matrix)
  (s : list R * rng) (idraw : nat) :
  square n X -> square n Y -> square n Z ->
  exists v,
    pdcovs_bootstrap_iter X Y Z n s idraw
    = ((if (idraw mod 50 =? 0)%nat
        then [PrintText ("pdcov test: bootstrap draw "
                         ++ pystr (Z.of_nat idraw))]
        else []),
       Return (<[idraw := v]> (fst s),
               mk_rng (tape (snd s)) (cursor (snd s) + n))).
Proof.
  intros HX HY HZ. unfold pdcovs_bootstrap_iter. cbv zeta.
  destruct (random_choice_draws n (snd s)) as [Hl Hd].
  destruct (resample_ret n X _ HX Hd) as (X' & HX' & HsX).
  destruct (resample_ret n Y _ HY Hd) as (Y' & HY' & HsY).
  destruct (resample_ret n Z _ HZ Hd) as (Z' & HZ' & HsZ).
  destruct (dcov_prod_square _ X' Y' true HsX HsY) as [cxy Hxy].
  destruct (dcov_prod_square _ X' Z' true HsX HsZ) as [cxz Hxz].
  destruct (dcov_prod_square _ Y' Z' true HsY HsZ) as [cyz Hyz].
  destruct (dcov_prod_square _ Z' Z' true HsZ HsZ) as [czz Hzz].
  exists (cxy - cxz * cyz / czz).
  rewrite HX', bind_ret_l, HY', bind_ret_l, HZ', bind_ret_l.
  rewrite Hxy, bind_ret_l, Hxz, bind_ret_l, Hyz, bind_ret_l, Hzz, bind_ret_l.
  apply bind_print_if.
Qed.

Lemma pdcovs_bootstrap_loop (n : nat) (X Y Z : matrix) :
  square n X -> square n Y -> square n Z ->
  forall m j (s : list R * rng),
  exists boot,
    for_each (pdcovs_bootstrap_iter X Y Z n) (seq j m) s
    = (progress_lines "pdcov test: bootstrap draw " j m,
       Return (boot, mk_rng (tape (snd s)) (cursor (snd s) + n * m))) /\
    length boot = length (fst s).
Proof.
  intros HX HY HZ. induction m as [|m IH]; intros j s.
  - exists (fst s). split; [| reflexivity].
    cbn [seq for_each]. unfold ret, progress_lines. cbn [seq filter map].
    rewrite Nat.mul_0_r, Nat.add_0_r. now destruct s as [b [t c]].
  - destruct (pdcovs_bootstrap_iter_run n X Y Z s j HX HY HZ) as (v & Hv).
    destruct (IH (S j) (<[j := v]> (fst s),
                        mk_rng (tape (snd s)) (cursor (snd s) + n)))
      as (boot & Hboot & Hlen).
    exists boot. split.
    + cbn [seq for_each]. rewrite Hv, progress_lines_cons.
      apply bind_trace. rewrite Hboot. cbn [fst snd tape cursor].
      replace (cursor (snd s) + n * S m)%nat
        with (cursor (snd s) + n + n * m)%nat by lia.
      reflexivity.
    + rewrite Hlen. cbn [fst]. apply length_insert.
Qed.

(** X23.  On results that hold square arrays of one size [n],
    [pvalue_dcov] and [pvalue_pdcov] return a p-value, print one line for
    every draw whose number is a multiple of 50 ([bootstrap draw 0],
    [bootstrap draw 50], ...: no argument silences them), and take
    [n * ndraws] numbers from the random generator of numpy. *)
Theorem pvalue_console_and_draws (n ndraws : nat) (g : rng) :
  (forall r : DcovResults,
     square n (X_dd r) -> square n (Y_dd r) ->
     exists p,
       pvalue_dcov r ndraws g
       = (progress_lines "    bootstrap draw " 0 ndraws,
          Return (p, mk_rng (tape g) (cursor g + n * ndraws)))) /\
  (forall r : PdcovResults,
     square n (pd_X_dd r) -> square n (pd_Y_dd r) -> square n (pd_Z_dd r) ->
     exists p,
       pvalue_pdcov r ndraws g
       = (progress_lines "pdcov test: bootstrap draw " 0 ndraws,
          Return (p, mk_rng (tape g) (cursor g + n * ndraws)))).
Proof.
  split.
  - intros r HX HY. unfold pvalue_dcov, _dcov_bootstrap. cbv zeta.
    replace (nrows (X_dd r)) with n by (symmetry; exact (proj1 HX)).
    destruct (dcov_bootstrap_loop n _ _ (unbiased r) HX HY ndraws 0%nat
                (replicate ndraws 0, g)) as (boot & Hboot & _).
    rewrite Hboot. cbn [fst snd]. eexists.
    unfold bind, ret. cbn [fst snd]. now rewrite !app_nil_r.
  - intros r HX HY HZ. unfold pvalue_pdcov, _pdcovs_bootstrap. cbv zeta.
    replace (nrows (pd_X_dd r)) with n by (symmetry; exact (proj1 HX)).
    destruct (pdcovs_bootstrap_loop n _ _ _ HX HY HZ ndraws 0%nat
                (replicate ndraws 0, g)) as (boot & Hboot & _).
    rewrite Hboot. cbn [fst snd]. eexists.
    unfold bind, ret. cbn [fst snd]. now rewrite !app_nil_r.
Qed.

(** The statement of [pvalue_console_and_draws] at the sample
    [tie_results], with one draw. *)
Lemma pvalue_console_and_draws_witness :
  exists p,
    pvalue_dcov tie_results 1 identity_tape
    = (progress_lines "    bootstrap draw " 0 1,
       Return (p, mk_rng (tape identity_tape)
                    (cursor identity_tape + 2 * 1))).
Proof.
  apply (proj1 (pvalue_console_and_draws 2 1 identity_tape) tie_results).
  - split; [reflexivity | repeat constructor].
  - split; [reflexivity | repeat constructor].
Defined.

(** ** The extensions as functions of one entry *)

Lemma nplog_at_eq (eps a : R) :
  0 < eps ->
  nplog_at eps 0 a = nplog_value eps a /\
  nplog_at eps 1 a = nplog_slope eps a /\
  nplog_at eps 2 a = nplog_curvature eps a.
Proof.
  intros He.
  unfold nplog_at, first_entry, entry, nplog, np_min,
    nplog_value, nplog_slope, nplog_curvature.
  cbn [data deriv_not_in_012 Z.eqb Pos.eqb orb negb foldr].
  rewrite !bind_ret_l.
  destruct (bool_decide (eps < a)) eqn:Hd.
  - cbn [Z.eqb Pos.eqb]. rewrite returned_ret.
    repeat split; reflexivity.
  - rewrite (math_log_pos eps He), bind_ret_l. cbn [Z.eqb Pos.eqb].
    rewrite bind_ret_l, returned_ret.
    cbn [mbind option_bind components lookup list_lookup].
    unfold where_gt, amap, np_log, np_full.
    cbn [data shape map zip zip_with foldr Nat.mul replicate lookup
           list_lookup default from_option Datatypes.id fst snd].
    rewrite Hd. repeat split; reflexivity.
Qed.

Lemma npxlogx_at_eq (eps a : R) :
  0 < eps ->
  npxlogx_at eps 0 a = npxlogx_value eps a /\
  npxlogx_at eps 1 a = npxlogx_slope eps a /\
  npxlogx_at eps 2 a = npxlogx_curvature eps a.
Proof.
  intros He.
  unfold npxlogx_at, first_entry, entry, npxlogx, np_min,
    npxlogx_value, npxlogx_slope, npxlogx_curvature.
  cbn [data deriv_not_in_012 Z.eqb Pos.eqb orb negb foldr].
  rewrite !bind_ret_l.
  assert (Hm : bool_decide (eps < Rmin eps a) = false).
  { apply bool_decide_eq_false_2. pose proof (Rmin_l eps a). lra. }
  rewrite Hm, (math_log_pos eps He), bind_ret_l. cbn [Z.eqb Pos.eqb].
  rewrite bind_ret_l, returned_ret.
  cbn [mbind option_bind components lookup list_lookup].
  unfold where_gt, amap, azip, np_log.
  cbn [data shape map zip zip_with lookup list_lookup default from_option
         Datatypes.id fst snd].
  destruct (bool_decide (eps < a)) eqn:Hd.
  - apply bool_decide_eq_true in Hd.
    rewrite Rmax_left by lra. repeat split; reflexivity.
  - repeat split; reflexivity.
Qed.

Lemma npexp_at_eq (bigx lowx a : R) :
  npexp_at bigx lowx 0 a = npexp_value bigx lowx a /\
  npexp_at bigx lowx 1 a = npexp_slope bigx lowx a /\
  npexp_at bigx lowx 2 a = exp (Rmax (Rmin a bigx) lowx).
Proof.
  unfold npexp_at, first_entry, entry, npexp, np_min, np_max,
    npexp_value, npexp_slope.
  cbn [data deriv_not_in_012 Z.eqb Pos.eqb orb negb foldr].
  rewrite !bind_ret_l.
  destruct (bool_decide (a <= bigx)) eqn:Hb;
    destruct (bool_decide (a >= lowx)) eqn:Hl; cbn [andb].
  - apply bool_decide_eq_true in Hb, Hl.
    cbn [Z.eqb Pos.eqb]. rewrite returned_ret.
    rewrite (bool_decide_eq_false_2 (a < lowx)) by lra.
    rewrite (bool_decide_eq_false_2 (bigx < a)) by lra.
    rewrite Rmin_left, Rmax_left by (try rewrite Rmin_left; lra).
    repeat split; reflexivity.
  - apply bool_decide_eq_true in Hb. apply bool_decide_eq_false in Hl.
    rewrite !(returned_bind_Some _ _ tt) by reflexivity.
    cbn [Z.eqb Pos.eqb]. rewrite returned_ret.
    cbn [mbind option_bind components lookup list_lookup].
    unfold where_gt, where_lt, amap.
    cbn [data shape map zip zip_with lookup list_lookup default from_option
           Datatypes.id fst snd].
    rewrite (bool_decide_eq_true_2 (a < lowx)) by lra.
    repeat split; reflexivity.
  - apply bool_decide_eq_false in Hb. apply bool_decide_eq_true in Hl.
    rewrite !(returned_bind_Some _ _ tt) by reflexivity.
    cbn [Z.eqb Pos.eqb]. rewrite returned_ret.
    cbn [mbind option_bind components lookup list_lookup].
    unfold where_gt, where_lt, amap.
    cbn [data shape map zip zip_with lookup list_lookup default from_option
           Datatypes.id fst snd].
    rewrite (bool_decide_eq_false_2 (a < lowx)) by lra.
    rewrite (bool_decide_eq_true_2 (bigx < a)) by lra.
    repeat split; reflexivity.
  - apply bool_decide_eq_false in Hb, Hl.
    rewrite !(returned_bind_Some _ _ tt) by reflexivity.
    cbn [Z.eqb Pos.eqb]. rewrite returned_ret.
    cbn [mbind option_bind components lookup list_lookup].
    unfold where_gt, where_lt, amap.
    cbn [data shape map zip zip_with lookup list_lookup default from_option
           Datatypes.id fst snd].
    rewrite (bool_decide_eq_true_2 (a < lowx)) by lra.
    repeat split; reflexivity.
Qed.

(** A function made of two pieces that agree to the first order where
    they meet has the derivative of its pieces. *)
Lemma derivable_pt_lim_piecewise (f g1 g2 : R -> R) (c x l : R) :
  (forall t, c < t -> f t = g1 t) ->
  (forall t, t < c -> f t = g2 t) ->
  f c = g1 c -> g1 c = g2 c ->
  (c <= x -> derivable_pt_lim g1 x l) ->
  (x <= c -> derivable_pt_lim g2 x l) ->
  derivable_pt_lim f x l.
Proof.
  intros Hhi Hlo Hc Hcc H1 H2.
  destruct (Rtotal_order x c) as [Hlt | [Heq | Hgt]].
  - apply (derivable_pt_lim_locally_ext g2 f x (x - 1) c).
    + lra.
    + intros z Hz. symmetry. apply Hlo. lra.
    + apply H2. lra.
  - subst x. specialize (H1 (Rle_refl c)). specialize (H2 (Rle_refl c)).
    intros e He. destruct (H1 e He) as [d1 Hd1].
    destruct (H2 e He) as [d2 Hd2].
    assert (Hd : 0 < Rmin d1 d2).
    { apply Rmin_glb_lt; [apply d1 | apply d2]. }
    exists (mkposreal _ Hd). intros h Hh Hhd. cbn [pos] in Hhd.
    destruct (Rlt_dec 0 h) as [Hpos | Hneg].
    + rewrite (Hhi (c + h)) by lra. rewrite Hc.
      apply Hd1; [exact Hh |].
      eapply Rlt_le_trans; [exact Hhd | apply Rmin_l].
    + assert (Hh' : h < 0) by lra.
      rewrite (Hlo (c + h)) by lra. rewrite Hc, Hcc.
      apply Hd2; [exact Hh |].
      eapply Rlt_le_trans; [exact Hhd | apply Rmin_r].
  - apply (derivable_pt_lim_locally_ext g1 f x c (x + 1)).
    + lra.
    + intros z Hz. symmetry. apply Hhi. lra.
    + apply H1. lra.
Qed.

(** The derivative of a polynomial of degree two. *)
Lemma derivable_pt_lim_quadratic (c0 c1 c2 x : R) :
  derivable_pt_lim (fun t => c0 + c1 * t + c2 * (t * t)) x (c1 + 2 * c2 * x).
Proof.
  assert (H : derivable_pt_lim
                (fun t => c0 + c1 * t + c2 * (t * t)) x
                (0 + c1 * 1 + c2 * (1 * x + x * 1))).
  { apply (derivable_pt_lim_plus (fun t => c0 + c1 * t)
             (fun t => c2 * (t * t))).
    - apply (derivable_pt_lim_plus (fun _ => c0) (fun t => c1 * t)).
      + apply derivable_pt_lim_const.
      + apply (derivable_pt_lim_scal id). apply derivable_pt_lim_id.
    - apply (derivable_pt_lim_scal (fun t => t * t)).
      apply (derivable_pt_lim_mult id id); apply derivable_pt_lim_id. }
  replace (c1 + 2 * c2 * x) with (0 + c1 * 1 + c2 * (1 * x + x * 1))
    by ring.
  exact H.
Qed.

Lemma derivable_pt_lim_one_over (x : R) :
  x <> 0 -> derivable_pt_lim (fun t => 1 / t) x (- 1 / (x * x)).
Proof.
  intros Hx.
  pose proof (derivable_pt_lim_div (fct_cte 1) id x 0 1
                (derivable_pt_lim_const 1 x) (derivable_pt_lim_id x) Hx)
    as H.
  replace (- 1 / (x * x)) with ((0 * id x - 1 * fct_cte 1 x) / Rsqr (id x))
    by (unfold id, fct_cte, Rsqr; field; exact Hx).
  exact H.
Qed.

Lemma derivable_pt_lim_xlnx (x : R) :
  0 < x -> derivable_pt_lim (fun t => t * ln t) x (1 + ln x).
Proof.
  intros Hx.
  pose proof (derivable_pt_lim_mult id ln x 1 (/ x)
                (derivable_pt_lim_id x) (derivable_pt_lim_ln x Hx)) as H.
  replace (1 + ln x) with (1 * ln x + id x * / x)
    by (unfold id; field; lra).
  exact H.
Qed.

Lemma derivable_pt_lim_one_plus_ln (x : R) :
  0 < x -> derivable_pt_lim (fun t => 1 + ln t) x (1 / x).
Proof.
  intros Hx.
  pose proof (derivable_pt_lim_plus (fct_cte 1) ln x 0 (/ x)
                (derivable_pt_lim_const 1 x) (derivable_pt_lim_ln x Hx)) as H.
  replace (1 / x) with (0 + / x) by (field; lra).
  exact H.
Qed.

Lemma derivable_pt_lim_quadratic_eq (c0 c1 c2 x l : R) :
  l = c1 + 2 * c2 * x ->
  derivable_pt_lim (fun t => c0 + c1 * t + c2 * (t * t)) x l.
Proof. intros ->. apply derivable_pt_lim_quadratic. Qed.

(** X24.  [nplog] and [npexp] return derivatives that are the
    derivatives of what they return: as functions of an entry [a], the
    first derivative they return is the derivative of the value they
    return, and the second one the derivative of the first, at every
    [a], the thresholds [eps], [lowx] and [bigx] included.  The
    extensions are twice differentiable. *)
Theorem extensions_twice_differentiable (eps bigx lowx a : R) :
  0 < eps -> lowx <= bigx ->
  derivable_pt_lim (nplog_at eps 0) a (nplog_at eps 1 a) /\
  derivable_pt_lim (nplog_at eps 1) a (nplog_at eps 2 a) /\
  derivable_pt_lim (npexp_at bigx lowx 0) a (npexp_at bigx lowx 1 a) /\
  derivable_pt_lim (npexp_at bigx lowx 1) a (npexp_at bigx lowx 2 a).
Proof.
  intros He Hlb.
  destruct (nplog_at_eq eps a He) as (_ & HL1 & HL2).
  destruct (npexp_at_eq bigx lowx a) as (_ & HE1 & HE2).
  rewrite HL1, HL2, HE1, HE2.
  split; [| split; [| split]].
  - apply (derivable_pt_lim_ext (nplog_value eps)).
    { intros z. symmetry. apply (nplog_at_eq eps z He). }
    apply (derivable_pt_lim_piecewise _ ln
             (fun t => (ln eps - 3 / 2) + 2 / eps * t
                       + - / (2 * eps * eps) * (t * t)) eps).
    + intros t Ht. unfold nplog_value.
      now rewrite bool_decide_eq_true_2.
    + intros t Ht. unfold nplog_value.
      rewrite bool_decide_eq_false_2 by lra. field. lra.
    + unfold nplog_value. rewrite bool_decide_eq_false_2 by lra.
      field_simplify; [lra | lra].
    + field_simplify; [lra | lra].
    + intros Hx. unfold nplog_slope.
      destruct (bool_decide (eps < a)) eqn:Hd.
      * replace (1 / a) with (/ a) by lra.
        apply derivable_pt_lim_ln. lra.
      * apply bool_decide_eq_false in Hd. assert (a = eps) by lra. subst a.
        replace ((1 + (1 - eps / eps)) / eps) with (/ eps)
          by (field; lra).
        apply derivable_pt_lim_ln. lra.
    + intros Hx. unfold nplog_slope.
      rewrite bool_decide_eq_false_2 by lra.
      apply derivable_pt_lim_quadratic_eq; field; lra.
  - apply (derivable_pt_lim_ext (nplog_slope eps)).
    { intros z. symmetry. apply (nplog_at_eq eps z He). }
    apply (derivable_pt_lim_piecewise _ (fun t => 1 / t)
             (fun t => 2 / eps + - / (eps * eps) * t + 0 * (t * t)) eps).
    + intros t Ht. unfold nplog_slope.
      now rewrite bool_decide_eq_true_2.
    + intros t Ht. unfold nplog_slope.
      rewrite bool_decide_eq_false_2 by lra. field. lra.
    + unfold nplog_slope. rewrite bool_decide_eq_false_2 by lra.
      field. lra.
    + field. lra.
    + intros Hx. unfold nplog_curvature.
      destruct (bool_decide (eps < a)) eqn:Hd.
      * apply derivable_pt_lim_one_over. lra.
      * apply bool_decide_eq_false in Hd. assert (a = eps) by lra. subst a.
        apply derivable_pt_lim_one_over. lra.
    + intros Hx. unfold nplog_curvature.
      rewrite bool_decide_eq_false_2 by lra.
      apply derivable_pt_lim_quadratic_eq; field; lra.
  - apply (derivable_pt_lim_ext (npexp_value bigx lowx)).
    { intros z. symmetry. apply (npexp_at_eq bigx lowx z). }
    set (upper := fun t => exp bigx * (1 - bigx + bigx * bigx / 2)
                           + exp bigx * (1 - bigx) * t
                           + exp bigx / 2 * (t * t)).
    set (lower := fun t => exp lowx * (1 - lowx + lowx * lowx / 2)
                           + exp lowx * (1 - lowx) * t
                           + exp lowx / 2 * (t * t)).
    set (h := fun t => if bool_decide (bigx < t) then upper t else exp t).
    apply (derivable_pt_lim_piecewise _ h lower lowx).
    + intros t Ht. unfold npexp_value, h, upper.
      rewrite (bool_decide_eq_false_2 (t < lowx)) by lra.
      destruct (bool_decide (bigx < t)); [| reflexivity].
      replace 0.5 with (1 / 2) by lra. field.
    + intros t Ht. unfold npexp_value, lower.
      rewrite (bool_decide_eq_true_2 (t < lowx)) by lra.
      replace 0.5 with (1 / 2) by lra. field.
    + unfold npexp_value, h, upper.
      rewrite (bool_decide_eq_false_2 (lowx < lowx)) by lra.
      destruct (bool_decide (bigx < lowx)); [| reflexivity].
      replace 0.5 with (1 / 2) by lra. field.
    + unfold h, lower. rewrite (bool_decide_eq_false_2 (bigx < lowx)) by lra.
      field.
    + intros Hx. unfold npexp_slope.
      rewrite (bool_decide_eq_false_2 (a < lowx)) by lra.
      apply (derivable_pt_lim_piecewise h upper exp bigx).
      * intros t Ht. unfold h. now rewrite bool_decide_eq_true_2.
      * intros t Ht. unfold h. now rewrite bool_decide_eq_false_2 by lra.
      * unfold h, upper. rewrite bool_decide_eq_false_2 by lra. field.
      * unfold upper. field.
      * intros Hxb. destruct (bool_decide (bigx < a)) eqn:Hd.
        -- unfold upper, lower; apply derivable_pt_lim_quadratic_eq; field; lra.
        -- apply bool_decide_eq_false in Hd.
           assert (a = bigx) by lra. subst a.
           unfold upper, lower; apply derivable_pt_lim_quadratic_eq; field; lra.
      * intros Hxb. destruct (bool_decide (bigx < a)) eqn:Hd.
        -- apply bool_decide_eq_true in Hd. lra.
        -- apply derivable_pt_lim_exp.
    + intros Hx. unfold npexp_slope.
      destruct (bool_decide (a < lowx)) eqn:Hd.
      * unfold upper, lower; apply derivable_pt_lim_quadratic_eq; field; lra.
      * apply bool_decide_eq_false in Hd. assert (a = lowx) by lra. subst a.
        rewrite (bool_decide_eq_false_2 (bigx < lowx)) by lra.
        unfold upper, lower; apply derivable_pt_lim_quadratic_eq; field; lra.
  - apply (derivable_pt_lim_ext (npexp_slope bigx lowx)).
    { intros z. symmetry. apply (npexp_at_eq bigx lowx z). }
    set (upper := fun t => exp bigx * (1 - bigx) + exp bigx * t
                           + 0 * (t * t)).
    set (lower := fun t => exp lowx * (1 - lowx) + exp lowx * t
                           + 0 * (t * t)).
    set (h := fun t => if bool_decide (bigx < t) then upper t else exp t).
    apply (derivable_pt_lim_piecewise _ h lower lowx).
    + intros t Ht. unfold npexp_slope, h, upper.
      rewrite (bool_decide_eq_false_2 (t < lowx)) by lra.
      destruct (bool_decide (bigx < t)); [ring | reflexivity].
    + intros t Ht. unfold npexp_slope, lower.
      rewrite (bool_decide_eq_true_2 (t < lowx)) by lra. ring.
    + unfold npexp_slope, h, upper.
      rewrite (bool_decide_eq_false_2 (lowx < lowx)) by lra.
      destruct (bool_decide (bigx < lowx)); [ring | reflexivity].
    + unfold h, lower. rewrite (bool_decide_eq_false_2 (bigx < lowx)) by lra.
      ring.
    + intros Hx.
      apply (derivable_pt_lim_piecewise h upper exp bigx).
      * intros t Ht. unfold h. now rewrite bool_decide_eq_true_2.
      * intros t Ht. unfold h. now rewrite bool_decide_eq_false_2 by lra.
      * unfold h, upper. rewrite bool_decide_eq_false_2 by lra. ring.
      * unfold upper. ring.
      * intros Hxb.
        rewrite Rmin_right, Rmax_left by (try rewrite Rmin_right; lra).
        unfold upper, lower; apply derivable_pt_lim_quadratic_eq; field; lra.
      * intros Hxb.
        rewrite Rmin_left, Rmax_left by (try rewrite Rmin_left; lra).
        apply derivable_pt_lim_exp.
    + intros Hx.
      rewrite Rmin_left, Rmax_right by (try rewrite Rmin_left; lra).
      unfold upper, lower; apply derivable_pt_lim_quadratic_eq; field; lra.
Qed.

(** The statement of [extensions_twice_differentiable] at the
    thresholds, for [eps = 1], [lowx = 0] and [bigx = 1]. *)
Lemma extensions_twice_differentiable_witness :
  derivable_pt_lim (nplog_at 1 0) 1 (nplog_at 1 1 1) /\
  derivable_pt_lim (nplog_at 1 1) 1 (nplog_at 1 2 1) /\
  derivable_pt_lim (npexp_at 1 0 0) 1 (npexp_at 1 0 1 1) /\
  derivable_pt_lim (npexp_at 1 0 1) 1 (npexp_at 1 0 2 1).
Proof.
  apply (extensions_twice_differentiable 1 1 0 1); lra.
Defined.

(** X25.  Below [eps] the first derivative that [npxlogx] returns is not
    the derivative of the value it returns.  As functions of an entry
    [a]: the value returned is differentiable everywhere; from [eps]
    upwards its derivative is the first derivative returned,
    [1 + ln a]; below [eps] its derivative is [2 a / eps + ln eps - 1],
    which is the first derivative returned, [ln eps + a / eps], plus
    [a / eps - 1], and that is not zero.  The second derivative returned
    is the derivative of the first derivative returned, everywhere. *)
Theorem npxlogx_derivative_mismatch (eps a : R) :
  0 < eps ->
  derivable_pt_lim (npxlogx_at eps 1) a (npxlogx_at eps 2 a) /\
  (eps <= a ->
   derivable_pt_lim (npxlogx_at eps 0) a (npxlogx_at eps 1 a)) /\
  (a < eps ->
   npxlogx_at eps 1 a = ln eps + a / eps /\
   derivable_pt_lim (npxlogx_at eps 0) a
     (npxlogx_at eps 1 a + (a / eps - 1)) /\
   ~ derivable_pt_lim (npxlogx_at eps 0) a (npxlogx_at eps 1 a)).
Proof.
  intros He.
  destruct (npxlogx_at_eq eps a He) as (_ & H1 & H2).
  rewrite H1, H2.
  assert (Hvalue : forall l,
             (eps <= a -> l = 1 + ln a) ->
             (a <= eps -> l = 2 * a / eps + ln eps - 1) ->
             derivable_pt_lim (npxlogx_at eps 0) a l).
  { intros l Hhi Hlo.
    apply (derivable_pt_lim_ext (npxlogx_value eps)).
    { intros z. symmetry. apply (npxlogx_at_eq eps z He). }
    apply (derivable_pt_lim_piecewise _ (fun t => t * ln t)
             (fun t => 0 + (ln eps - 1) * t + / eps * (t * t)) eps).
    - intros t Ht. unfold npxlogx_value.
      now rewrite bool_decide_eq_true_2.
    - intros t Ht. unfold npxlogx_value.
      rewrite bool_decide_eq_false_2 by lra. field. lra.
    - unfold npxlogx_value. rewrite bool_decide_eq_false_2 by lra.
      field. lra.
    - field. lra.
    - intros Hx. rewrite (Hhi Hx). apply derivable_pt_lim_xlnx. lra.
    - intros Hx. rewrite (Hlo Hx).
      apply derivable_pt_lim_quadratic_eq. field. lra. }
  split; [| split].
  - apply (derivable_pt_lim_ext (npxlogx_slope eps)).
    { intros z. symmetry. apply (npxlogx_at_eq eps z He). }
    unfold npxlogx_curvature.
    apply (derivable_pt_lim_piecewise _ (fun t => 1 + ln t)
             (fun t => ln eps + / eps * t + 0 * (t * t)) eps).
    + intros t Ht. unfold npxlogx_slope.
      now rewrite bool_decide_eq_true_2.
    + intros t Ht. unfold npxlogx_slope.
      rewrite bool_decide_eq_false_2 by lra. field. lra.
    + unfold npxlogx_slope. rewrite bool_decide_eq_false_2 by lra.
      field. lra.
    + field. lra.
    + intros Hx. rewrite Rmax_left by lra.
      apply derivable_pt_lim_one_plus_ln. lra.
    + intros Hx. rewrite Rmax_right by lra.
      apply derivable_pt_lim_quadratic_eq. field. lra.
  - intros Hx. apply Hvalue.
    + intros _. unfold npxlogx_slope.
      destruct (bool_decide (eps < a)) eqn:Hd; [reflexivity |].
      apply bool_decide_eq_false in Hd. assert (a = eps) by lra. subst a.
      field. lra.
    + intros Hx'. assert (a = eps) by lra. subst a.
      unfold npxlogx_slope. rewrite bool_decide_eq_false_2 by lra.
      field. lra.
  - intros Hx.
    assert (Hs : npxlogx_slope eps a = ln eps + a / eps).
    { unfold npxlogx_slope. now rewrite bool_decide_eq_false_2 by lra. }
    assert (Hd : derivable_pt_lim (npxlogx_at eps 0) a
                   (npxlogx_slope eps a + (a / eps - 1))).
    { apply Hvalue; [intros; lra |].
      intros _. rewrite Hs. field. lra. }
    split; [exact Hs |]. split; [exact Hd |].
    intros Hd'.
    pose proof (uniqueness_limite _ _ _ _ Hd Hd') as Heq.
    assert (Hq : a / eps = 1) by lra.
    apply (Rmult_eq_compat_r eps) in Hq.
    unfold Rdiv in Hq. rewrite Rmult_assoc, Rinv_l in Hq by lra. lra.
Qed.

(** The statement of [npxlogx_derivative_mismatch] for [eps = 1], at
    the entry [0]. *)
Lemma npxlogx_derivative_mismatch_witness :
  npxlogx_at 1 1 0 = ln 1 + 0 / 1 /\
  derivable_pt_lim (npxlogx_at 1 0) 0 (npxlogx_at 1 1 0 + (0 / 1 - 1)) /\
  ~ derivable_pt_lim (npxlogx_at 1 0) 0 (npxlogx_at 1 1 0).
Proof.
  apply (proj2 (proj2 (npxlogx_derivative_mismatch 1 0 Rlt_0_1))).
  lra.
Defined.





(** [pdcov_pdcor] on arrays of one number of observations. *)
Lemma pdcov_pdcor_value (X Y Z : npval) (Xd Yd Zd : matrix) :
  ndim X <> 0%nat -> ndim Y <> 0%nat -> ndim Z <> 0%nat ->
  nobs X = nobs Y -> nobs X = nobs Z ->
  decentered_distances X true = ret Xd ->
  decentered_distances Y true = ret Yd ->
  decentered_distances Z true = ret Zd ->
  let N := IZR (Z.of_nat (nobs X) * (Z.of_nat (nobs X) - 3)) in
  let C_XX := frobenius Xd Xd / N in
  let C_XY := frobenius Xd Yd / N in
  let C_YY := frobenius Yd Yd / N in
  let C_XZ := frobenius Xd Zd / N in
  let C_YZ := frobenius Yd Zd / N in
  let C_ZZ := frobenius Zd Zd / N in
  square (nobs X) Xd /\ square (nobs X) Yd /\ square (nobs X) Zd /\
  pdcov_pdcor X Y Z
  = (root <- math_sqrt ((C_XX - C_XZ * C_XZ / C_ZZ)
                        * (C_YY - C_YZ * C_YZ / C_ZZ)) ;;
     ret (mk_PdcovResults (C_XY - (C_XZ * C_YZ) / C_ZZ)
            (INR (nobs X) * (C_XY - (C_XZ * C_YZ) / C_ZZ))
            ((C_XY - (C_XZ * C_YZ) / C_ZZ) / root) Xd Yd Zd)).
Proof.
  intros HX HY HZ Hxy Hxz HXd HYd HZd N.
  destruct (decentered_distances_returns X true HX)
    as (_ & Xd' & _ & _ & _ & HXd' & HXsq).
  destruct (decentered_distances_returns Y true HY)
    as (_ & Yd' & _ & _ & _ & HYd' & HYsq).
  destruct (decentered_distances_returns Z true HZ)
    as (_ & Zd' & _ & _ & _ & HZd' & HZsq).
  rewrite HXd in HXd'. inversion HXd'; subst Xd'.
  rewrite HYd in HYd'. inversion HYd'; subst Yd'.
  rewrite HZd in HZd'. inversion HZd'; subst Zd'.
  rewrite <- Hxy in HYsq. rewrite <- Hxz in HZsq.
  cbv zeta. split; [exact HXsq |]. split; [exact HYsq |].
  split; [exact HZsq |].
  rewrite (pdcov_pdcor_run X Y Z Xd Yd Zd HX HY HZ HXd HYd HZd).
  rewrite (dcov_prod_run true _ _ Xd Xd HXsq HXsq), Nat.eqb_refl, bind_ret_l.
  rewrite (dcov_prod_run true _ _ Xd Yd HXsq HYsq), Nat.eqb_refl, bind_ret_l.
  rewrite (dcov_prod_run true _ _ Yd Yd HYsq HYsq), Nat.eqb_refl, bind_ret_l.
  rewrite (dcov_prod_run true _ _ Xd Zd HXsq HZsq), Nat.eqb_refl, bind_ret_l.
  rewrite (dcov_prod_run true _ _ Yd Zd HYsq HZsq), Nat.eqb_refl, bind_ret_l.
  rewrite (dcov_prod_run true _ _ Zd Zd HZsq HZsq), Nat.eqb_refl, bind_ret_l.
  reflexivity.
Qed.

(** X27.  [pdcov_pdcor] treats [X] and [Y] alike.  On three arrays of
    rank one or two with one number [n >= 4] of observations, either
    [pdcov_pdcor(X, Y, Z)] and [pdcov_pdcor(Y, X, Z)] both raise the
    [ValueError] of [math.sqrt], the product under the square root being
    negative, or both return, with the same [pdcov], [pdcor] and
    [pdcov_stat = n * pdcov] and with the arrays of [X] and [Y]
    exchanged; and [pvalue_pdcov] returns on the result. *)
Theorem pdcov_pdcor_symmetric (X Y Z : npval) :
  ndim X <> 0%nat -> ndim Y <> 0%nat -> ndim Z <> 0%nat ->
  nobs X = nobs Y -> nobs X = nobs Z -> (4 <= nobs X)%nat ->
  (pdcov_pdcor X Y Z = ([], Raise "ValueError: math domain error") /\
   pdcov_pdcor Y X Z = ([], Raise "ValueError: math domain error")) \/
  (exists r r',
      pdcov_pdcor X Y Z = ret r /\
      pdcov_pdcor Y X Z = ret r' /\
      pdcov r' = pdcov r /\
      pdcor r' = pdcor r /\
      pdcov_stat r' = pdcov_stat r /\
      pdcov_stat r = INR (nobs X) * pdcov r /\
      pd_X_dd r' = pd_Y_dd r /\
      pd_Y_dd r' = pd_X_dd r /\
      pd_Z_dd r' = pd_Z_dd r /\
      (forall ndraws g, exists p g',
          returned (pvalue_pdcov r ndraws g) = Some (p, g'))).
Proof.
  intros HX HY HZ Hxy Hxz Hn.
  destruct (decentered_distances_returns X true HX)
    as (_ & Xd & _ & _ & _ & HXd & _).
  destruct (decentered_distances_returns Y true HY)
    as (_ & Yd & _ & _ & _ & HYd & _).
  destruct (decentered_distances_returns Z true HZ)
    as (_ & Zd & _ & _ & _ & HZd & _).
  destruct (pdcov_pdcor_value X Y Z Xd Yd Zd HX HY HZ Hxy Hxz HXd HYd HZd)
    as (HXsq & HYsq & HZsq & Hr).
  destruct (pdcov_pdcor_value Y X Z Yd Xd Zd HY HX HZ (eq_sym Hxy)
              (eq_trans (eq_sym Hxy) Hxz) HYd HXd HZd)
    as (_ & _ & _ & Hr').
  cbv zeta in Hr, Hr'. rewrite <- Hxy in Hr'.
  rewrite (frobenius_comm Yd Xd) in Hr'.
  set (N := IZR (Z.of_nat (nobs X) * (Z.of_nat (nobs X) - 3))) in *.
  set (C_XX := frobenius Xd Xd / N) in *.
  set (C_XY := frobenius Xd Yd / N) in *.
  set (C_YY := frobenius Yd Yd / N) in *.
  set (C_XZ := frobenius Xd Zd / N) in *.
  set (C_YZ := frobenius Yd Zd / N) in *.
  set (C_ZZ := frobenius Zd Zd / N) in *.
  replace ((C_YY - C_YZ * C_YZ / C_ZZ) * (C_XX - C_XZ * C_XZ / C_ZZ))
    with ((C_XX - C_XZ * C_XZ / C_ZZ) * (C_YY - C_YZ * C_YZ / C_ZZ))
    in Hr' by ring.
  replace (C_XY - C_YZ * C_XZ / C_ZZ) with (C_XY - C_XZ * C_YZ / C_ZZ)
    in Hr' by (unfold Rdiv; ring).
  set (P := (C_XX - C_XZ * C_XZ / C_ZZ) * (C_YY - C_YZ * C_YZ / C_ZZ)) in *.
  unfold math_sqrt in Hr, Hr'.
  destruct (bool_decide (P < 0)).
  - left. split; [exact Hr | exact Hr'].
  - right. rewrite bind_ret_l in Hr, Hr'.
    eexists _, _. split; [exact Hr |]. split; [exact Hr' |].
    cbn [pdcov pdcor pdcov_stat pd_X_dd pd_Y_dd pd_Z_dd].
    repeat (split; [reflexivity |]).
    intros ndraws g.
    destruct (pvalue_pdcov_returns (nobs X) ndraws
                (mk_PdcovResults (C_XY - C_XZ * C_YZ / C_ZZ)
                   (INR (nobs X) * (C_XY - C_XZ * C_YZ / C_ZZ))
                   ((C_XY - C_XZ * C_YZ / C_ZZ) / sqrt P) Xd Yd Zd) g
                HXsq HYsq HZsq) as (boot & g' & _ & _ & Hp).
    eexists _, g'. exact Hp.
Qed.

(** The statement of [pdcov_pdcor_symmetric] for three samples of four
    observations. *)
Lemma pdcov_pdcor_symmetric_witness :
  (pdcov_pdcor (Vector [0; 1; 3; 6]) (Vector [2; 0; 1; 5])
     (Vector [1; 4; 2; 0])
   = ([], Raise "ValueError: math domain error") /\
   pdcov_pdcor (Vector [2; 0; 1; 5]) (Vector [0; 1; 3; 6])
     (Vector [1; 4; 2; 0])
   = ([], Raise "ValueError: math domain error")) \/
  (exists r r',
      pdcov_pdcor (Vector [0; 1; 3; 6]) (Vector [2; 0; 1; 5])
        (Vector [1; 4; 2; 0]) = ret r /\
      pdcov_pdcor (Vector [2; 0; 1; 5]) (Vector [0; 1; 3; 6])
        (Vector [1; 4; 2; 0]) = ret r' /\
      pdcov r' = pdcov r /\
      pdcor r' = pdcor r /\
      pdcov_stat r' = pdcov_stat r /\
      pdcov_stat r = INR (nobs (Vector [0; 1; 3; 6])) * pdcov r /\
      pd_X_dd r' = pd_Y_dd r /\
      pd_Y_dd r' = pd_X_dd r /\
      pd_Z_dd r' = pd_Z_dd r /\
      (forall ndraws g, exists p g',
          returned (pvalue_pdcov r ndraws g) = Some (p, g'))).
Proof.
  apply (pdcov_pdcor_symmetric (Vector [0; 1; 3; 6]) (Vector [2; 0; 1; 5])
           (Vector [1; 4; 2; 0]));
    try discriminate; reflexivity.
Defined.
